(** * identity-sync-operator: the reconcile decision core

    A shallow embedding of the decision core of the operator
    (error classification, fanout observation, outcome policy, condition
    set, log rate limiter) together with the properties its specification
    states about it.

    Conventions of the embedding:
    - Go [int], [int64] and [time.Duration] values are [Z]; the only
      arithmetic the core performs on them is [x++], written [incr] with
      its 64-bit wrap-around.
    - Go string-typed constants ([ErrorKind], [ErrorReason], [Outcome],
      [Reason], [ConditionStatus]) are [string]s, compared with [=?];
      Go strings are byte sequences and so are Rocq's.
    - a [time.Time] is the instant it denotes, an unbounded [Z] count of
      nanoseconds; [t.Add d] is [t + d] and [a.Before b] is [a <? b].
    - Go maps are [gmap]s.  Where the code ranges over a map, the order is
      unspecified: the definitions enumerate with [map_to_list] and the
      theorems show that the order does not matter, or take the choice as
      an explicit argument.
    - a pointer receiver that is mutated is passed and returned.
    - names are those of the source; [Type'] and [Set'] stand for the Go
      names [Type] and [Set], and the fields [Outcome] and [Reason] of
      [Decision] are [Outcome_] and [Reason_]. *)

From Stdlib Require Import ZArith String Ascii List Lia.
From stdpp Require Import gmap strings list sorting.

Open Scope string_scope.
Open Scope Z_scope.

(** ** Machine integers *)
Module GoInt.

Definition minInt : Z := - 2 ^ 63.
Definition maxInt : Z := 2 ^ 63 - 1.

(** Two's complement reduction of an integer to the range of [int]. *)
Definition wrap (x : Z) : Z := (x + 2 ^ 63) mod 2 ^ 64 - 2 ^ 63.

(** [x++] *)
Definition incr (x : Z) : Z := wrap (x + 1).

End GoInt.

(** ** [sort.Slice]

    [sort.Slice(s, less)] sorts [s] by the comparison [less] and is not
    stable.  The embedding is an insertion sort; [Slice_unique] below
    shows that on elements that [less] orders strictly and totally every
    sorted rearrangement is the same list, so the algorithm is immaterial
    wherever the core sorts (map entries, whose keys are distinct). *)
Module sort.
Section Slice.
Context {A : Type} (less : A → A → bool).

Fixpoint insert (x : A) (l : list A) : list A :=
  match l with
  | [] => [x]
  | y :: l' => if less x y then x :: y :: l' else y :: insert x l'
  end.

Fixpoint Slice (l : list A) : list A :=
  match l with
  | [] => []
  | x :: l' => insert x (Slice l')
  end.

(** [a] may stand before [b] in a sorted slice: [b] is not less than
    [a]. *)
Definition inOrder (a b : A) : Prop := less b a = false.
End Slice.
End sort.

(** ** pkg/errclass *)
Module errclass.

(** error.go *)
Inductive NotFoundPolicy := NotFoundAsConfig | NotFoundAsTransient.

Definition NotFoundPolicy_eqb (a b : NotFoundPolicy) : bool :=
  match a, b with
  | NotFoundAsConfig, NotFoundAsConfig => true
  | NotFoundAsTransient, NotFoundAsTransient => true
  | _, _ => false
  end.

Definition ErrorKind := string.
Definition KindTransient : ErrorKind := "Transient".
Definition KindTerminal : ErrorKind := "Terminal".
Definition KindConflict : ErrorKind := "Conflict".
Definition KindConfig : ErrorKind := "Config".

Definition ErrorReason := string.
Definition ReasonForbidden : ErrorReason := "Forbidden".
Definition ReasonConflict : ErrorReason := "Conflict".
Definition ReasonNotFound : ErrorReason := "NotFound".
Definition ReasonTimeout : ErrorReason := "Timeout".
Definition ReasonInvalid : ErrorReason := "Invalid".
Definition ReasonOther : ErrorReason := "Other".

Definition AllReasons : list ErrorReason :=
  [ReasonForbidden; ReasonConflict; ReasonNotFound; ReasonTimeout;
   ReasonInvalid; ReasonOther].

(** A non-nil Go [error], as far as the core can observe it: its message
    and the answers of the library predicates [ClassifyError] asks
    ([errors.Is] against the two context errors, the [apierrors.Is...]
    helpers, and the code of the [*apierrors.StatusError] that
    [errors.As] finds in it, if any).  The predicates belong to the Go
    and Kubernetes libraries, so their answers are fields here and every
    combination of answers is admitted.  A nil error is [None]. *)
Record error := {
  Error : string;
  IsDeadlineExceeded : bool;
  IsCanceled : bool;
  IsConflict : bool;
  IsAlreadyExists : bool;
  IsForbidden : bool;
  IsUnauthorized : bool;
  IsInvalid : bool;
  IsNotFound : bool;
  IsTimeout : bool;
  IsServerTimeout : bool;
  IsTooManyRequests : bool;
  IsInternalError : bool;
  StatusCode : option Z
}.

Definition StatusInternalServerError : Z := 500.

(** classify.go *)
Definition ClassifyError (err : option error) (notFoundPolicy : NotFoundPolicy)
  : ErrorKind * ErrorReason :=
  match err with
  | None => ("", "")
  | Some e =>
    if IsDeadlineExceeded e then (KindTransient, ReasonTimeout)
    else if IsCanceled e then (KindTerminal, ReasonOther)
    else if IsConflict e then (KindConflict, ReasonConflict)
    else if IsAlreadyExists e then (KindConflict, ReasonConflict)
    else if IsForbidden e || IsUnauthorized e then (KindConfig, ReasonForbidden)
    else if IsInvalid e then (KindConfig, ReasonInvalid)
    else if IsNotFound e then
      if NotFoundPolicy_eqb notFoundPolicy NotFoundAsTransient
      then (KindTransient, ReasonNotFound)
      else (KindConfig, ReasonNotFound)
    else if IsTimeout e || IsServerTimeout e || IsTooManyRequests e
      then (KindTransient, ReasonTimeout)
    else if IsInternalError e then (KindTransient, ReasonOther)
    else
      match StatusCode e with
      | Some code =>
        if (code =? 0) || ((StatusInternalServerError <=? code) && (code <=? 599))
        then (KindTransient, ReasonOther)
        else (KindTransient, ReasonOther)
      | None => (KindTransient, ReasonOther)
      end
  end.

End errclass.

(** ** pkg/result *)
Module result.

Definition Outcome := string.
Definition OutcomeSuccess : Outcome := "success".
Definition OutcomePartial : Outcome := "partial".
Definition OutcomeFailed : Outcome := "failed".

Definition Reason := string.
Definition ReasonAPIServerError : Reason := "APIServerError".
Definition ReasonPartialFailure : Reason := "PartialFailure".
Definition ReasonInvalidSpec : Reason := "InvalidSpec".
Definition ReasonForbidden : Reason := "Forbidden".
Definition ReasonConflict : Reason := "Conflict".
Definition ReasonNotFound : Reason := "NotFound".
Definition ReasonTimeout : Reason := "Timeout".
Definition ReasonUnknown : Reason := "Unknown".

Record Decision := {
  RequeueAfter : Z;
  Outcome_ : Outcome;
  Reason_ : Reason;
  Msg : string;
  Err : option errclass.error
}.

End result.

(** ** Go builtins on maps *)
Module builtin.
(** [len(m)] *)
Definition len {V : Type} (m : gmap string V) : Z := Z.of_nat (size m).
End builtin.

(** ** pkg/status *)
Module status.

(** [metav1.ConditionStatus] and [metav1.Condition], of the Kubernetes
    API types. *)
Definition ConditionStatus := string.
Definition ConditionTrue : ConditionStatus := "True".
Definition ConditionFalse : ConditionStatus := "False".
Definition ConditionUnknown : ConditionStatus := "Unknown".

Record Condition := {
  Type' : string;
  Status : ConditionStatus;
  ObservedGeneration : Z;
  LastTransitionTime : Z;
  Reason : string;
  Message : string
}.

(** conditions.go *)
Record ConditionSet := {
  original : list Condition;
  conditions : gmap string Condition;
  reconcileTime : Z;
  observedGeneration : Z
}.

(** The loop of [NewConditionSet] that fills [byType]. *)
Definition byType (conds : list Condition) : gmap string Condition :=
  foldl (λ m c, <[Type' c := c]> m) ∅ conds.

Definition NewConditionSet (conds : list Condition) (generation : Z)
    (reconcileTime : Z) : ConditionSet :=
  {| original := conds;
     conditions := byType conds;
     reconcileTime := reconcileTime;
     observedGeneration := generation |}.

(** The closure handed to [sort.Slice] by [Conditions], on two
    elements. *)
Definition lessType (a b : Condition) : bool := String.ltb (Type' a) (Type' b).

(** The body of [Conditions] on one enumeration of the live map. *)
Definition conditionsOf (entries : list (string * Condition)) : list Condition :=
  let out := entries.*2 in
  sort.Slice lessType out.

Definition Conditions (cs : ConditionSet) : list Condition :=
  conditionsOf (map_to_list (conditions cs)).

Definition isSame (prev next : Condition) : bool :=
  String.eqb (Status prev) (Status next) &&
  String.eqb (Reason prev) (Reason next) &&
  String.eqb (Message prev) (Message next) &&
  (ObservedGeneration prev =? ObservedGeneration next).

Definition Set' (condType : string) (status : ConditionStatus)
    (reason message : string) (cs : ConditionSet) : ConditionSet :=
  let next := {| Type' := condType;
                 Status := status;
                 ObservedGeneration := observedGeneration cs;
                 LastTransitionTime := reconcileTime cs;
                 Reason := reason;
                 Message := message |} in
  let store c := {| original := original cs;
                    conditions := <[condType := c]> (conditions cs);
                    reconcileTime := reconcileTime cs;
                    observedGeneration := observedGeneration cs |} in
  match conditions cs !! condType with
  | Some prev =>
    let next :=
      if String.eqb (Status prev) (Status next) then
        {| Type' := Type' next;
           Status := Status next;
           ObservedGeneration := ObservedGeneration next;
           LastTransitionTime := LastTransitionTime prev;
           Reason := Reason next;
           Message := Message next |}
      else next in
    if isSame prev next then cs else store next
  | None => store next
  end.

(** The arguments of a call of [Set], and a sequence of calls applied
    one after the other, as a pass applies them. *)
Record SetCall := {
  condType : string;
  status : ConditionStatus;
  reason : string;
  message : string
}.

Definition applySets (cs : ConditionSet) (calls : list SetCall) : ConditionSet :=
  foldl (λ cs c, Set' (condType c) (status c) (reason c) (message c) cs) cs calls.

Definition IsConditionTrue (condType : string) (cs : ConditionSet) : bool :=
  match conditions cs !! condType with
  | Some condition => String.eqb (Status condition) ConditionTrue
  | None => false
  end.

(** The loop of [Changed] over [cs.original]. *)
Fixpoint changedFrom (live : gmap string Condition) (orig : list Condition) : bool :=
  match orig with
  | [] => false
  | prev :: rest =>
    match live !! Type' prev with
    | None => true
    | Some next => if negb (isSame prev next) then true else changedFrom live rest
    end
  end.

Definition Changed (cs : ConditionSet) : bool :=
  if negb (Z.of_nat (length (original cs)) =? builtin.len (conditions cs)) then true
  else changedFrom (conditions cs) (original cs).

End status.

(** ** pkg/logging *)
Module logging.

Definition defaultSize : Z := 10000.

(** The mutex of the Go struct serialises the operations: each call of
    [Allow] runs alone on the table, which is what a function from the
    state to the answer and the next state describes. *)
Record Limiter := {
  size : Z;
  entries : gmap string Z
}.

Definition NewLimiter (size : Z) : Limiter :=
  {| size := if size <=? 0 then defaultSize else size;
     entries := ∅ |}.

(** Which entry [for fp := range l.entries] yields first is unspecified.
    A [chooser] answers for the language: given the keys present it names
    one by its position (taken modulo their number). *)
Definition chooser := list string → nat.

(** [for fp := range m { delete(m, fp); break }] *)
Definition evictOne (choose : chooser) (m : gmap string Z) : gmap string Z :=
  let keys := (map_to_list m).*1 in
  match keys !! (choose keys `mod` length keys)%nat with
  | Some fp => delete fp m
  | None => m
  end.

(** [for len(m) > size { evictOne }].  The loop is run for at most [fuel]
    rounds; [None] means that more were needed.  [prune] supplies one
    round per entry, so [None] is met exactly when the table is empty and
    still above [size], where the Go loop spins for ever (a negative
    [size], which [NewLimiter] never produces). *)
Fixpoint evict (fuel : nat) (choose : chooser) (size : Z) (m : gmap string Z)
  : option (gmap string Z) :=
  if size <? builtin.len m then
    match fuel with
    | O => None
    | S fuel' => evict fuel' choose size (evictOne choose m)
    end
  else Some m.

(** The first loop of [prune]: the entries with [!now.Before(nextAllowed)]
    are deleted, the others stay. *)
Definition dropExpired (now : Z) (m : gmap string Z) : gmap string Z :=
  filter (λ e, now < e.2) m.

Definition prune (choose : chooser) (now : Z) (l : Limiter) : option Limiter :=
  let live := dropExpired now (entries l) in
  m ← evict (base.size live) choose (size l) live;
  Some {| size := size l; entries := m |}.

Definition Allow (choose : chooser) (fingerprint : string) (now interval : Z)
    (l : Limiter) : option (bool * Limiter) :=
  if interval <=? 0 then Some (true, l)
  else
    let blocked := match entries l !! fingerprint with
                   | Some nextAllowed => now <? nextAllowed
                   | None => false
                   end in
    if blocked then Some (false, l)
    else
      let l1 := {| size := size l;
                   entries := <[fingerprint := now + interval]> (entries l) |} in
      if size l1 <? builtin.len (entries l1) then
        l2 ← prune choose now l1; Some (true, l2)
      else Some (true, l1).

(** A call of [Allow] with the choices the runtime makes in it. *)
Record Call := {
  choose : chooser;
  fingerprint : string;
  now : Z;
  interval : Z
}.

Definition step (l : Limiter) (c : Call) : option (bool * Limiter) :=
  Allow (choose c) (fingerprint c) (now c) (interval c) l.

(** A sequence of calls, one after the other, with the answers given. *)
Fixpoint run (l : Limiter) (calls : list Call) : option (list bool * Limiter) :=
  match calls with
  | [] => Some ([], l)
  | c :: rest =>
    match step l c with
    | None => None
    | Some (b, l1) =>
      match run l1 rest with
      | None => None
      | Some (bs, l2) => Some (b :: bs, l2)
      end
    end
  end.

End logging.

(** ** api/v1alpha1 and pkg/observability *)
Module v1alpha1.

Definition ConditionReady : string := "Ready".
Definition ConditionDegraded : string := "Degraded".
Definition ConditionReferenceSecretReady : string := "ReferenceSecretReady".

Definition ReasonReconciled : string := "Reconciled".
Definition ReasonReconciling : string := "Reconciling".
Definition ReasonReconcileError : string := "ReconcileError".
Definition ReasonSecretNotFound : string := "SecretNotFound".
Definition ReasonSecretAvailable : string := "SecretAvailable".
Definition ReasonSecretGetFailed : string := "SecretAvailable".

Record IdentitySyncPolicyStatus := {
  Conditions : list status.Condition;
  ObservedSourceSecretHash : string
}.

(** Of the policy object, the parts the status path of the controller
    reads or writes: [metadata.generation] and the status. *)
Record IdentitySyncPolicy := {
  Generation : Z;
  Status : IdentitySyncPolicyStatus
}.

End v1alpha1.

Module observability.
Definition Phase := string.
Definition PhasePrecondition : Phase := "precondition".
Definition PhaseFanout : Phase := "fanout".
End observability.

(** ** internal/controller: fanout observation and outcome policy *)
Module controller.

(** fanout_observation.go *)
Record Policy := {
  TransientDelay : Z;
  PermanentDelay : Z
}.

Definition Minute : Z := 60 * 1000000000.

Definition DefaultPolicy : Policy :=
  {| TransientDelay := 2 * Minute; PermanentDelay := 10 * Minute |}.

Record Sample := {
  Namespace : string;
  Message : string;
  Reason : errclass.ErrorReason;
  Kind : errclass.ErrorKind
}.

(** [ReasonCount]; its field [Reason] is [rcReason] here, the name being
    taken by [Sample]. *)
Record ReasonCount := {
  rcReason : errclass.ErrorReason;
  Count : Z
}.

Definition ReasonCounts := list ReasonCount.

Record Observation := {
  Reasons : gmap string Z;
  Samples : list Sample;
  MaxSample : Z;
  Success : Z;
  Failed : Z;
  Total : Z;
  HasTransient : bool;
  HasPermanent : bool
}.

Definition minSample : Z := 8.

(** [make([]Sample, 0, n)] panics for a negative capacity [n]; [None] is
    that panic. *)
Definition NewObservation (total maxSample : Z) : option Observation :=
  if Z.min minSample maxSample <? 0 then None
  else Some {| Reasons := ∅; Samples := []; MaxSample := maxSample;
               Success := 0; Failed := 0; Total := total;
               HasTransient := false; HasPermanent := false |}.

Definition ObserveSuccess (obs : Observation) : Observation :=
  {| Reasons := Reasons obs; Samples := Samples obs; MaxSample := MaxSample obs;
     Success := GoInt.incr (Success obs);
     Failed := Failed obs; Total := Total obs;
     HasTransient := HasTransient obs; HasPermanent := HasPermanent obs |}.

(** [obs.Reasons[reason]++]: a missing key reads as 0. *)
Definition bump (reason : errclass.ErrorReason) (m : gmap string Z) : gmap string Z :=
  <[reason := GoInt.incr (default 0 (m !! reason))]> m.

Definition ObserveFailure (namespace : string) (kind : errclass.ErrorKind)
    (reason : errclass.ErrorReason) (err : option errclass.error)
    (obs : Observation) : Observation :=
  let hasTransient :=
    if String.eqb kind errclass.KindTransient || String.eqb kind errclass.KindConflict
    then true else HasTransient obs in
  let hasPermanent :=
    if String.eqb kind errclass.KindTerminal || String.eqb kind errclass.KindConfig
    then true else HasPermanent obs in
  let samples :=
    if Z.of_nat (length (Samples obs)) <? MaxSample obs then
      let message := match err with
                     | Some e => errclass.Error e
                     | None => ""
                     end in
      (Samples obs ++ [{| Namespace := namespace; Message := message;
                          Reason := reason; Kind := kind |}])%list
    else Samples obs in
  {| Reasons := bump reason (Reasons obs);
     Samples := samples;
     MaxSample := MaxSample obs;
     Success := Success obs;
     Failed := GoInt.incr (Failed obs);
     Total := Total obs;
     HasTransient := hasTransient;
     HasPermanent := hasPermanent |}.

(** What [reconcileIdentity] does to the observation for one target,
    and for a list of targets in turn. *)
Inductive Op :=
| OpSuccess
| OpFailure (namespace : string) (kind : errclass.ErrorKind)
    (reason : errclass.ErrorReason) (err : option errclass.error).

Definition observe (obs : Observation) (op : Op) : Observation :=
  match op with
  | OpSuccess => ObserveSuccess obs
  | OpFailure namespace kind reason err => ObserveFailure namespace kind reason err obs
  end.

Definition observeAll (obs : Observation) (ops : list Op) : Observation :=
  foldl observe obs ops.

(** The body of [ErrorReasonCounts] on one enumeration of the map's
    entries: the entries with a zero count are skipped. *)
Definition reasonCountsOf (entries : list (string * Z)) : ReasonCounts :=
  omap (λ rc, if rc.2 =? 0 then None
              else Some {| rcReason := rc.1; Count := rc.2 |}) entries.

Definition ErrorReasonCounts (obs : Observation) : ReasonCounts :=
  reasonCountsOf (map_to_list (Reasons obs)).

Definition mapErrReasonToResultReason (reason : errclass.ErrorReason) : result.Reason :=
  if String.eqb reason errclass.ReasonNotFound then result.ReasonNotFound
  else if String.eqb reason errclass.ReasonForbidden then result.ReasonForbidden
  else if String.eqb reason errclass.ReasonInvalid then result.ReasonInvalidSpec
  else if String.eqb reason errclass.ReasonConflict then result.ReasonConflict
  else if String.eqb reason errclass.ReasonTimeout then result.ReasonTimeout
  else if String.eqb reason errclass.ReasonOther then result.ReasonAPIServerError
  else result.ReasonUnknown.

Definition errReasonPriority (r : errclass.ErrorReason) : Z :=
  if String.eqb r errclass.ReasonInvalid then 60
  else if String.eqb r errclass.ReasonForbidden then 50
  else if String.eqb r errclass.ReasonNotFound then 40
  else if String.eqb r errclass.ReasonConflict then 30
  else if String.eqb r errclass.ReasonTimeout then 20
  else if String.eqb r errclass.ReasonOther then 10
  else 0.

(** The closure handed to [sort.Slice] by [SortInPlace], on two
    elements. *)
Definition less (a b : ReasonCount) : bool :=
  if negb (Count a =? Count b) then Count b <? Count a
  else
    let pi := errReasonPriority (rcReason a) in
    let pj := errReasonPriority (rcReason b) in
    if negb (pi =? pj) then pj <? pi
    else String.ltb (rcReason a) (rcReason b).

Definition SortInPlace (rc : ReasonCounts) : ReasonCounts := sort.Slice less rc.

(** [PrimaryReason] on one enumeration of [obs.Reasons]. *)
Definition primaryReasonOf (entries : list (string * Z)) : result.Reason :=
  if (length entries =? 0)%nat then result.ReasonUnknown
  else
    let reasons := reasonCountsOf entries in
    match SortInPlace reasons with
    | [] => result.ReasonUnknown
    | primary :: _ => mapErrReasonToResultReason (rcReason primary)
    end.

Definition PrimaryReason (obs : Observation) : result.Reason :=
  primaryReasonOf (map_to_list (Reasons obs)).

Definition Decide (p : Policy) (obs : Observation) : result.Decision :=
  let outcome :=
    if Total obs =? 0 then result.OutcomeSuccess
    else if Success obs =? Total obs then result.OutcomeSuccess
    else if Success obs =? 0 then result.OutcomeFailed
    else result.OutcomePartial in
  let requeueAfter :=
    if negb (String.eqb outcome result.OutcomeSuccess) then
      if HasTransient obs then TransientDelay p else PermanentDelay p
    else 0 in
  {| result.RequeueAfter := requeueAfter;
     result.Outcome_ := outcome;
     result.Reason_ := PrimaryReason obs;
     result.Msg := "";
     result.Err := None |}.

(** logging.go *)
Definition maxMsgLen : Z := 120.

(** [s[:n]] for [0 <= n <= len(s)]. *)
Definition prefix (n : Z) (s : string) : string := String.substring 0 (Z.to_nat n) s.

Definition truncate (s : string) (max : Z) : string :=
  if (max <=? 0) || (Z.of_nat (String.length s) <=? max) then s
  else if max <=? 3 then prefix max s
  else String.append (prefix (max - 3) s) "...".

(** The message [formatSamples] prints for a sample (the [msg=%q]
    argument). *)
Definition sampleMsg (s : Sample) : string := truncate (Message s) maxMsgLen.

(** conditions helpers of the controller *)
Definition markReady (message : string) (cs : status.ConditionSet) : status.ConditionSet :=
  let cs := status.Set' v1alpha1.ConditionReady status.ConditionTrue
              v1alpha1.ReasonReconciled message cs in
  status.Set' v1alpha1.ConditionDegraded status.ConditionFalse
    v1alpha1.ReasonReconciled message cs.

Definition markDegraded (message : string) (cs : status.ConditionSet) : status.ConditionSet :=
  let cs := status.Set' v1alpha1.ConditionReady status.ConditionFalse
              v1alpha1.ReasonReconcileError message cs in
  status.Set' v1alpha1.ConditionDegraded status.ConditionTrue
    v1alpha1.ReasonReconcileError message cs.

Definition markSecretAvailable (message : string) (cs : status.ConditionSet) : status.ConditionSet :=
  status.Set' v1alpha1.ConditionReferenceSecretReady status.ConditionTrue
    v1alpha1.ReasonSecretAvailable message cs.

Definition markSecretNotFound (message : string) (cs : status.ConditionSet) : status.ConditionSet :=
  status.Set' v1alpha1.ConditionReferenceSecretReady status.ConditionFalse
    v1alpha1.ReasonSecretNotFound message cs.

Definition markSecretGetFailed (message : string) (cs : status.ConditionSet) : status.ConditionSet :=
  status.Set' v1alpha1.ConditionReferenceSecretReady status.ConditionFalse
    v1alpha1.ReasonSecretGetFailed message cs.

(** controller.go, the status path.

    The API server is outside the program.  What the controller asks of
    it is recorded as a list of requests, and what it answers to a status
    patch is an argument ([patchAnswer], [None] for success).
    [meta.SetStatusCondition] of the Kubernetes library is an argument
    as well. *)
Inductive Request :=
| StatusPatch (identity base : v1alpha1.IdentitySyncPolicy).

(** [fmt.Errorf("status patch failed (%s/%s): %w", kind, reason, err)]:
    the message is extended and, the error being wrapped with [%w], the
    library predicates answer as for [err]. *)
Definition wrapPatchError (kind reason : string) (err : errclass.error) : errclass.error :=
  {| errclass.Error :=
       String.append "status patch failed ("
         (String.append kind (String.append "/"
           (String.append reason (String.append "): " (errclass.Error err)))));
     errclass.IsDeadlineExceeded := errclass.IsDeadlineExceeded err;
     errclass.IsCanceled := errclass.IsCanceled err;
     errclass.IsConflict := errclass.IsConflict err;
     errclass.IsAlreadyExists := errclass.IsAlreadyExists err;
     errclass.IsForbidden := errclass.IsForbidden err;
     errclass.IsUnauthorized := errclass.IsUnauthorized err;
     errclass.IsInvalid := errclass.IsInvalid err;
     errclass.IsNotFound := errclass.IsNotFound err;
     errclass.IsTimeout := errclass.IsTimeout err;
     errclass.IsServerTimeout := errclass.IsServerTimeout err;
     errclass.IsTooManyRequests := errclass.IsTooManyRequests err;
     errclass.IsInternalError := errclass.IsInternalError err;
     errclass.StatusCode := errclass.StatusCode err |}.

(** What a call of [patchStatusIfChanged] leaves behind: the requests it
    sent, the policy object as mutated, and its two results. *)
Record PatchOutcome := {
  requests : list Request;
  identity' : v1alpha1.IdentitySyncPolicy;
  patched : bool;
  patchErr : option errclass.error
}.

Section StatusPath.
Variable SetStatusCondition :
  list status.Condition → status.Condition → list status.Condition.
Variable patchAnswer : option errclass.error.

Definition patchStatusIfChanged (identity : v1alpha1.IdentitySyncPolicy)
    (cs : option status.ConditionSet) (desiredHash : string) : PatchOutcome :=
  let condChanged := match cs with
                     | Some cs => status.Changed cs
                     | None => false
                     end in
  let hashChanged :=
    negb (String.eqb desiredHash "") &&
    negb (String.eqb (v1alpha1.ObservedSourceSecretHash (v1alpha1.Status identity))
                     desiredHash) in
  if negb condChanged && negb hashChanged then
    {| requests := []; identity' := identity; patched := false; patchErr := None |}
  else
    let base := identity in
    let hash :=
      if hashChanged then desiredHash
      else v1alpha1.ObservedSourceSecretHash (v1alpha1.Status identity) in
    let conds :=
      match cs with
      | Some cs =>
        foldl SetStatusCondition (v1alpha1.Conditions (v1alpha1.Status identity))
              (status.Conditions cs)
      | None => v1alpha1.Conditions (v1alpha1.Status identity)
      end in
    let identity :=
      {| v1alpha1.Generation := v1alpha1.Generation identity;
         v1alpha1.Status := {| v1alpha1.Conditions := conds;
                               v1alpha1.ObservedSourceSecretHash := hash |} |} in
    match patchAnswer with
    | Some err =>
      let classified :=
        errclass.ClassifyError (Some err) errclass.NotFoundAsTransient in
      {| requests := [StatusPatch identity base]; identity' := identity;
         patched := false;
         patchErr := Some (wrapPatchError classified.1 classified.2 err) |}
    | None =>
      {| requests := [StatusPatch identity base]; identity' := identity;
         patched := true; patchErr := None |}
    end.

(** The part of [finish] up to and including the status patch, for a
    pass that has a policy object and a condition set: the conditions
    are marked from the phase and the decision, then the status is
    patched if changed.  The metrics and the log line that follow do
    not touch the status. *)
Definition finishStatus (phase : observability.Phase)
    (identity : v1alpha1.IdentitySyncPolicy) (conds : status.ConditionSet)
    (decision : result.Decision) (currentHash : string)
  : status.ConditionSet * PatchOutcome :=
  let conds :=
    if String.eqb phase observability.PhasePrecondition then
      if String.eqb (result.Reason_ decision) result.ReasonNotFound
      then markSecretNotFound "Reference secret not found" conds
      else markSecretGetFailed "Reference secret get failed" conds
    else if String.eqb phase observability.PhaseFanout then
      markSecretAvailable "Reference secret available" conds
    else conds in
  let conds :=
    if String.eqb (result.Outcome_ decision) result.OutcomeSuccess then
      markReady "Reconcile completed" conds
    else
      let msg := if String.eqb (result.Msg decision) ""
                 then "Reconcile failed" else result.Msg decision in
      markDegraded msg conds in
  let desiredHash :=
    if String.eqb (result.Outcome_ decision) result.OutcomeSuccess
    then currentHash else "" in
  (conds, patchStatusIfChanged identity (Some conds) desiredHash).
End StatusPath.

End controller.

(** ** The specification's tables and orderings

    These follow the words of the specification, not the code; the
    theorems compare the code with them. *)
Module spec.

(** Severity priorities: Invalid(60) > Forbidden(50) > NotFound(40) >
    Conflict(30) > Timeout(20) > Other(10) > unrecognized(0). *)
Definition priorityTable : list (string * Z) :=
  [("Invalid", 60); ("Forbidden", 50); ("NotFound", 40);
   ("Conflict", 30); ("Timeout", 20); ("Other", 10)].

Fixpoint assoc {V : Type} (k : string) (table : list (string * V)) : option V :=
  match table with
  | [] => None
  | (k', v) :: rest => if String.eqb k k' then Some v else assoc k rest
  end.

Definition priority (r : string) : Z := default 0 (assoc r priorityTable).

(** [a] comes before [b]: more frequent; on a tie, of higher priority; on
    a further tie, of the lexicographically smaller reason name. *)
Definition before (a b : controller.ReasonCount) : Prop :=
  controller.Count a > controller.Count b ∨
  (controller.Count a = controller.Count b ∧
   (priority (controller.rcReason a) > priority (controller.rcReason b) ∨
    (priority (controller.rcReason a) = priority (controller.rcReason b) ∧
     String.ltb (controller.rcReason a) (controller.rcReason b) = true))).

(** NotFound→NotFound, Forbidden→Forbidden, Invalid→InvalidSpec,
    Conflict→Conflict, Timeout→Timeout, Other→APIServerError, anything
    else→Unknown. *)
Definition resultReasonTable : list (string * string) :=
  [("NotFound", "NotFound"); ("Forbidden", "Forbidden");
   ("Invalid", "InvalidSpec"); ("Conflict", "Conflict");
   ("Timeout", "Timeout"); ("Other", "APIServerError")].

Definition toResultReason (r : string) : string :=
  default "Unknown" (assoc r resultReasonTable).

(** The classification rules, in priority order: the condition on the
    error and the (Kind, Reason) pair it yields. *)
Definition rules (policy : errclass.NotFoundPolicy)
  : list ((errclass.error → bool) * (string * string)) :=
  [ (errclass.IsDeadlineExceeded, ("Transient", "Timeout"));
    (errclass.IsCanceled, ("Terminal", "Other"));
    ((λ e, errclass.IsConflict e || errclass.IsAlreadyExists e), ("Conflict", "Conflict"));
    ((λ e, errclass.IsForbidden e || errclass.IsUnauthorized e), ("Config", "Forbidden"));
    (errclass.IsInvalid, ("Config", "Invalid"));
    (errclass.IsNotFound,
       match policy with
       | errclass.NotFoundAsTransient => ("Transient", "NotFound")
       | errclass.NotFoundAsConfig => ("Config", "NotFound")
       end);
    ((λ e, errclass.IsTimeout e || errclass.IsServerTimeout e || errclass.IsTooManyRequests e),
       ("Transient", "Timeout"));
    (errclass.IsInternalError, ("Transient", "Other"));
    ((λ e, match errclass.StatusCode e with
           | Some code => (code =? 0) || ((500 <=? code) && (code <=? 599))
           | None => false
           end), ("Transient", "Other")) ].

(** Some rule that stands before the not-found rule matches. *)
Definition beforeNotFound (e : errclass.error) : bool :=
  errclass.IsDeadlineExceeded e || errclass.IsCanceled e ||
  errclass.IsConflict e || errclass.IsAlreadyExists e ||
  errclass.IsForbidden e || errclass.IsUnauthorized e || errclass.IsInvalid e.

(** The pair of the first rule whose condition holds, [dflt] if none
    does. *)
Fixpoint firstMatch (rs : list ((errclass.error → bool) * (string * string)))
    (dflt : string * string) (e : errclass.error) : string * string :=
  match rs with
  | [] => dflt
  | (cond, res) :: rest => if cond e then res else firstMatch rest dflt e
  end.

Definition classify (err : option errclass.error) (policy : errclass.NotFoundPolicy)
  : string * string :=
  match err with
  | None => ("", "")
  | Some e => firstMatch (rules policy) ("Transient", "Other") e
  end.

End spec.

(** ** Invariants and auxiliary notions used by the theorems *)
Module inv.

(** Every live condition is stored under its own type. *)
Definition keyed (m : gmap string status.Condition) : Prop :=
  ∀ k c, m !! k = Some c → status.Type' c = k.

(** The limiter has a positive capacity and its table is within it. *)
Definition bounded (l : logging.Limiter) : Prop :=
  1 <= logging.size l ∧ builtin.len (logging.entries l) <= logging.size l.

(** The call makes [Allow] insert an entry that pushes the table over
    capacity, so that [prune] runs. *)
Definition prunes (l : logging.Limiter) (c : logging.Call) : bool :=
  (0 <? logging.interval c) &&
  negb (match logging.entries l !! logging.fingerprint c with
        | Some nextAllowed => logging.now c <? nextAllowed
        | None => false
        end) &&
  (logging.size l <?
     builtin.len (<[logging.fingerprint c := logging.now c + logging.interval c]>
                    (logging.entries l))).


End inv.

(** ** Concrete inputs of the examples *)
Module examples.

(** Eight targets, two synced, failures of both classes. *)
Definition obsMixed : controller.Observation :=
  {| controller.Reasons := <["Timeout" := 3]> (<["Invalid" := 3]> ∅);
     controller.Samples := [];
     controller.MaxSample := 50;
     controller.Success := 2;
     controller.Failed := 6;
     controller.Total := 8;
     controller.HasTransient := true;
     controller.HasPermanent := true |}.

Definition plainError (msg : string) : errclass.error :=
  {| errclass.Error := msg;
     errclass.IsDeadlineExceeded := false; errclass.IsCanceled := false;
     errclass.IsConflict := false; errclass.IsAlreadyExists := false;
     errclass.IsForbidden := false; errclass.IsUnauthorized := false;
     errclass.IsInvalid := false; errclass.IsNotFound := false;
     errclass.IsTimeout := false; errclass.IsServerTimeout := false;
     errclass.IsTooManyRequests := false; errclass.IsInternalError := false;
     errclass.StatusCode := None |}.

(** A Kubernetes not-found status error (code 404). *)
Definition errNotFound : errclass.error :=
  {| errclass.Error := "secrets app not found";
     errclass.IsDeadlineExceeded := false; errclass.IsCanceled := false;
     errclass.IsConflict := false; errclass.IsAlreadyExists := false;
     errclass.IsForbidden := false; errclass.IsUnauthorized := false;
     errclass.IsInvalid := false; errclass.IsNotFound := true;
     errclass.IsTimeout := false; errclass.IsServerTimeout := false;
     errclass.IsTooManyRequests := false; errclass.IsInternalError := false;
     errclass.StatusCode := Some 404 |}.

(** An error whose message is 130 bytes long. *)
Definition longMessage : string :=
  String.concat "" (repeat "0123456789" 13).
Definition errLong : errclass.error := plainError longMessage.

Definition cond (type st reason message : string) (gen ltt : Z) : status.Condition :=
  {| status.Type' := type; status.Status := st;
     status.ObservedGeneration := gen; status.LastTransitionTime := ltt;
     status.Reason := reason; status.Message := message |}.

(** A set loaded at time 200 with one condition set at time 100. *)
Definition condReady : status.Condition := cond "Ready" "True" "Ok" "old" 5 100.
Definition csReady : status.ConditionSet := status.NewConditionSet [condReady] 5 200.

(** A policy that is in sync at generation 7 with the content
    fingerprint [h0]. *)
Definition syncedConditions : list status.Condition :=
  [ cond "Degraded" "False" "Reconciled" "Reconcile completed" 7 100;
    cond "Ready" "True" "Reconciled" "Reconcile completed" 7 100;
    cond "ReferenceSecretReady" "True" "SecretAvailable"
         "Reference secret available" 7 100 ].

Definition syncedPolicy : v1alpha1.IdentitySyncPolicy :=
  {| v1alpha1.Generation := 7;
     v1alpha1.Status := {| v1alpha1.Conditions := syncedConditions;
                           v1alpha1.ObservedSourceSecretHash := "h0" |} |}.

Definition fanoutCompleted : result.Decision :=
  {| result.RequeueAfter := 0; result.Outcome_ := result.OutcomeSuccess;
     result.Reason_ := result.ReasonUnknown; result.Msg := "fanout completed";
     result.Err := None |}.

(** A stand-in for [meta.SetStatusCondition]: the condition of the same
    type is updated in place, a new type is appended. *)
Fixpoint setStatusCondition (conds : list status.Condition) (c : status.Condition)
  : list status.Condition :=
  match conds with
  | [] => [c]
  | x :: rest =>
    if String.eqb (status.Type' x) (status.Type' c) then
      {| status.Type' := status.Type' x;
         status.Status := status.Status c;
         status.ObservedGeneration := status.ObservedGeneration c;
         status.LastTransitionTime :=
           if String.eqb (status.Status x) (status.Status c)
           then status.LastTransitionTime x else status.LastTransitionTime c;
         status.Reason := status.Reason c;
         status.Message := status.Message c |} :: rest
    else x :: setStatusCondition rest c
  end.

(** Choices of the entry a range over the table starts at. *)
Definition first : logging.chooser := λ _, 0%nat.
Definition second : logging.chooser := λ _, 1%nat.

Definition call (choose : logging.chooser) (fp : string) (now interval : Z)
  : logging.Call :=
  {| logging.choose := choose; logging.fingerprint := fp;
     logging.now := now; logging.interval := interval |}.

End examples.

(** ** pkg/result: decision.go *)
Module decision.

(** [controllerruntime.Result], of which the controller sets
    [RequeueAfter] only. *)
Record CtrlResult := {
  RequeueAfter : Z
}.

Definition Result (d : result.Decision) : CtrlResult * option errclass.error :=
  match result.Err d with
  | Some err => ({| RequeueAfter := 0 |}, Some err)
  | None =>
    if 0 <? result.RequeueAfter d
    then ({| RequeueAfter := result.RequeueAfter d |}, None)
    else ({| RequeueAfter := 0 |}, None)
  end.

End decision.

(** ** internal/controller: fanout.go *)
Module fanout.

Definition maxSample : Z := 50.

(** What the API server answered for one target namespace: the result of
    [ensureServiceAccount] and the result [ensureSecret] gives when it is
    reached ([None] is a nil error). *)
Record Attempt := {
  namespace : string;
  serviceAccount : option errclass.error;
  secret : option errclass.error
}.

Definition reconcileNamespace (a : Attempt) : option errclass.error :=
  match serviceAccount a with
  | Some err => Some err
  | None =>
    match secret a with
    | Some err => Some err
    | None => None
    end
  end.

(** The body of the loop of [reconcileIdentity]. *)
Definition visit (observation : controller.Observation) (a : Attempt)
  : controller.Observation :=
  match reconcileNamespace a with
  | Some fanoutErr =>
    let classified :=
      errclass.ClassifyError (Some fanoutErr) errclass.NotFoundAsTransient in
    controller.ObserveFailure (namespace a) classified.1 classified.2
      (Some fanoutErr) observation
  | None => controller.ObserveSuccess observation
  end.

(** [reconcileIdentity] on the target namespaces of the policy, each with
    the answers it gets. *)
Definition reconcileIdentity (targets : list Attempt) : option controller.Observation :=
  observation ← controller.NewObservation (Z.of_nat (length targets)) maxSample;
  Some (foldl visit observation targets).

End fanout.

(** ** internal/controller: the fast path *)
Module fastpath.

(** [meta.FindStatusCondition] of the Kubernetes library: the first
    condition of the given type, if any. *)
Fixpoint FindStatusCondition (conditions : list status.Condition) (conditionType : string)
  : option status.Condition :=
  match conditions with
  | [] => None
  | c :: rest =>
    if String.eqb (status.Type' c) conditionType then Some c
    else FindStatusCondition rest conditionType
  end.

Definition isCurrentAndEqual (conditions : list status.Condition)
    (condType : string) (condStatus : status.ConditionStatus) (generation : Z) : bool :=
  match FindStatusCondition conditions condType with
  | None => false
  | Some condition =>
    String.eqb (status.Status condition) condStatus &&
    (status.ObservedGeneration condition =? generation)
  end.

Definition shouldFastPath (identity : v1alpha1.IdentitySyncPolicy)
    (currentSecretHash : string) : bool :=
  let generation := v1alpha1.Generation identity in
  let conditions := v1alpha1.Conditions (v1alpha1.Status identity) in
  if negb (isCurrentAndEqual conditions v1alpha1.ConditionReady
             status.ConditionTrue generation) then false
  else if negb (isCurrentAndEqual conditions v1alpha1.ConditionDegraded
                  status.ConditionFalse generation) then false
  else if negb (isCurrentAndEqual conditions v1alpha1.ConditionReferenceSecretReady
                  status.ConditionTrue generation) then false
  else if negb (String.eqb
                  (v1alpha1.ObservedSourceSecretHash (v1alpha1.Status identity))
                  currentSecretHash) then false
  else true.

End fastpath.

(** ** internal/controller: managed metadata *)
Module metadata.

Definition ID : string := "identity-sync-policy".

Definition LabelManagedBy : string := "app.kubernetes.io/managed-by".
Definition LabelName : string := "app.kubernetes.io/name".
Definition LabelPolicyName : string :=
  "identitysyncpolicy.platform.lapacek-labs.org/policy-name".
Definition LabelPolicyUID : string :=
  "identitysyncpolicy.platform.lapacek-labs.org/policy-uid".

(** Of the object metadata of the policy, the two fields the controller
    reads. *)
Record PolicyMeta := {
  Name : string;
  UID : string
}.

(** [meta] is the label map of the object ([None] for a nil
    [*ObjectMeta]; a nil label map is the empty map). *)
Definition ensureManagedMetadata (meta : option (gmap string string))
    (identity : option PolicyMeta) : option (gmap string string) :=
  match meta, identity with
  | Some labels, Some identity =>
    Some (<[LabelPolicyUID := UID identity]>
            (<[LabelPolicyName := Name identity]>
               (<[LabelManagedBy := String.append ID "-operator"]>
                  (<[LabelName := ID]> labels))))
  | _, _ => meta
  end.

End metadata.

(** ** internal/controller: watch.go *)
Module watch.

Record NamespacedNameRef := {
  Name : string;
  Namespace : string
}.

(** [indexerFunc] on the [spec.secret.sourceRef] of a policy. *)
Definition indexerFunc (ref : NamespacedNameRef) : list string :=
  if String.eqb (Name ref) "" then []
  else if String.eqb (Namespace ref) "" then []
  else [String.append (Namespace ref) (String.append "/" (Name ref))].

(** The index key [mapRequestToIdentity] lists the policies by, for a
    secret of the given namespace and name. *)
Definition secretKey (namespace name : string) : string :=
  String.append namespace (String.append "/" name).

(** The bytes [secretDataHash] writes to the hash for the keys taken in
    the given order: each key followed by its data. *)
Definition hashInputOf (data : gmap string string) (keys : list string) : string :=
  foldl (λ h k, String.append (String.append h k) (default "" (data !! k)))
        "" (sort.Slice String.ltb keys).

Definition hashInput (data : gmap string string) : string :=
  hashInputOf data (map_to_list data).*1.

Section Hash.
(** SHA-256 followed by hexadecimal encoding, of the Go library. *)
Variable sha256hex : string → string.

Definition secretDataHash (data : gmap string string) : string :=
  sha256hex (hashInput data).

(** The predicate of [sourceSecretDataChanged]; an object that is not a
    secret is [None]. *)
Definition UpdateFunc (objectOld objectNew : option (gmap string string)) : bool :=
  match objectOld, objectNew with
  | Some oldSecret, Some newSecret =>
    negb (String.eqb (secretDataHash newSecret) (secretDataHash oldSecret))
  | _, _ => false
  end.

Definition CreateFunc : bool := true.
Definition DeleteFunc : bool := true.
Definition GenericFunc : bool := false.
End Hash.

End watch.

(** ** internal/controller: logging.go *)
Module oplog.

Definition Second : Z := 1000000000.

Definition reminderInterval (r : result.Reason) : Z :=
  if String.eqb r result.ReasonNotFound then 20 * controller.Minute
  else if String.eqb r result.ReasonForbidden || String.eqb r result.ReasonInvalidSpec
    then 5 * controller.Minute
  else if String.eqb r result.ReasonTimeout || String.eqb r result.ReasonAPIServerError
          || String.eqb r result.ReasonConflict
    then 2 * controller.Minute
  else 10 * controller.Minute.

(** The loop of [formatReasons]: [b] is the builder, a comma is written
    before a reason once the builder is not empty. *)
Definition writeReason (b : string) (rc : controller.ReasonCount) : string :=
  if controller.Count rc =? 0 then b
  else
    let b := if (0 <? String.length b)%nat then String.append b "," else b in
    String.append b (controller.rcReason rc).

Definition formatReasons (reasons : controller.ReasonCounts) : string :=
  if (length reasons =? 0)%nat then ""
  else foldl writeReason "" (controller.SortInPlace reasons).

(** [fmt.Sprintf("ns=%s kind=%s reason=%s", ...)] *)
Definition sampleKey (s : controller.Sample) : string :=
  String.append "ns="
    (String.append (controller.Namespace s)
       (String.append " kind="
          (String.append (controller.Kind s)
             (String.append " reason=" (controller.Reason s))))).

(** The loop of [buildSampleKeys] over the keys of the samples: a key
    already seen is skipped, a new one is marked seen and appended. *)
Fixpoint dedupe (seen : gset string) (keys : list string) : list string :=
  match keys with
  | [] => []
  | key :: rest =>
    if bool_decide (key ∈ seen) then dedupe seen rest
    else key :: dedupe ({[key]} ∪ seen) rest
  end.

Definition buildSampleKeys (samples : list controller.Sample) (max : Z) : list string :=
  if (max <=? 0) || (length samples =? 0)%nat then []
  else
    let keys := sort.Slice String.ltb (dedupe ∅ (sampleKey <$> samples)) in
    if max <? Z.of_nat (length keys) then take (Z.to_nat max) keys else keys.

(** The byte 0 that [hashStrings] writes after each item. *)
Definition NUL : ascii := Ascii.zero.

(** The bytes [hashStrings] writes to the hash for the items in the order
    given. *)
Definition frame (items : list string) : string :=
  foldl (λ h s, String.append (String.append h s) (String NUL EmptyString)) "" items.

Section Log.
(** Of the Go library: the FNV-1a 64-bit digest of a byte string in
    hexadecimal, and the [%q] quoting of [fmt]. *)
Variable fnv64aHex : string → string.
Variable quote : string → string.

Definition hashStrings (items : list string) : string :=
  let cp := sort.Slice String.ltb items in
  fnv64aHex (frame cp).

Definition formatSamples (samples : list controller.Sample) : list string :=
  (λ s,
     String.append "ns="
       (String.append (controller.Namespace s)
          (String.append " kind="
             (String.append (controller.Kind s)
                (String.append " reason="
                   (String.append (controller.Reason s)
                      (String.append " msg=" (quote (controller.sampleMsg s)))))))))
    <$> samples.

Inductive Level := LevelError | LevelInfo.

(** The fields [logFailure] adds when the pass has an observation. *)
Record FanoutFields := {
  success : Z;
  failed : Z;
  total : Z;
  hasTransient : bool;
  hasPermanent : bool;
  reasons : string;
  samples : list string
}.

(** A line handed to the logger: [logger.Error(err, text, kv...)] or
    [logger.Info(text, kv...)]. *)
Record LogLine := {
  level : Level;
  err : option string;
  text : string;
  policy : string;
  phase : string;
  outcome : string;
  reason : string;
  msg : string;
  tag : string;
  fanout : option FanoutFields
}.

Definition logFailure (phase : observability.Phase) (identity : metadata.PolicyMeta)
    (decision : result.Decision) (observation : option controller.Observation)
    (tag : string) : option LogLine :=
  let fields :=
    match observation with
    | Some observation =>
      Some {| success := controller.Success observation;
              failed := controller.Failed observation;
              total := controller.Total observation;
              hasTransient := controller.HasTransient observation;
              hasPermanent := controller.HasPermanent observation;
              reasons := formatReasons (controller.ErrorReasonCounts observation);
              samples := formatSamples (controller.Samples observation) |}
    | None => None
    end in
  let line lv e txt :=
    {| level := lv; err := e; text := txt;
       policy := metadata.Name identity; phase := phase;
       outcome := result.Outcome_ decision; reason := result.Reason_ decision;
       msg := result.Msg decision; tag := tag; fanout := fields |} in
  if String.eqb (result.Outcome_ decision) result.OutcomeFailed then
    let e := match result.Err decision with
             | Some e => errclass.Error e
             | None => "reconcile failed"
             end in
    Some (line LevelError (Some e) "Reconcile failed")
  else if String.eqb (result.Outcome_ decision) result.OutcomePartial then
    Some (line LevelInfo None "Reconcile degraded")
  else None.

(** [fmt.Sprintf("fail|%s|%s|%s", uid, phase, primary)] *)
Definition fpReminder (uid phase primary : string) : string :=
  String.append "fail|"
    (String.append uid (String.append "|" (String.append phase
       (String.append "|" primary)))).

(** [fmt.Sprintf("chg|%s|%s|%s|%s|%s", uid, phase, outcome, reasonsKey,
    samplesHash)] *)
Definition fpChange (uid phase outcome reasonsKey samplesHash : string) : string :=
  String.append "chg|"
    (String.append uid (String.append "|" (String.append phase
       (String.append "|" (String.append outcome
          (String.append "|" (String.append reasonsKey
             (String.append "|" samplesHash)))))))).

(** [logOperationIfAllowed].  [now] is the reading of the clock, the two
    choosers answer for the two calls of [Allow]; the result is the line
    logged, if any, and the limiter afterwards ([None] for a nil limiter).
    The outer [None] is a call of [Allow] that does not return. *)
Definition logOperationIfAllowed (chooseReminder chooseChange : logging.chooser)
    (now : Z) (limiter : option logging.Limiter) (phase : observability.Phase)
    (identity : option metadata.PolicyMeta) (decision : result.Decision)
    (observation : option controller.Observation) (statusPatched : bool)
  : option (option LogLine * option logging.Limiter) :=
  match identity with
  | None => Some (None, limiter)
  | Some identity =>
    if String.eqb (result.Outcome_ decision) result.OutcomeSuccess
    then Some (None, limiter)
    else if statusPatched
    then Some (logFailure phase identity decision observation "transition", limiter)
    else
      match limiter with
      | None =>
        Some (logFailure phase identity decision observation "reminder(no-limiter)",
              None)
      | Some l =>
        let maxSamples := 3 in
        let reasonsKey :=
          match observation with
          | Some observation => formatReasons (controller.ErrorReasonCounts observation)
          | None => ""
          end in
        let samplesHash :=
          match observation with
          | Some observation =>
            hashStrings (buildSampleKeys (controller.Samples observation) maxSamples)
          | None => ""
          end in
        let primary :=
          if String.eqb (result.Reason_ decision) "" then result.ReasonUnknown
          else result.Reason_ decision in
        let interval := reminderInterval primary in
        let reminder := fpReminder (metadata.UID identity) phase primary in
        let change := fpChange (metadata.UID identity) phase
                        (result.Outcome_ decision) reasonsKey samplesHash in
        match logging.Allow chooseReminder reminder now interval l with
        | None => None
        | Some (true, l1) =>
          Some (logFailure phase identity decision observation "reminder", Some l1)
        | Some (false, l1) =>
          match logging.Allow chooseChange change now (30 * Second) l1 with
          | None => None
          | Some (true, l2) =>
            Some (logFailure phase identity decision observation "reminder", Some l2)
          | Some (false, l2) => Some (None, Some l2)
          end
        end
      end
  end.

(** *** controller.go: [finish] *)

(** The policy object of a pass: its metadata and the parts of the object
    the status path works on. *)
Record Policy := {
  meta : metadata.PolicyMeta;
  object : v1alpha1.IdentitySyncPolicy
}.

Record reconcileContext := {
  start : Z;
  rcPhase : observability.Phase;
  decision : result.Decision;
  identity : option Policy;
  conditions : option status.ConditionSet;
  observation : option controller.Observation;
  currentHash : string
}.

(** A call of the [Recorder]. *)
Inductive Metric :=
| RecordAttempt (outcome reason phase : string) (latency : Z)
| RecordFanout (total success failed : Z).

(** What a call of [finish] does and returns: the requests sent to the
    API server, the calls of the recorder, the line logged, the limiter
    afterwards, and the two results. *)
Record Finished := {
  requests : list controller.Request;
  metrics : list Metric;
  logged : option LogLine;
  limiterAfter : option logging.Limiter;
  res : decision.CtrlResult;
  resErr : option errclass.error
}.

Section Finish.
Variable SetStatusCondition :
  list status.Condition → status.Condition → list status.Condition.
Variable patchAnswer : option errclass.error.
(** The two choices of [Allow], [time.Since(f.start)] and [time.Now()]. *)
Variable chooseReminder chooseChange : logging.chooser.
Variable sinceStart now : Z.

Definition finish (limiter : option logging.Limiter) (hasMetrics : bool)
    (f : reconcileContext) : option Finished :=
  match identity f with
  | None =>
    Some {| requests := []; metrics := []; logged := None; limiterAfter := limiter;
            res := {| decision.RequeueAfter := 0 |}; resErr := None |}
  | Some policy =>
    let patch :=
      match conditions f with
      | Some conds =>
        Some (controller.finishStatus SetStatusCondition patchAnswer (rcPhase f)
                (object policy) conds (decision f) (currentHash f)).2
      | None => None
      end in
    match patch ≫= controller.patchErr with
    | Some err =>
      Some {| requests := default [] (controller.requests <$> patch);
              metrics := []; logged := None; limiterAfter := limiter;
              res := {| decision.RequeueAfter := 0 |}; resErr := Some err |}
    | None =>
      let statusPatched := default false (controller.patched <$> patch) in
      let recorded :=
        if hasMetrics then
          RecordAttempt (result.Outcome_ (decision f)) (result.Reason_ (decision f))
            (rcPhase f) sinceStart ::
          match observation f with
          | Some o => [RecordFanout (controller.Total o) (controller.Success o)
                         (controller.Failed o)]
          | None => []
          end
        else [] in
      match logOperationIfAllowed chooseReminder chooseChange now limiter (rcPhase f)
              (Some (meta policy)) (decision f) (observation f) statusPatched with
      | None => None
      | Some (line, limiter') =>
        let r := decision.Result (decision f) in
        Some {| requests := default [] (controller.requests <$> patch);
                metrics := recorded; logged := line; limiterAfter := limiter';
                res := r.1; resErr := r.2 |}
      end
    end
  end.
End Finish.
End Log.

End oplog.

(** ** Notions used by the further theorems *)
Module aux.

(** The two observations agree on everything but the samples held, of
    which they hold the same number. *)
Definition sameCounts (o1 o2 : controller.Observation) : Prop :=
  controller.Reasons o1 = controller.Reasons o2 ∧
  controller.MaxSample o1 = controller.MaxSample o2 ∧
  controller.Success o1 = controller.Success o2 ∧
  controller.Failed o1 = controller.Failed o2 ∧
  controller.Total o1 = controller.Total o2 ∧
  controller.HasTransient o1 = controller.HasTransient o2 ∧
  controller.HasPermanent o1 = controller.HasPermanent o2 ∧
  length (controller.Samples o1) = length (controller.Samples o2).

(** The sum of a histogram. *)
Definition sumCounts (m : gmap string Z) : Z :=
  map_fold (λ _ c acc, c + acc) 0 m.

Definition failed (a : fanout.Attempt) : bool :=
  match fanout.reconcileNamespace a with
  | Some _ => true
  | None => false
  end.

(** The kind [reconcileIdentity] gives to the failure of a target. *)
Definition kindOf (a : fanout.Attempt) : string :=
  (errclass.ClassifyError (fanout.reconcileNamespace a) errclass.NotFoundAsTransient).1.

Definition transientKind (kind : string) : bool :=
  String.eqb kind errclass.KindTransient || String.eqb kind errclass.KindConflict.

Definition permanentKind (kind : string) : bool :=
  String.eqb kind errclass.KindTerminal || String.eqb kind errclass.KindConfig.

(** The observation [reconcileIdentity] makes for a target. *)
Definition opOf (a : fanout.Attempt) : controller.Op :=
  match fanout.reconcileNamespace a with
  | Some fanoutErr =>
    let classified :=
      errclass.ClassifyError (Some fanoutErr) errclass.NotFoundAsTransient in
    controller.OpFailure (fanout.namespace a) classified.1 classified.2 (Some fanoutErr)
  | None => controller.OpSuccess
  end.

Definition opFailed (op : controller.Op) : bool :=
  match op with
  | controller.OpSuccess => false
  | controller.OpFailure _ _ _ _ => true
  end.

Definition opKind (op : controller.Op) : string :=
  match op with
  | controller.OpSuccess => ""
  | controller.OpFailure _ kind _ _ => kind
  end.

Definition opReason (op : controller.Op) : string :=
  match op with
  | controller.OpSuccess => ""
  | controller.OpFailure _ _ reason _ => reason
  end.

(** The number of failures among the observations, and of those with a
    given reason. *)
Definition failures (ops : list controller.Op) : nat :=
  length (List.filter opFailed ops).

Definition failuresWith (reason : string) (ops : list controller.Op) : nat :=
  length (List.filter (λ op, opFailed op && String.eqb (opReason op) reason) ops).

(** The answer [Allow] gives, read off the table. *)
Definition answer (l : logging.Limiter) (fp : string) (now interval : Z) : bool :=
  (interval <=? 0) ||
  match logging.entries l !! fp with
  | Some nextAllowed => negb (now <? nextAllowed)
  | None => true
  end.

(** No byte of the string is the given one. *)
Fixpoint free (c : ascii) (s : string) : Prop :=
  match s with
  | EmptyString => True
  | String a s' => a ≠ c ∧ free c s'
  end.

(** [strings.Join]: the items with the separator between them. *)
Fixpoint join (sep : string) (items : list string) : string :=
  match items with
  | [] => ""
  | x :: rest =>
    match rest with
    | [] => x
    | _ :: _ => String.append x (String.append sep (join sep rest))
    end
  end.

(** The reasons [formatReasons] names: those with a count other than
    zero. *)
Definition named (reasons : list controller.ReasonCount) : list string :=
  controller.rcReason <$> filter (λ rc, controller.Count rc ≠ 0) reasons.

End aux.

(** ** Concrete inputs of the further examples *)
Module scenario.

(** What [NewObservation 2 50] returns. *)
Definition fresh : controller.Observation :=
  {| controller.Reasons := ∅; controller.Samples := [];
     controller.MaxSample := 50; controller.Success := 0;
     controller.Failed := 0; controller.Total := 2;
     controller.HasTransient := false; controller.HasPermanent := false |}.

(** One namespace synced, one timed out. *)
Definition ops : list controller.Op :=
  [ controller.OpSuccess;
    controller.OpFailure "team-b" errclass.KindTransient errclass.ReasonTimeout
      (Some (examples.plainError "timed out")) ].

(** Two target namespaces; in the second the secret is not found. *)
Definition targets : list fanout.Attempt :=
  [ {| fanout.namespace := "team-a"; fanout.serviceAccount := None;
       fanout.secret := None |};
    {| fanout.namespace := "team-b"; fanout.serviceAccount := None;
       fanout.secret := Some examples.errNotFound |} ].

Definition samples : list controller.Sample :=
  [ {| controller.Namespace := "team-b"; controller.Message := "timed out";
       controller.Reason := errclass.ReasonTimeout;
       controller.Kind := errclass.KindTransient |};
    {| controller.Namespace := "team-a"; controller.Message := "timed out";
       controller.Reason := errclass.ReasonTimeout;
       controller.Kind := errclass.KindTransient |};
    {| controller.Namespace := "team-b"; controller.Message := "again";
       controller.Reason := errclass.ReasonTimeout;
       controller.Kind := errclass.KindTransient |} ].

Definition reasons : controller.ReasonCounts :=
  [ {| controller.rcReason := "Timeout"; controller.Count := 2 |};
    {| controller.rcReason := "Invalid"; controller.Count := 1 |} ].

Definition fanoutFailed : result.Decision :=
  {| result.RequeueAfter := 2 * controller.Minute;
     result.Outcome_ := result.OutcomeFailed;
     result.Reason_ := result.ReasonTimeout; result.Msg := "fanout failed";
     result.Err := None |}.

Definition policy : oplog.Policy :=
  {| oplog.meta := {| metadata.Name := "policy"; metadata.UID := "uid-1" |};
     oplog.object := examples.syncedPolicy |}.

(** A pass over the synced policy whose fan-out failed. *)
Definition pass : oplog.reconcileContext :=
  {| oplog.start := 0; oplog.rcPhase := observability.PhaseFanout;
     oplog.decision := fanoutFailed; oplog.identity := Some policy;
     oplog.conditions := Some (status.NewConditionSet examples.syncedConditions 7 200);
     oplog.observation := None; oplog.currentHash := "h0" |}.

(** A stand-in for the digests and for the quoting: the bytes as they
    are. *)
Definition plain (s : string) : string := s.

Definition ref : watch.NamespacedNameRef :=
  {| watch.Name := "source"; watch.Namespace := "team-a" |}.

End scenario.

(** * Properties *)

(** ** Machine integers *)

Lemma incr_in_range (x : Z) :
  GoInt.minInt <= x < GoInt.maxInt → GoInt.incr x = x + 1.
Proof.
  unfold GoInt.incr, GoInt.wrap, GoInt.minInt, GoInt.maxInt. intros Hx.
  rewrite Z.mod_small; lia.
Qed.

(** ** Sorting *)

Section SliceFacts.
Context {A : Type} (less : A → A → bool).

Lemma insert_Permutation (x : A) (l : list A) :
  sort.insert less x l ≡ₚ x :: l.
Proof.
  induction l as [|y l IH]; simpl; [done|].
  destruct (less x y); [done|].
  rewrite IH. apply Permutation_swap.
Qed.

Lemma Slice_Permutation (l : list A) : sort.Slice less l ≡ₚ l.
Proof.
  induction l as [|x l IH]; simpl; [done|].
  by rewrite insert_Permutation, IH.
Qed.

Hypothesis less_asym : ∀ a b, less a b = true → less b a = false.
Hypothesis inOrder_trans :
  ∀ a b c, less b a = false → less c b = false → less c a = false.

Lemma insert_sorted (x : A) (l : list A) :
  StronglySorted (sort.inOrder less) l →
  StronglySorted (sort.inOrder less) (sort.insert less x l).
Proof.
  induction 1 as [|y l Hl IH Hy]; simpl.
  - repeat constructor.
  - destruct (less x y) eqn:Hxy.
    + constructor; [by constructor|].
      constructor; [by apply less_asym|].
      eapply Forall_impl; [exact Hy|].
      intros z Hz. unfold sort.inOrder in *.
      eapply inOrder_trans; [by apply less_asym|done].
    + constructor; [done|].
      rewrite insert_Permutation. by constructor.
Qed.

Lemma Slice_sorted (l : list A) :
  StronglySorted (sort.inOrder less) (sort.Slice less l).
Proof.
  induction l as [|x l IH]; simpl; [constructor|by apply insert_sorted].
Qed.

(** Where [less] tells any two elements of the slice apart, the sorted
    slice does not depend on the order the elements came in. *)
Lemma Slice_unique (l l' : list A) :
  (∀ x y, x ∈ l → y ∈ l → less x y = false → less y x = false → x = y) →
  l' ≡ₚ l →
  sort.Slice less l' = sort.Slice less l.
Proof.
  intros Hanti Hperm.
  eapply (StronglySorted_unique_strong (sort.inOrder less)).
  - intros x y Hx Hy Hxy Hyx.
    rewrite Slice_Permutation, Hperm in Hx.
    rewrite Slice_Permutation in Hy.
    by apply Hanti.
  - apply Slice_sorted.
  - apply Slice_sorted.
  - by rewrite !Slice_Permutation.
Qed.
End SliceFacts.

(** ** Strings *)

Lemma ltb_irrefl (s : string) : String.ltb s s = false.
Proof.
  unfold String.ltb.
  assert (String.compare s s = Eq) as ->; [|done].
  induction s as [|a s IH]; simpl; [done|].
  unfold Ascii.compare. by rewrite N.compare_refl.
Qed.

Lemma ltb_le (s1 s2 : string) :
  String.ltb s1 s2 = true ↔ String.le s1 s2 ∧ s1 ≠ s2.
Proof.
  unfold String.le, String.leb, String.ltb. split.
  - destruct (String.compare s1 s2) eqn:Hc; try done.
    intros _. split; [done|]. intros ->.
    pose proof (ltb_irrefl s2) as Hi. unfold String.ltb in Hi.
    by rewrite Hc in Hi.
  - intros [Hle Hne]. destruct (String.compare s1 s2) eqn:Hc; try done.
    by apply String.compare_eq_iff in Hc.
Qed.

Lemma ltb_trans (s1 s2 s3 : string) :
  String.ltb s1 s2 = true → String.ltb s2 s3 = true → String.ltb s1 s3 = true.
Proof.
  rewrite !ltb_le. intros [H12 N12] [H23 N23]. split.
  - by etrans.
  - intros ->. apply N12. by apply (anti_symm String.le).
Qed.

Lemma ltb_trichotomy (s1 s2 : string) :
  String.ltb s1 s2 = true ∨ s1 = s2 ∨ String.ltb s2 s1 = true.
Proof.
  destruct (decide (s1 = s2)) as [->|Hne]; [by right; left|].
  destruct (total String.le s1 s2).
  - left. by apply ltb_le.
  - right; right. apply ltb_le. split; [done|congruence].
Qed.

Lemma ltb_asym (s1 s2 : string) :
  String.ltb s1 s2 = true → String.ltb s2 s1 = false.
Proof.
  intros H12. destruct (String.ltb s2 s1) eqn:H21; [|done].
  pose proof (ltb_trans _ _ _ H12 H21) as Hc. by rewrite ltb_irrefl in Hc.
Qed.

(** ** Outcome policy *)

(** The outcome chosen by [Decide], case by case as the code takes them. *)
Lemma Decide_outcome_cases (p : controller.Policy) (obs : controller.Observation) :
  result.Outcome_ (controller.Decide p obs) =
    if decide (controller.Total obs = 0 ∨ controller.Success obs = controller.Total obs)
    then result.OutcomeSuccess
    else if decide (controller.Success obs = 0) then result.OutcomeFailed
    else result.OutcomePartial.
Proof.
  unfold controller.Decide; simpl.
  destruct (Z.eqb_spec (controller.Total obs) 0) as [H0|H0].
  { rewrite decide_True; [done|by left]. }
  destruct (Z.eqb_spec (controller.Success obs) (controller.Total obs)) as [H1|H1].
  { rewrite decide_True; [done|by right]. }
  rewrite decide_False by (intros [?|?]; done).
  destruct (Z.eqb_spec (controller.Success obs) 0) as [H2|H2].
  - by rewrite decide_True.
  - by rewrite decide_False.
Qed.

(** C1.  For every observation (whose [Total], a target count, is not
    negative), [Decide] returns the outcome Success when [Total = 0] or
    [Success = Total], Failed when [Success = 0] and [Total > 0], and
    Partial otherwise; its reason is [PrimaryReason] of the observation;
    and its requeue delay is 0 for Success, otherwise [TransientDelay]
    whenever [HasTransient] holds, whatever [HasPermanent] is, and
    [PermanentDelay] when it does not. *)
Theorem Decide_spec (p : controller.Policy) (obs : controller.Observation) :
  0 <= controller.Total obs →
  let d := controller.Decide p obs in
  (controller.Total obs = 0 ∨ controller.Success obs = controller.Total obs →
     result.Outcome_ d = result.OutcomeSuccess) ∧
  (controller.Success obs = 0 ∧ controller.Total obs > 0 →
     result.Outcome_ d = result.OutcomeFailed) ∧
  (¬ (controller.Total obs = 0 ∨ controller.Success obs = controller.Total obs) →
   ¬ (controller.Success obs = 0 ∧ controller.Total obs > 0) →
     result.Outcome_ d = result.OutcomePartial) ∧
  result.Reason_ d = controller.PrimaryReason obs ∧
  (result.Outcome_ d = result.OutcomeSuccess → result.RequeueAfter d = 0) ∧
  (result.Outcome_ d ≠ result.OutcomeSuccess →
     result.RequeueAfter d =
       if controller.HasTransient obs then controller.TransientDelay p
       else controller.PermanentDelay p) ∧
  (result.Outcome_ d ≠ result.OutcomeSuccess →
   controller.HasTransient obs = true → controller.HasPermanent obs = true →
     result.RequeueAfter d = controller.TransientDelay p).
Proof.
  intros Htotal d.
  pose proof (Decide_outcome_cases p obs) as Hout. fold d in Hout.
  assert (Hreq : result.RequeueAfter d =
                 if negb (String.eqb (result.Outcome_ d) result.OutcomeSuccess)
                 then if controller.HasTransient obs then controller.TransientDelay p
                      else controller.PermanentDelay p
                 else 0) by done.
  repeat split.
  - intros H. by rewrite Hout, decide_True.
  - intros [H1 H2]. rewrite Hout, decide_False by lia. by rewrite decide_True.
  - intros H1 H2. rewrite Hout, decide_False by done.
    rewrite decide_False; [done|]. intros H3. apply H2. split; [done|]. lia.
  - intros Hs. rewrite Hreq, Hs. done.
  - intros Hs. rewrite Hreq.
    destruct (String.eqb_spec (result.Outcome_ d) result.OutcomeSuccess); done.
  - intros Hs Ht _. rewrite Hreq, Ht.
    destruct (String.eqb_spec (result.Outcome_ d) result.OutcomeSuccess); done.
Qed.

(** ** Reason ordering and the primary reason *)

Lemma errReasonPriority_table (r : string) :
  controller.errReasonPriority r = spec.priority r.
Proof.
  unfold controller.errReasonPriority, spec.priority; simpl.
  unfold errclass.ReasonInvalid, errclass.ReasonForbidden, errclass.ReasonNotFound,
    errclass.ReasonConflict, errclass.ReasonTimeout, errclass.ReasonOther.
  repeat (match goal with |- context [String.eqb r ?k] => destruct (String.eqb r k) end;
          [done|]).
  done.
Qed.

Lemma mapErrReasonToResultReason_table (r : string) :
  controller.mapErrReasonToResultReason r = spec.toResultReason r.
Proof.
  unfold controller.mapErrReasonToResultReason, spec.toResultReason; simpl.
  unfold errclass.ReasonInvalid, errclass.ReasonForbidden, errclass.ReasonNotFound,
    errclass.ReasonConflict, errclass.ReasonTimeout, errclass.ReasonOther.
  repeat (match goal with |- context [String.eqb r ?k] => destruct (String.eqb r k) end;
          [done|]).
  done.
Qed.

Lemma less_before (a b : controller.ReasonCount) :
  controller.less a b = true ↔ spec.before a b.
Proof.
  unfold controller.less, spec.before. rewrite !errReasonPriority_table.
  destruct (Z.eqb_spec (controller.Count a) (controller.Count b)) as [Hc|Hc]; simpl.
  - destruct (Z.eqb_spec (spec.priority (controller.rcReason a))
                         (spec.priority (controller.rcReason b))) as [Hp|Hp]; simpl.
    + split; [intros H; right; split; [done|]; right; by split|].
      intros [?|[_ [?|[_ ?]]]]; [lia|lia|done].
    + rewrite Z.ltb_lt. split; [intros H; right; split; [done|]; left; lia|].
      intros [?|[_ [?|[? _]]]]; [lia|lia|done].
  - rewrite Z.ltb_lt. split; [intros H; left; lia|].
    intros [?|[? _]]; [lia|done].
Qed.

Lemma before_irrefl (a : controller.ReasonCount) : ¬ spec.before a a.
Proof.
  unfold spec.before. intros [?|[_ [?|[_ H]]]]; [lia|lia|].
  by rewrite ltb_irrefl in H.
Qed.

Lemma before_trans (a b c : controller.ReasonCount) :
  spec.before a b → spec.before b c → spec.before a c.
Proof.
  unfold spec.before.
  intros [?|[? [?|[? Hab]]]] [?|[? [?|[? Hbc]]]];
    try (left; lia); right; (split; [lia|]); try (left; lia).
  right. split; [lia|]. by eapply ltb_trans.
Qed.

Lemma before_trichotomy (a b : controller.ReasonCount) :
  spec.before a b ∨ a = b ∨ spec.before b a.
Proof.
  unfold spec.before. destruct a as [ra ca], b as [rb cb]; simpl.
  destruct (Z.lt_trichotomy ca cb) as [?|[->|?]]; [right; right; left; lia| |left; left; lia].
  destruct (Z.lt_trichotomy (spec.priority ra) (spec.priority rb)) as [?|[Hp|?]].
  - right; right; right. split; [done|]. left; lia.
  - destruct (ltb_trichotomy ra rb) as [?|[->|?]].
    + left; right. split; [done|]. by right.
    + by right; left.
    + right; right; right. split; [done|]. by right.
  - left; right. split; [done|]. left; lia.
Qed.

Lemma less_asym (a b : controller.ReasonCount) :
  controller.less a b = true → controller.less b a = false.
Proof.
  intros Hab. apply not_true_is_false. rewrite less_before in *.
  intros Hba. by apply (before_irrefl a), (before_trans a b a).
Qed.

Lemma less_false (a b : controller.ReasonCount) :
  controller.less b a = false ↔ a = b ∨ spec.before a b.
Proof.
  rewrite <- not_true_iff_false, less_before. split.
  - intros Hn. destruct (before_trichotomy a b) as [?|[?|?]]; by eauto.
  - intros [->|Hab] Hba; [by apply (before_irrefl b)|].
    by apply (before_irrefl a), (before_trans a b a).
Qed.

Lemma less_inOrder_trans (a b c : controller.ReasonCount) :
  controller.less b a = false → controller.less c b = false →
  controller.less c a = false.
Proof.
  rewrite !less_false. intros [->|Hab] [->|Hbc]; eauto using before_trans.
Qed.

Lemma less_antisym (a b : controller.ReasonCount) :
  controller.less a b = false → controller.less b a = false → a = b.
Proof.
  intros H1 H2. apply less_false in H1, H2.
  destruct H1 as [->|Hba], H2 as [Heq|Hab]; try done.
  by destruct (before_irrefl a); apply (before_trans a b a).
Qed.

Lemma SortInPlace_sorted (rc : controller.ReasonCounts) :
  StronglySorted (λ a b, a = b ∨ spec.before a b) (controller.SortInPlace rc).
Proof.
  pose proof (Slice_sorted controller.less less_asym less_inOrder_trans rc) as Hs.
  unfold controller.SortInPlace.
  induction Hs as [|x l Hl IH Hx]; constructor; [done|].
  eapply Forall_impl; [exact Hx|]. intros y Hy. by apply less_false.
Qed.

Lemma SortInPlace_order_irrelevant (rc rc' : controller.ReasonCounts) :
  rc' ≡ₚ rc → controller.SortInPlace rc' = controller.SortInPlace rc.
Proof.
  intros Hperm. apply (Slice_unique _ less_asym less_inOrder_trans); [|done].
  intros x y _ _. apply less_antisym.
Qed.

Lemma elem_of_reasonCountsOf (entries : list (string * Z)) (x : controller.ReasonCount) :
  x ∈ controller.reasonCountsOf entries ↔
  (controller.rcReason x, controller.Count x) ∈ entries ∧ controller.Count x ≠ 0.
Proof.
  unfold controller.reasonCountsOf. rewrite list_elem_of_omap. split.
  - intros [[r c] [Hin Hx]]; simpl in Hx.
    destruct (Z.eqb_spec c 0); [done|]. by simplify_eq/=.
  - intros [Hin Hne]. eexists; split; [exact Hin|]; simpl.
    destruct (Z.eqb_spec (controller.Count x) 0); [done|]. by destruct x.
Qed.

Lemma primaryReasonOf_order_irrelevant (entries entries' : list (string * Z)) :
  entries' ≡ₚ entries →
  controller.primaryReasonOf entries' = controller.primaryReasonOf entries.
Proof.
  intros Hperm. unfold controller.primaryReasonOf.
  rewrite (Permutation_length Hperm).
  rewrite (SortInPlace_order_irrelevant (controller.reasonCountsOf entries)
             (controller.reasonCountsOf entries')); [done|].
  unfold controller.reasonCountsOf. by rewrite Hperm.
Qed.

Lemma elem_of_ErrorReasonCounts (obs : controller.Observation) (x : controller.ReasonCount) :
  x ∈ controller.ErrorReasonCounts obs ↔
  controller.Reasons obs !! controller.rcReason x = Some (controller.Count x) ∧
  controller.Count x ≠ 0.
Proof.
  unfold controller.ErrorReasonCounts.
  by rewrite elem_of_reasonCountsOf, elem_of_map_to_list.
Qed.

Lemma PrimaryReason_no_failures (obs : controller.Observation) :
  (∀ r c, controller.Reasons obs !! r = Some c → c = 0) →
  controller.PrimaryReason obs = result.ReasonUnknown.
Proof.
  intros Hzero. unfold controller.PrimaryReason, controller.primaryReasonOf.
  destruct (length (map_to_list (controller.Reasons obs)) =? 0)%nat; [done|].
  fold (controller.ErrorReasonCounts obs).
  destruct (controller.ErrorReasonCounts obs) as [|x rcs] eqn:Hrcs; [done|].
  assert (Hx : x ∈ controller.ErrorReasonCounts obs) by (rewrite Hrcs; left).
  apply elem_of_ErrorReasonCounts in Hx as [Hx Hne].
  by apply Hzero in Hx.
Qed.

Lemma PrimaryReason_top (obs : controller.Observation) (r : string) (c : Z) :
  controller.Reasons obs !! r = Some c → c ≠ 0 →
  ∃ top rest,
    controller.SortInPlace (controller.ErrorReasonCounts obs) = top :: rest ∧
    controller.Reasons obs !! controller.rcReason top = Some (controller.Count top) ∧
    controller.Count top ≠ 0 ∧
    (∀ r' c', controller.Reasons obs !! r' = Some c' → c' ≠ 0 →
       r' = controller.rcReason top ∨
       spec.before top {| controller.rcReason := r'; controller.Count := c' |}) ∧
    controller.PrimaryReason obs = spec.toResultReason (controller.rcReason top).
Proof.
  intros Hr Hc.
  assert (Hin : {| controller.rcReason := r; controller.Count := c |}
                ∈ controller.ErrorReasonCounts obs)
    by (by apply elem_of_ErrorReasonCounts).
  pose proof (Slice_Permutation controller.less (controller.ErrorReasonCounts obs)) as Hperm.
  pose proof (SortInPlace_sorted (controller.ErrorReasonCounts obs)) as Hsorted.
  fold (controller.SortInPlace (controller.ErrorReasonCounts obs)) in Hperm.
  destruct (controller.SortInPlace (controller.ErrorReasonCounts obs))
    as [|top rest] eqn:Hsort.
  { rewrite <- Hperm in Hin. by apply elem_of_nil in Hin. }
  exists top, rest. split; [done|].
  assert (Htop : top ∈ controller.ErrorReasonCounts obs) by (rewrite <- Hperm; left).
  apply elem_of_ErrorReasonCounts in Htop as [Htop Hne].
  repeat split; [done|done| |].
  - intros r' c' Hr' Hc'.
    assert (Hin' : {| controller.rcReason := r'; controller.Count := c' |}
                   ∈ top :: rest)
      by (rewrite Hperm; by apply elem_of_ErrorReasonCounts).
    apply elem_of_cons in Hin' as [<-|Hin']; [by left|].
    apply StronglySorted_inv in Hsorted as [_ Hall].
    rewrite Forall_forall in Hall.
    destruct (Hall _ Hin') as [->|Hb]; [by left|by right].
  - unfold controller.PrimaryReason, controller.primaryReasonOf.
    fold (controller.ErrorReasonCounts obs). rewrite Hsort.
    rewrite mapErrReasonToResultReason_table.
    apply elem_of_map_to_list in Hr.
    destruct (map_to_list (controller.Reasons obs)); [by apply elem_of_nil in Hr|done].
Qed.

(** C2.  The ordering of reason counts and the primary reason.
    [errReasonPriority] is the priority table Invalid(60) > Forbidden(50) >
    NotFound(40) > Conflict(30) > Timeout(20) > Other(10) >
    unrecognized(0); [SortInPlace] rearranges its input so that each entry
    stands before every later one in the order "higher count, then higher
    priority, then lexicographically smaller name", and the result does not
    depend on the order the entries are taken from the map;
    [PrimaryReason] is Unknown when no failure was observed, and otherwise
    the first entry of the sorted counts, which stands before every other
    observed reason, mapped into the result-domain reasons by the stated
    table; counts {Timeout:3, Invalid:3} sort with Invalid first. *)
Theorem PrimaryReason_ordering_spec :
  (∀ r, controller.errReasonPriority r = spec.priority r) ∧
  (∀ a b, controller.less a b = true ↔ spec.before a b) ∧
  (∀ rc, controller.SortInPlace rc ≡ₚ rc ∧
         StronglySorted (λ a b, a = b ∨ spec.before a b) (controller.SortInPlace rc)) ∧
  (∀ rc rc', rc' ≡ₚ rc → controller.SortInPlace rc' = controller.SortInPlace rc) ∧
  (∀ obs entries, entries ≡ₚ map_to_list (controller.Reasons obs) →
     controller.primaryReasonOf entries = controller.PrimaryReason obs) ∧
  (∀ obs, (∀ r c, controller.Reasons obs !! r = Some c → c = 0) →
     controller.PrimaryReason obs = result.ReasonUnknown) ∧
  (∀ obs r c, controller.Reasons obs !! r = Some c → c ≠ 0 →
     ∃ top rest,
       controller.SortInPlace (controller.ErrorReasonCounts obs) = top :: rest ∧
       controller.Reasons obs !! controller.rcReason top = Some (controller.Count top) ∧
       controller.Count top ≠ 0 ∧
       (∀ r' c', controller.Reasons obs !! r' = Some c' → c' ≠ 0 →
          r' = controller.rcReason top ∨
          spec.before top {| controller.rcReason := r'; controller.Count := c' |}) ∧
       controller.PrimaryReason obs = spec.toResultReason (controller.rcReason top)) ∧
  (∀ r, controller.mapErrReasonToResultReason r = spec.toResultReason r) ∧
  controller.SortInPlace
    [ {| controller.rcReason := "Timeout"; controller.Count := 3 |};
      {| controller.rcReason := "Invalid"; controller.Count := 3 |} ]
  = [ {| controller.rcReason := "Invalid"; controller.Count := 3 |};
      {| controller.rcReason := "Timeout"; controller.Count := 3 |} ] ∧
  controller.PrimaryReason
    {| controller.Reasons := <["Timeout" := 3]> (<["Invalid" := 3]> ∅);
       controller.Samples := []; controller.MaxSample := 50;
       controller.Success := 0; controller.Failed := 6; controller.Total := 6;
       controller.HasTransient := true; controller.HasPermanent := true |}
  = result.ReasonInvalidSpec.
Proof.
  split; [exact errReasonPriority_table|].
  split; [exact less_before|].
  split; [intros rc; split; [apply Slice_Permutation|apply SortInPlace_sorted]|].
  split; [intros rc rc'; apply SortInPlace_order_irrelevant|].
  split; [intros obs entries; apply primaryReasonOf_order_irrelevant|].
  split; [exact PrimaryReason_no_failures|].
  split; [exact PrimaryReason_top|].
  split; [exact mapErrReasonToResultReason_table|].
  split; by vm_compute.
Qed.

(** ** Error classification *)

Lemma ClassifyError_rules (err : option errclass.error) (policy : errclass.NotFoundPolicy) :
  errclass.ClassifyError err policy = spec.classify err policy.
Proof.
  destruct err as [e|]; [|done].
  unfold errclass.ClassifyError, spec.classify, spec.rules, spec.firstMatch.
  destruct (errclass.IsDeadlineExceeded e); [done|].
  destruct (errclass.IsCanceled e); [done|].
  destruct (errclass.IsConflict e); [done|].
  destruct (errclass.IsAlreadyExists e); [done|].
  destruct (errclass.IsForbidden e); [done|].
  destruct (errclass.IsUnauthorized e); [done|].
  destruct (errclass.IsInvalid e); [done|].
  destruct (errclass.IsNotFound e); [by destruct policy|].
  destruct (errclass.IsTimeout e); [done|].
  destruct (errclass.IsServerTimeout e); [done|].
  destruct (errclass.IsTooManyRequests e); [done|].
  destruct (errclass.IsInternalError e); [done|].
  destruct (errclass.StatusCode e) as [code|]; [|done].
  simpl. unfold errclass.StatusInternalServerError.
  by destruct ((code =? 0) || (500 <=? code) && (code <=? 599)).
Qed.

Lemma firstMatch_none (rs : list ((errclass.error → bool) * (string * string)))
    (dflt : string * string) (e : errclass.error) :
  (∀ rule, rule ∈ rs → rule.1 e = false) → spec.firstMatch rs dflt e = dflt.
Proof.
  induction rs as [|[cond res] rs IH]; intros Hnone; [done|]. simpl.
  assert (Hc : cond e = false) by (apply (Hnone (cond, res)), elem_of_cons; by left).
  rewrite Hc. apply IH. intros rule Hrule. apply Hnone, elem_of_cons. by right.
Qed.

(** C3.  [ClassifyError] is a function of the error and the policy alone:
    a nil error yields the empty classification, and for any other error
    the first rule that matches, in the stated priority order, decides the
    (Kind, Reason) pair, with the default (Transient, Other) when no rule
    matches; an error that is a not-found error and matches no earlier rule
    is (Transient, NotFound) under [NotFoundAsTransient] and
    (Config, NotFound) under the other policy. *)
Theorem ClassifyError_spec (e : errclass.error) :
  errclass.IsNotFound e = true → spec.beforeNotFound e = false →
  (∀ policy, errclass.ClassifyError None policy = ("", "")) ∧
  (∀ e' policy,
     errclass.ClassifyError (Some e') policy
     = spec.firstMatch (spec.rules policy) ("Transient", "Other") e') ∧
  (∀ e' policy,
     (∀ rule, rule ∈ spec.rules policy → rule.1 e' = false) →
     errclass.ClassifyError (Some e') policy
     = (errclass.KindTransient, errclass.ReasonOther)) ∧
  errclass.ClassifyError (Some e) errclass.NotFoundAsTransient
  = (errclass.KindTransient, errclass.ReasonNotFound) ∧
  errclass.ClassifyError (Some e) errclass.NotFoundAsConfig
  = (errclass.KindConfig, errclass.ReasonNotFound).
Proof.
  intros Hnf Hbefore.
  split; [done|].
  split; [intros e' policy; apply (ClassifyError_rules (Some e'))|].
  split.
  { intros e' policy Hnone. rewrite ClassifyError_rules.
    by apply firstMatch_none. }
  unfold spec.beforeNotFound in Hbefore.
  repeat (apply orb_false_elim in Hbefore as [Hbefore ?]).
  unfold errclass.ClassifyError.
  by repeat match goal with H : _ = _ |- _ => rewrite H end.
Qed.

(** ** Condition set *)

Lemma isSame_spec (prev next : status.Condition) :
  status.isSame prev next = true ↔
  status.Status prev = status.Status next ∧
  status.Reason prev = status.Reason next ∧
  status.Message prev = status.Message next ∧
  status.ObservedGeneration prev = status.ObservedGeneration next.
Proof.
  unfold status.isSame. rewrite !andb_true_iff, !String.eqb_eq, Z.eqb_eq. tauto.
Qed.

Lemma isSame_refl (c : status.Condition) : status.isSame c c = true.
Proof. by apply isSame_spec. Qed.

Lemma byType_snoc (conds : list status.Condition) (c : status.Condition) :
  status.byType (conds ++ [c]) = <[status.Type' c := c]> (status.byType conds).
Proof. unfold status.byType; simpl. by rewrite foldl_app. Qed.

Lemma conditions_NewConditionSet (conds : list status.Condition) (gen t : Z) :
  status.conditions (status.NewConditionSet conds gen t) = status.byType conds.
Proof. done. Qed.

Lemma byType_lookup_Some (conds : list status.Condition) (k : string) (c : status.Condition) :
  status.byType conds !! k = Some c → c ∈ conds ∧ status.Type' c = k.
Proof.
  induction conds as [|c' conds IH] using rev_ind; [done|].
  rewrite byType_snoc, lookup_insert. case_decide as Hk.
  - intros [= ->]. split; [|done]. apply elem_of_app; right; by left.
  - intros Hc. apply IH in Hc as [Hin Hty]. split; [|done].
    apply elem_of_app; by left.
Qed.

Lemma byType_lookup_NoDup (conds : list status.Condition) (c : status.Condition) :
  NoDup (status.Type' <$> conds) → c ∈ conds →
  status.byType conds !! status.Type' c = Some c.
Proof.
  induction conds as [|c' conds IH] using rev_ind; intros Hnd Hin.
  { by apply elem_of_nil in Hin. }
  rewrite fmap_app in Hnd. apply NoDup_app in Hnd as (Hnd & Hdisj & _).
  rewrite byType_snoc, lookup_insert. case_decide as Hk.
  - apply elem_of_app in Hin as [Hin|Hin].
    + destruct (Hdisj (status.Type' c)).
      * apply list_elem_of_fmap. by exists c.
      * rewrite <- Hk. simpl. left.
    + apply list_elem_of_singleton in Hin. by subst.
  - apply elem_of_app in Hin as [Hin|Hin]; [by apply IH|].
    apply list_elem_of_singleton in Hin. by subst.
Qed.

Lemma byType_size_NoDup (conds : list status.Condition) :
  NoDup (status.Type' <$> conds) → size (status.byType conds) = length conds.
Proof.
  induction conds as [|c conds IH] using rev_ind; intros Hnd; [done|].
  rewrite fmap_app in Hnd. apply NoDup_app in Hnd as (Hnd & Hdisj & _).
  rewrite byType_snoc, length_app, map_size_insert_None; simpl.
  - rewrite IH by done. lia.
  - destruct (status.byType conds !! status.Type' c) as [c'|] eqn:Hc; [|done].
    apply byType_lookup_Some in Hc as [Hin Hty].
    destruct (Hdisj (status.Type' c)).
    + apply list_elem_of_fmap. by exists c'.
    + simpl. left.
Qed.

Lemma changedFrom_false (live : gmap string status.Condition) (orig : list status.Condition) :
  status.changedFrom live orig = false ↔
  ∀ prev, prev ∈ orig →
    ∃ next, live !! status.Type' prev = Some next ∧ status.isSame prev next = true.
Proof.
  induction orig as [|prev orig IH]; simpl.
  { split; [|done]. intros _ prev Hin. by apply elem_of_nil in Hin. }
  split.
  - destruct (live !! status.Type' prev) as [next|] eqn:Hnext; [|done].
    destruct (status.isSame prev next) eqn:Hsame; [|done]. simpl.
    intros Hrest p Hp. apply elem_of_cons in Hp as [->|Hp]; [by exists next|].
    by apply IH.
  - intros Hall. destruct (Hall prev) as (next & -> & ->); [by left|]. simpl.
    apply IH. intros p Hp. apply Hall. by right.
Qed.

(** A set that was just loaded from a list without repeated types has not
    changed. *)
Lemma Changed_NewConditionSet (conds : list status.Condition) (gen t : Z) :
  NoDup (status.Type' <$> conds) →
  status.Changed (status.NewConditionSet conds gen t) = false.
Proof.
  intros Hnd. unfold status.Changed, builtin.len.
  rewrite conditions_NewConditionSet, byType_size_NoDup by done. simpl.
  rewrite Z.eqb_refl. simpl. apply changedFrom_false.
  intros prev Hin. exists prev. split; [by apply byType_lookup_NoDup|apply isSame_refl].
Qed.

(** C4.  [Set] on a type that already has a condition [prev]:
    the stored transition time is kept whenever the status is the same,
    whether or not reason, message or generation change; if the candidate
    agrees with [prev] on status, reason, message and observed generation
    the call changes nothing at all, so the entry is untouched and
    [Changed] answers as before (false on a set just loaded that it leaves
    alone); and if the status differs, the condition stored carries the
    reconcile time of the pass as its transition time. *)
Theorem Set_transition_time (cs : status.ConditionSet)
    (condType status reason message : string) (prev : status.Condition) :
  status.conditions cs !! condType = Some prev →
  let cs' := status.Set' condType status reason message cs in
  (status.Status prev = status →
     ∃ c, status.conditions cs' !! condType = Some c ∧
          status.LastTransitionTime c = status.LastTransitionTime prev ∧
          status.Status c = status ∧ status.Reason c = reason ∧
          status.Message c = message ∧
          status.ObservedGeneration c = status.observedGeneration cs) ∧
  (status.Status prev = status → status.Reason prev = reason →
   status.Message prev = message →
   status.ObservedGeneration prev = status.observedGeneration cs →
     cs' = cs ∧ status.conditions cs' !! condType = Some prev ∧
     status.Changed cs' = status.Changed cs ∧
     (status.Changed cs = false → status.Changed cs' = false)) ∧
  (status.Status prev ≠ status →
     ∃ c, status.conditions cs' !! condType = Some c ∧
          status.LastTransitionTime c = status.reconcileTime cs ∧
          status.Status c = status ∧ status.Reason c = reason ∧
          status.Message c = message ∧
          status.ObservedGeneration c = status.observedGeneration cs) ∧
  (∀ conds gen t,
     NoDup (status.Type' <$> conds) → prev ∈ conds →
     status.ObservedGeneration prev = gen →
     status.Changed
       (status.Set' (status.Type' prev) (status.Status prev) (status.Reason prev)
          (status.Message prev) (status.NewConditionSet conds gen t)) = false).
Proof.
  intros Hprev cs'. subst cs'.
  split; [|split; [|split]]; [unfold status.Set'; rewrite Hprev; simpl..|].
  - intros Hst. rewrite <- String.eqb_eq in Hst. rewrite Hst.
    apply String.eqb_eq in Hst.
    destruct (status.isSame prev _) eqn:Hsame.
    + apply isSame_spec in Hsame as (? & ? & ? & ?); simpl in *.
      by exists prev.
    + simpl. rewrite lookup_insert_eq. by eexists.
  - intros Hst Hre Hme Hge. rewrite <- String.eqb_eq in Hst. rewrite Hst.
    apply String.eqb_eq in Hst.
    assert (status.isSame prev
              {| status.Type' := condType; status.Status := status;
                 status.ObservedGeneration := status.observedGeneration cs;
                 status.LastTransitionTime := status.LastTransitionTime prev;
                 status.Reason := reason; status.Message := message |} = true) as ->;
      [by apply isSame_spec|done].
  - intros Hst. rewrite <- String.eqb_neq in Hst. rewrite Hst.
    apply String.eqb_neq in Hst.
    assert (status.isSame prev
              {| status.Type' := condType; status.Status := status;
                 status.ObservedGeneration := status.observedGeneration cs;
                 status.LastTransitionTime := status.reconcileTime cs;
                 status.Reason := reason; status.Message := message |} = false) as ->.
    { apply not_true_iff_false. rewrite isSame_spec. simpl. tauto. }
    simpl. rewrite lookup_insert_eq. by eexists.
  - intros conds gen t Hnd Hin Hgen. unfold status.Set'.
    rewrite conditions_NewConditionSet, (byType_lookup_NoDup conds prev) by done.
    simpl. rewrite String.eqb_refl.
    assert (status.isSame prev
              {| status.Type' := status.Type' prev; status.Status := status.Status prev;
                 status.ObservedGeneration := gen;
                 status.LastTransitionTime := status.LastTransitionTime prev;
                 status.Reason := status.Reason prev;
                 status.Message := status.Message prev |} = true) as ->;
      [by apply isSame_spec|].
    by apply Changed_NewConditionSet.
Qed.

Lemma keyed_NewConditionSet (conds : list status.Condition) (gen t : Z) :
  inv.keyed (status.conditions (status.NewConditionSet conds gen t)).
Proof. intros k c Hc. by apply byType_lookup_Some in Hc as [_ ?]. Qed.

Lemma Set_lookup (condType st reason message : string) (cs : status.ConditionSet)
    (k : string) (c : status.Condition) :
  status.conditions (status.Set' condType st reason message cs) !! k = Some c →
  status.conditions cs !! k = Some c ∨ (k = condType ∧ status.Type' c = condType).
Proof.
  unfold status.Set'.
  destruct (status.conditions cs !! condType) as [prev|] eqn:Hprev.
  - destruct (status.isSame prev _); [by left|]. simpl.
    rewrite lookup_insert. case_decide as Hk; [|by left].
    intros [= <-]. right. split; [done|].
    by destruct (String.eqb (status.Status prev) st).
  - simpl. rewrite lookup_insert. case_decide as Hk; [|by left].
    intros [= <-]. by right.
Qed.

Lemma keyed_Set (condType st reason message : string) (cs : status.ConditionSet) :
  inv.keyed (status.conditions cs) →
  inv.keyed (status.conditions (status.Set' condType st reason message cs)).
Proof.
  intros Hk k c Hc. apply Set_lookup in Hc as [Hc|[-> Hc]]; [by apply Hk|done].
Qed.

Lemma keyed_applySets (cs : status.ConditionSet) (calls : list status.SetCall) :
  inv.keyed (status.conditions cs) →
  inv.keyed (status.conditions (status.applySets cs calls)).
Proof.
  revert cs. induction calls as [|call calls IH]; intros cs Hk; [done|].
  simpl. by apply IH, keyed_Set.
Qed.

(** Where the types of the live conditions come from. *)
Lemma applySets_lookup (cs : status.ConditionSet) (calls : list status.SetCall)
    (k : string) (c : status.Condition) :
  status.conditions (status.applySets cs calls) !! k = Some c →
  is_Some (status.conditions cs !! k) ∨ k ∈ status.condType <$> calls.
Proof.
  revert cs. induction calls as [|call calls IH]; intros cs Hc; [by left; eexists|].
  simpl in Hc. apply IH in Hc as [[c' Hc]|Hc].
  - apply Set_lookup in Hc as [Hc|[-> _]]; [by left; eexists|].
    right. rewrite fmap_cons. left.
  - right. rewrite fmap_cons. by right.
Qed.

Lemma lessType_asym (a b : status.Condition) :
  status.lessType a b = true → status.lessType b a = false.
Proof. apply ltb_asym. Qed.

Lemma lessType_false (a b : status.Condition) :
  status.lessType b a = false ↔
  status.Type' a = status.Type' b ∨ status.lessType a b = true.
Proof.
  unfold status.lessType. split.
  - intros Hba. destruct (ltb_trichotomy (status.Type' a) (status.Type' b))
      as [?|[?|?]]; [by right|by left|congruence].
  - intros [->|Hab]; [apply ltb_irrefl|by apply ltb_asym].
Qed.

Lemma lessType_inOrder_trans (a b c : status.Condition) :
  status.lessType b a = false → status.lessType c b = false →
  status.lessType c a = false.
Proof.
  intros H1 H2. apply lessType_false in H1, H2. apply lessType_false.
  unfold status.lessType in *.
  destruct H1 as [H1|H1], H2 as [H2|H2].
  - left. congruence.
  - right. by rewrite H1.
  - right. by rewrite <- H2.
  - right. by eapply ltb_trans.
Qed.

Lemma NoDup_fmap_elem_inj {A B : Type} (f : A → B) (l : list A) (x y : A) :
  NoDup (f <$> l) → x ∈ l → y ∈ l → f x = f y → x = y.
Proof.
  induction l as [|z l IH]; intros Hnd Hx Hy Hf.
  { by apply elem_of_nil in Hx. }
  rewrite fmap_cons in Hnd. apply NoDup_cons in Hnd as [Hz Hnd].
  apply elem_of_cons in Hx as [->|Hx], Hy as [->|Hy]; [done| | |by apply IH].
  - destruct Hz. rewrite Hf. apply list_elem_of_fmap. by exists y.
  - destruct Hz. rewrite <- Hf. apply list_elem_of_fmap. by exists x.
Qed.

Lemma keyed_values_types (m : gmap string status.Condition) :
  inv.keyed m → status.Type' <$> (map_to_list m).*2 = (map_to_list m).*1.
Proof.
  intros Hk.
  assert (Hall : ∀ kc, kc ∈ map_to_list m → status.Type' kc.2 = kc.1).
  { intros [k c] Hin. apply elem_of_map_to_list in Hin. by apply Hk. }
  induction (map_to_list m) as [|kc l IH]; [done|]. simpl. f_equal.
  - apply Hall. left.
  - apply IH. intros kc' Hin. apply Hall. by right.
Qed.

Lemma keyed_values_NoDup (m : gmap string status.Condition) :
  inv.keyed m → NoDup (status.Type' <$> (map_to_list m).*2).
Proof.
  intros Hk. rewrite keyed_values_types by done. apply NoDup_fst_map_to_list.
Qed.

Lemma sorted_strict (l : list status.Condition) :
  NoDup (status.Type' <$> l) →
  StronglySorted (sort.inOrder status.lessType) l →
  StronglySorted (λ a b, String.ltb (status.Type' a) (status.Type' b) = true) l.
Proof.
  induction l as [|x l IH]; intros Hnd Hs; [constructor|].
  rewrite fmap_cons in Hnd. apply NoDup_cons in Hnd as [Hx Hnd].
  apply StronglySorted_inv in Hs as [Hs Hall].
  constructor; [by apply IH|].
  rewrite Forall_forall in *. intros y Hy.
  pose proof (Hall y Hy) as Hxy. apply lessType_false in Hxy.
  destruct Hxy as [Heq|Hlt]; [|exact Hlt].
  destruct Hx. rewrite Heq. apply list_elem_of_fmap. by exists y.
Qed.

Lemma conditionsOf_order_irrelevant (m : gmap string status.Condition)
    (entries : list (string * status.Condition)) :
  inv.keyed m → entries ≡ₚ map_to_list m →
  status.conditionsOf entries = status.conditionsOf (map_to_list m).
Proof.
  intros Hk Hperm. unfold status.conditionsOf.
  apply (Slice_unique _ lessType_asym lessType_inOrder_trans); [|by rewrite Hperm].
  intros x y Hx Hy Hxy Hyx.
  apply (NoDup_fmap_elem_inj status.Type' (map_to_list m).*2); [|done..|].
  - by apply keyed_values_NoDup.
  - apply lessType_false in Hxy as [?|Hlt]; [done|]. congruence.
Qed.

Lemma elem_of_Conditions (cs : status.ConditionSet) (c : status.Condition) :
  inv.keyed (status.conditions cs) →
  c ∈ status.Conditions cs ↔ status.conditions cs !! status.Type' c = Some c.
Proof.
  intros Hk. unfold status.Conditions, status.conditionsOf.
  rewrite Slice_Permutation, list_elem_of_fmap. split.
  - intros [[k c'] [-> Hin]]. apply elem_of_map_to_list in Hin. simpl.
    by rewrite (Hk _ _ Hin).
  - intros Hc. exists (status.Type' c, c). split; [done|].
    by apply elem_of_map_to_list.
Qed.

Lemma Conditions_strictly_sorted (cs : status.ConditionSet) :
  inv.keyed (status.conditions cs) →
  StronglySorted (λ a b, String.ltb (status.Type' a) (status.Type' b) = true)
    (status.Conditions cs).
Proof.
  intros Hk. apply sorted_strict.
  - unfold status.Conditions, status.conditionsOf.
    rewrite Slice_Permutation. by apply keyed_values_NoDup.
  - apply (Slice_sorted _ lessType_asym lessType_inOrder_trans).
Qed.

(** C9 as the code has it.  In every state reached from an input list by
    calls of [Set], [Conditions] returns exactly the live conditions, each
    once, in strictly ascending order of type, whatever order the map is
    ranged over; an entry with an empty type occurs only if the input list
    or a call of [Set] brought the empty type in, so none occurs when all
    of them name a type. *)
Theorem Conditions_sorted_by_type (conds : list status.Condition) (gen t : Z)
    (calls : list status.SetCall) :
  let cs := status.applySets (status.NewConditionSet conds gen t) calls in
  StronglySorted (λ a b, String.ltb (status.Type' a) (status.Type' b) = true)
    (status.Conditions cs) ∧
  (∀ c, c ∈ status.Conditions cs ↔ status.conditions cs !! status.Type' c = Some c) ∧
  length (status.Conditions cs) = size (status.conditions cs) ∧
  (∀ entries, entries ≡ₚ map_to_list (status.conditions cs) →
     status.conditionsOf entries = status.Conditions cs) ∧
  (∀ c, c ∈ status.Conditions cs → status.Type' c = "" →
     "" ∈ status.Type' <$> conds ∨ "" ∈ status.condType <$> calls) ∧
  ((∀ c, c ∈ conds → status.Type' c ≠ "") →
   (∀ call, call ∈ calls → status.condType call ≠ "") →
   ∀ c, c ∈ status.Conditions cs → status.Type' c ≠ "").
Proof.
  intros cs.
  assert (Hk : inv.keyed (status.conditions cs))
    by apply keyed_applySets, keyed_NewConditionSet.
  assert (Hempty : ∀ c, c ∈ status.Conditions cs → status.Type' c = "" →
            "" ∈ status.Type' <$> conds ∨ "" ∈ status.condType <$> calls).
  { intros c Hc Hty. apply elem_of_Conditions in Hc; [|done].
    rewrite Hty in Hc. apply applySets_lookup in Hc as [[c' Hc']|Hc]; [|by right].
    left. rewrite conditions_NewConditionSet in Hc'.
    apply byType_lookup_Some in Hc' as [Hin Hty'].
    apply list_elem_of_fmap. by exists c'. }
  split; [by apply Conditions_strictly_sorted|].
  split; [intros c; by apply elem_of_Conditions|].
  split.
  { unfold status.Conditions, status.conditionsOf.
    by rewrite Slice_Permutation, length_fmap, length_map_to_list. }
  split; [intros entries; by apply conditionsOf_order_irrelevant|].
  split; [done|].
  intros Hconds Hcalls c Hc Hty.
  destruct (Hempty c Hc Hty) as [Hin|Hin];
    apply list_elem_of_fmap in Hin as (x & Hx & Hin).
  - by apply (Hconds x).
  - by apply (Hcalls x).
Qed.

(** ** Log rate limiter *)

Lemma len_nonneg {V : Type} (m : gmap string V) : 0 <= builtin.len m.
Proof. unfold builtin.len. lia. Qed.

Lemma evictOne_spec (choose : logging.chooser) (m : gmap string Z) :
  m ≠ ∅ →
  ∃ fp, is_Some (m !! fp) ∧ logging.evictOne choose m = delete fp m.
Proof.
  intros Hne. unfold logging.evictOne.
  set (keys := (map_to_list m).*1).
  assert (Hlen : length keys ≠ 0%nat).
  { unfold keys. rewrite length_fmap, length_map_to_list.
    intros Hz. by apply map_size_empty_iff in Hz. }
  destruct (keys !! (choose keys `mod` length keys)%nat) as [fp|] eqn:Hfp.
  - exists fp. split; [|done].
    apply list_elem_of_lookup_2 in Hfp. unfold keys in Hfp.
    apply list_elem_of_fmap in Hfp as ([k v] & -> & Hin).
    apply elem_of_map_to_list in Hin. by eexists.
  - apply lookup_ge_None in Hfp.
    pose proof (Nat.mod_upper_bound (choose keys) (length keys) Hlen). lia.
Qed.

Lemma evictOne_len (choose : logging.chooser) (m : gmap string Z) :
  0 < builtin.len m →
  builtin.len (logging.evictOne choose m) = builtin.len m - 1 ∧
  logging.evictOne choose m ⊆ m.
Proof.
  intros Hpos.
  destruct (evictOne_spec choose m) as (fp & Hfp & ->).
  { intros ->. unfold builtin.len in Hpos. rewrite map_size_empty in Hpos. lia. }
  split; [|apply delete_subseteq].
  unfold builtin.len in *. rewrite map_size_delete_Some by done. lia.
Qed.

(** With one round of fuel per entry and a capacity that is not negative,
    the eviction loop ends; it removes entries only while the table is
    above capacity, and stops exactly at capacity. *)
Lemma evict_spec (choose : logging.chooser) (cap : Z) (fuel : nat) (m : gmap string Z) :
  0 <= cap → builtin.len m <= Z.of_nat fuel →
  ∃ m', logging.evict fuel choose cap m = Some m' ∧ m' ⊆ m ∧
        builtin.len m' = Z.min (builtin.len m) cap.
Proof.
  intros Hcap. revert m. induction fuel as [|fuel IH]; intros m Hfuel; simpl.
  - pose proof (len_nonneg m). destruct (Z.ltb_spec cap (builtin.len m)); [lia|].
    exists m. split; [done|]. split; [done|]. lia.
  - destruct (Z.ltb_spec cap (builtin.len m)) as [Hover|Hok].
    + destruct (evictOne_len choose m) as [Hlen Hsub]; [lia|].
      destruct (IH (logging.evictOne choose m)) as (m' & Hm' & Hsub' & Hlen'); [lia|].
      exists m'. split; [done|]. split; [by etrans|]. lia.
    + exists m. split; [done|]. split; [done|]. lia.
Qed.

(** With a negative capacity the loop never ends: the fuel of one round per
    entry runs out on the empty table, where the Go loop spins. *)
Lemma evict_spins (choose : logging.chooser) (cap : Z) (m : gmap string Z) :
  cap < 0 → logging.evict (size m) choose cap m = None.
Proof.
  intros Hcap. remember (size m) as fuel eqn:Hfuel.
  revert m Hfuel. induction fuel as [|fuel IH]; intros m Hfuel; simpl.
  - pose proof (len_nonneg m). by destruct (Z.ltb_spec cap (builtin.len m)); [|lia].
  - pose proof (len_nonneg m). destruct (Z.ltb_spec cap (builtin.len m)); [|lia].
    apply IH. destruct (evictOne_len choose m) as [Hlen _].
    + unfold builtin.len. lia.
    + unfold builtin.len in Hlen. lia.
Qed.

Lemma dropExpired_lookup (now : Z) (m : gmap string Z) (fp : string) (n : Z) :
  logging.dropExpired now m !! fp = Some n ↔ m !! fp = Some n ∧ now < n.
Proof. unfold logging.dropExpired. by rewrite map_lookup_filter_Some. Qed.

Lemma prune_spec (choose : logging.chooser) (now : Z) (l : logging.Limiter) :
  0 <= logging.size l →
  ∃ l', logging.prune choose now l = Some l' ∧
        logging.size l' = logging.size l ∧
        logging.entries l' ⊆ logging.dropExpired now (logging.entries l) ∧
        builtin.len (logging.entries l') =
          Z.min (builtin.len (logging.dropExpired now (logging.entries l)))
                (logging.size l).
Proof.
  intros Hsize. unfold logging.prune.
  destruct (evict_spec choose (logging.size l)
              (size (logging.dropExpired now (logging.entries l)))
              (logging.dropExpired now (logging.entries l)))
    as (m' & -> & Hsub & Hlen); [done|unfold builtin.len; lia|].
  simpl. by eexists.
Qed.

Lemma Allow_disabled (choose : logging.chooser) (fp : string) (now interval : Z)
    (l : logging.Limiter) :
  interval <= 0 → logging.Allow choose fp now interval l = Some (true, l).
Proof.
  intros Hi. unfold logging.Allow.
  by destruct (Z.leb_spec interval 0); [|lia].
Qed.

Lemma Allow_blocked (choose : logging.chooser) (fp : string) (now interval : Z)
    (l : logging.Limiter) (nextAllowed : Z) :
  0 < interval → logging.entries l !! fp = Some nextAllowed → now < nextAllowed →
  logging.Allow choose fp now interval l = Some (false, l).
Proof.
  intros Hi Hfp Hnow. unfold logging.Allow. rewrite Hfp.
  destruct (Z.leb_spec interval 0); [lia|].
  by destruct (Z.ltb_spec now nextAllowed); [|lia].
Qed.

(** An answer [false] is given only to a blocked caller, and with the
    state as it was. *)
Lemma Allow_false_inv (choose : logging.chooser) (fp : string) (now interval : Z)
    (l l' : logging.Limiter) :
  logging.Allow choose fp now interval l = Some (false, l') →
  l' = l ∧ 0 < interval ∧
  ∃ nextAllowed, logging.entries l !! fp = Some nextAllowed ∧ now < nextAllowed.
Proof.
  unfold logging.Allow.
  destruct (Z.leb_spec interval 0) as [|Hi]; [done|].
  destruct (logging.entries l !! fp) as [n|] eqn:Hfp.
  - destruct (Z.ltb_spec now n) as [Hnow|Hnow].
    + intros [= <-]. split; [done|]. split; [done|]. by exists n.
    + destruct (_ <? _); [|done]. by destruct (logging.prune _ _ _).
  - destruct (_ <? _); [|done]. by destruct (logging.prune _ _ _).
Qed.

(** A granted call: the entry is written, and the table is pruned if that
    put it over capacity. *)
Lemma Allow_granted (choose : logging.chooser) (fp : string) (now interval : Z)
    (l : logging.Limiter) :
  0 < interval → 0 <= logging.size l →
  (∀ nextAllowed, logging.entries l !! fp = Some nextAllowed → nextAllowed <= now) →
  let ins := <[fp := now + interval]> (logging.entries l) in
  ∃ l', logging.Allow choose fp now interval l = Some (true, l') ∧
        logging.size l' = logging.size l ∧
        (builtin.len ins <= logging.size l → logging.entries l' = ins) ∧
        (logging.size l < builtin.len ins →
           logging.entries l' ⊆ logging.dropExpired now ins ∧
           builtin.len (logging.entries l') =
             Z.min (builtin.len (logging.dropExpired now ins)) (logging.size l)).
Proof.
  intros Hi Hsize Hfree ins. unfold logging.Allow.
  destruct (Z.leb_spec interval 0); [lia|].
  assert (match logging.entries l !! fp with
          | Some nextAllowed => now <? nextAllowed
          | None => false
          end = false) as ->.
  { destruct (logging.entries l !! fp) as [n|] eqn:Hfp; [|done].
    specialize (Hfree n eq_refl). by destruct (Z.ltb_spec now n); [lia|]. }
  simpl. fold ins.
  destruct (Z.ltb_spec (logging.size l) (builtin.len ins)) as [Hover|Hok].
  - destruct (prune_spec choose now {| logging.size := logging.size l;
                                       logging.entries := ins |})
      as (l' & -> & Hsz & Hsub & Hlen); [done|]. simpl in *.
    exists l'. split; [done|]. split; [done|]. split; [lia|done].
  - eexists. split; [done|]. split; [done|]. split; [done|lia].
Qed.

Lemma step_cases (l : logging.Limiter) (c : logging.Call) :
  0 <= logging.size l →
  ∃ b l', logging.step l c = Some (b, l') ∧ logging.size l' = logging.size l ∧
    (inv.prunes l c = false →
       l' = l ∨
       (b = true ∧ 0 < logging.interval c ∧
        logging.entries l' = <[logging.fingerprint c := logging.now c + logging.interval c]>
                               (logging.entries l) ∧
        ∀ n, logging.entries l !! logging.fingerprint c = Some n → n <= logging.now c)) ∧
    (inv.prunes l c = true →
       let ins := <[logging.fingerprint c := logging.now c + logging.interval c]>
                    (logging.entries l) in
       b = true ∧ 0 < logging.interval c ∧ logging.size l < builtin.len ins ∧
       logging.entries l' ⊆ logging.dropExpired (logging.now c) ins ∧
       builtin.len (logging.entries l') =
         Z.min (builtin.len (logging.dropExpired (logging.now c) ins)) (logging.size l)).
Proof.
  intros Hsize. unfold logging.step, inv.prunes.
  destruct (Z.ltb_spec 0 (logging.interval c)) as [Hi|Hi]; simpl.
  2:{ exists true, l. rewrite Allow_disabled by done.
      split; [done|]. split; [done|]. split; [by left|done]. }
  destruct (logging.entries l !! logging.fingerprint c) as [n|] eqn:Hfp.
  - destruct (Z.ltb_spec (logging.now c) n) as [Hnow|Hnow]; simpl.
    { exists false, l. rewrite (Allow_blocked _ _ _ _ _ n) by done.
      split; [done|]. split; [done|]. split; [by left|done]. }
    destruct (Allow_granted (logging.choose c) (logging.fingerprint c) (logging.now c)
                (logging.interval c) l) as (l' & -> & Hsz & Hfit & Hover); [done..| |].
    { intros n' Hn'. rewrite Hfp in Hn'. by simplify_eq. }
    exists true, l'. split; [done|]. split; [done|].
    split; intros Hp.
    + apply Z.ltb_ge in Hp. right. rewrite Hfit by done.
      repeat split; try done. intros n' [= <-]. done.
    + apply Z.ltb_lt in Hp. destruct (Hover Hp). done.
  - simpl.
    destruct (Allow_granted (logging.choose c) (logging.fingerprint c) (logging.now c)
                (logging.interval c) l) as (l' & -> & Hsz & Hfit & Hover); [done..| |].
    { intros n' Hn'. by rewrite Hfp in Hn'. }
    exists true, l'. split; [done|]. split; [done|].
    split; intros Hp.
    + apply Z.ltb_ge in Hp. right. rewrite Hfit by done. done.
    + apply Z.ltb_lt in Hp. destruct (Hover Hp). done.
Qed.

Lemma step_bounded (l : logging.Limiter) (c : logging.Call) :
  inv.bounded l →
  ∃ b l', logging.step l c = Some (b, l') ∧ inv.bounded l' ∧
          logging.size l' = logging.size l.
Proof.
  intros [Hsize Hlen].
  destruct (step_cases l c) as (b & l' & Hstep & Hsz & Hquiet & Hprune); [lia|].
  exists b, l'. split; [done|]. split; [|done].
  unfold inv.bounded. rewrite Hsz. split; [done|].
  destruct (inv.prunes l c) eqn:Hp.
  - destruct (Hprune eq_refl) as (_ & _ & _ & _ & Hmin). lia.
  - destruct (Hquiet eq_refl) as [->|(_ & _ & Hent & _)]; [done|].
    destruct (Hquiet eq_refl) as [->|(_ & Hi & _ & Hfree)]; [done|].
    unfold inv.prunes in Hp. rewrite Hent.
    apply andb_false_iff in Hp as [Hp|Hp]; [|by apply Z.ltb_ge in Hp].
    apply andb_false_iff in Hp as [Hp|Hp]; [apply Z.ltb_ge in Hp; lia|].
    apply negb_false_iff in Hp.
    destruct (logging.entries l !! logging.fingerprint c) as [n|]; [|done].
    specialize (Hfree n eq_refl). apply Z.ltb_lt in Hp. lia.
Qed.

Lemma run_bounded (calls : list logging.Call) (l : logging.Limiter) :
  inv.bounded l →
  ∃ bs l', logging.run l calls = Some (bs, l') ∧ inv.bounded l' ∧
           logging.size l' = logging.size l.
Proof.
  revert l. induction calls as [|c calls IH]; intros l Hb; simpl.
  { by exists [], l. }
  destruct (step_bounded l c Hb) as (b & l1 & -> & Hb1 & Hsz1).
  destruct (IH l1 Hb1) as (bs & l2 & -> & Hb2 & Hsz2).
  exists (b :: bs), l2. split; [done|]. split; [done|]. congruence.
Qed.

Lemma NewLimiter_bounded (n : Z) :
  inv.bounded (logging.NewLimiter n) ∧
  logging.size (logging.NewLimiter n) = if n <=? 0 then logging.defaultSize else n.
Proof.
  split; [|done]. unfold inv.bounded, logging.NewLimiter, builtin.len; simpl.
  rewrite map_size_empty. unfold logging.defaultSize.
  destruct (Z.leb_spec n 0); lia.
Qed.

(** C7.  In every state [l] that a limiter built by [NewLimiter] reaches
    through calls of [Allow], the table holds at most the configured
    capacity of fingerprints, and so it does after one more call, which
    always returns.  When that call inserts over capacity and [prune]
    runs, no expired entry (next-allowed instant at or before [now]) is
    left, entries are evicted from among the unexpired ones only, and only
    as many as still exceed the capacity (none if dropping the expired ones
    was enough), and at least one entry survives. *)
Theorem Allow_capacity_bound (n : Z) (calls : list logging.Call) (bs : list bool)
    (l : logging.Limiter) (c : logging.Call) :
  logging.run (logging.NewLimiter n) calls = Some (bs, l) →
  (∀ calls', is_Some (logging.run (logging.NewLimiter n) calls')) ∧
  logging.size l = (if n <=? 0 then logging.defaultSize else n) ∧
  builtin.len (logging.entries l) <= logging.size l ∧
  ∃ b l',
    logging.step l c = Some (b, l') ∧
    logging.size l' = logging.size l ∧
    builtin.len (logging.entries l') <= logging.size l' ∧
    (inv.prunes l c = true →
       let ins := <[logging.fingerprint c := logging.now c + logging.interval c]>
                    (logging.entries l) in
       let live := logging.dropExpired (logging.now c) ins in
       b = true ∧
       (∀ fp nextAllowed, logging.entries l' !! fp = Some nextAllowed →
                          logging.now c < nextAllowed) ∧
       logging.entries l' ⊆ live ∧
       builtin.len (logging.entries l') = Z.min (builtin.len live) (logging.size l) ∧
       (builtin.len live <= logging.size l → logging.entries l' = live) ∧
       1 <= builtin.len (logging.entries l')).
Proof.
  intros Hrun.
  destruct (NewLimiter_bounded n) as [Hb0 Hsz0].
  assert (Htotal : ∀ calls', is_Some (logging.run (logging.NewLimiter n) calls')).
  { intros calls'. destruct (run_bounded calls' _ Hb0) as (bs' & l' & -> & _). by eexists. }
  split; [done|].
  destruct (run_bounded calls _ Hb0) as (bs0 & l0 & Hrun0 & Hb & Hsz).
  assert (l0 = l) as -> by congruence. clear Hrun0.
  split; [congruence|]. destruct Hb as [Hsize Hlen]. split; [done|].
  destruct (step_bounded l c) as (b & l' & Hstep & [Hsize' Hlen'] & Hsz'); [done|].
  exists b, l'. split; [done|]. split; [done|]. split; [done|].
  intros Hp ins live.
  destruct (step_cases l c) as (b2 & l2 & Hstep2 & _ & _ & Hprune); [lia|].
  assert (l2 = l') as -> by congruence. assert (b2 = b) as -> by congruence.
  destruct (Hprune Hp) as (-> & Hi & Hover & Hsub & Hmin). fold ins live in Hsub, Hmin.
  split; [done|].
  split.
  { intros fp nx Hfp.
    eapply lookup_weaken in Hfp; [|exact Hsub].
    by apply dropExpired_lookup in Hfp as [_ ?]. }
  split; [done|]. split; [done|].
  split.
  { intros Hfit. apply map_subseteq_size_eq; [done|].
    unfold builtin.len in *. lia. }
  assert (Hfp : live !! logging.fingerprint c
                = Some (logging.now c + logging.interval c)).
  { apply dropExpired_lookup. unfold ins. rewrite lookup_insert_eq. split; [done|lia]. }
  assert (0 < builtin.len live); [|lia].
  unfold builtin.len.
  destruct (decide (size live = 0%nat)) as [Hz|Hz]; [|lia].
  apply map_size_empty_iff in Hz. by rewrite Hz in Hfp.
Qed.

(** C10.  A call of [Allow] that answers false leaves the limiter exactly
    as it was: the table, and with it the next-allowed instant of the
    blocked fingerprint, is the same, no entry has been created and nothing
    has been pruned or evicted. *)
Theorem Allow_blocked_unchanged (choose : logging.chooser) (fp : string)
    (now interval : Z) (l l' : logging.Limiter) :
  logging.Allow choose fp now interval l = Some (false, l') →
  l' = l ∧
  logging.entries l' = logging.entries l ∧
  logging.entries l' !! fp = logging.entries l !! fp ∧
  (∀ fp', logging.entries l' !! fp' = logging.entries l !! fp') ∧
  builtin.len (logging.entries l') = builtin.len (logging.entries l) ∧
  inv.prunes l {| logging.choose := choose; logging.fingerprint := fp;
                  logging.now := now; logging.interval := interval |} = false.
Proof.
  intros Hfalse. apply Allow_false_inv in Hfalse as (-> & Hi & n & Hfp & Hnow).
  repeat split. unfold inv.prunes; simpl. rewrite Hfp.
  destruct (Z.ltb_spec now n); [|lia]. simpl. by rewrite andb_false_r.
Qed.



(** ** Fanout observation *)

Lemma observeAll_invariant (obs : controller.Observation) (ops : list controller.Op) :
  Z.of_nat (length (controller.Samples obs)) <= controller.MaxSample obs →
  controller.MaxSample (controller.observeAll obs ops) = controller.MaxSample obs ∧
  Z.of_nat (length (controller.Samples (controller.observeAll obs ops)))
    <= controller.MaxSample obs.
Proof.
  revert obs. induction ops as [|op ops IH]; intros obs Hle; [done|].
  simpl. destruct op as [|namespace kind reason err]; simpl.
  - apply (IH (controller.ObserveSuccess obs)). done.
  - destruct (IH (controller.ObserveFailure namespace kind reason err obs)) as [Hmax Hlen].
    + simpl. destruct (Z.ltb_spec (Z.of_nat (length (controller.Samples obs)))
                         (controller.MaxSample obs)); [|done].
      rewrite length_app. simpl. lia.
    + done.
Qed.

Lemma length_substring_0 (n : nat) (s : string) :
  String.length (String.substring 0 n s) = Nat.min n (String.length s).
Proof.
  revert s. induction n as [|n IH]; intros [|a s]; simpl; try done.
  by rewrite IH.
Qed.

Lemma length_append (s1 s2 : string) :
  String.length (String.append s1 s2) = (String.length s1 + String.length s2)%nat.
Proof. induction s1 as [|a s1 IH]; simpl; [done|by rewrite IH]. Qed.

Lemma truncate_length (s : string) (max : Z) :
  0 < max → Z.of_nat (String.length (controller.truncate s max)) <= max.
Proof.
  intros Hmax. unfold controller.truncate, controller.prefix.
  destruct (Z.leb_spec max 0); [lia|]. simpl.
  destruct (Z.leb_spec (Z.of_nat (String.length s)) max) as [Hs|Hs]; [done|].
  destruct (Z.leb_spec max 3).
  - rewrite length_substring_0; lia.
  - rewrite length_append, length_substring_0; simpl; lia.
Qed.

(** C8 as the code has it.  Starting from [NewObservation] and after any
    sequence of observations, [ObserveFailure] always increments [Failed]
    and the count of its reason, and appends a sample record (target,
    message, kind, reason) exactly when fewer than [MaxSample] samples are
    held, so that the samples never exceed [MaxSample].  The record holds
    the error's message in full; the message is cut to 120 bytes where the
    samples are formatted for the log. *)
Theorem ObserveFailure_samples (total maxSample : Z) (obs0 : controller.Observation)
    (ops : list controller.Op) (namespace kind reason : string)
    (err : option errclass.error) :
  controller.NewObservation total maxSample = Some obs0 →
  let obs := controller.observeAll obs0 ops in
  let obs' := controller.ObserveFailure namespace kind reason err obs in
  let sample := {| controller.Namespace := namespace;
                   controller.Message := match err with
                                         | Some e => errclass.Error e
                                         | None => ""
                                         end;
                   controller.Reason := reason;
                   controller.Kind := kind |} in
  controller.MaxSample obs = maxSample ∧
  Z.of_nat (length (controller.Samples obs)) <= maxSample ∧
  controller.Failed obs' = GoInt.incr (controller.Failed obs) ∧
  (GoInt.minInt <= controller.Failed obs < GoInt.maxInt →
     controller.Failed obs' = controller.Failed obs + 1) ∧
  controller.Reasons obs' !! reason
    = Some (GoInt.incr (default 0 (controller.Reasons obs !! reason))) ∧
  (∀ r, r ≠ reason → controller.Reasons obs' !! r = controller.Reasons obs !! r) ∧
  (Z.of_nat (length (controller.Samples obs)) < maxSample →
     controller.Samples obs' = (controller.Samples obs ++ [sample])%list) ∧
  (maxSample <= Z.of_nat (length (controller.Samples obs)) →
     controller.Samples obs' = controller.Samples obs) ∧
  controller.MaxSample obs' = maxSample ∧
  Z.of_nat (length (controller.Samples obs')) <= maxSample ∧
  (∀ s, Z.of_nat (String.length (controller.sampleMsg s)) <= controller.maxMsgLen).
Proof.
  intros Hnew obs obs' sample.
  assert (Hobs0 : controller.MaxSample obs0 = maxSample ∧ controller.Samples obs0 = []
                  ∧ 0 <= maxSample).
  { unfold controller.NewObservation, controller.minSample in Hnew.
    destruct (Z.ltb_spec (Z.min 8 maxSample) 0); [done|].
    injection Hnew as <-. simpl. repeat split. lia. }
  destruct Hobs0 as (Hmax0 & Hs0 & Hnn).
  destruct (observeAll_invariant obs0 ops) as [Hmax Hlen].
  { rewrite Hs0, Hmax0. simpl. lia. }
  fold obs in Hmax, Hlen. rewrite Hmax0 in Hmax, Hlen.
  split; [done|]. split; [done|]. split; [done|].
  split; [intros Hr; by apply incr_in_range|].
  split; [apply lookup_insert_eq|].
  split; [intros r Hr; simpl; unfold controller.bump; by rewrite lookup_insert_ne|].
  assert (Hyes : Z.of_nat (length (controller.Samples obs)) < maxSample →
                 controller.Samples obs' = (controller.Samples obs ++ [sample])%list).
  { intros Hlt. simpl. rewrite Hmax.
    by destruct (Z.ltb_spec (Z.of_nat (length (controller.Samples obs))) maxSample);
      [|lia]. }
  assert (Hno : maxSample <= Z.of_nat (length (controller.Samples obs)) →
                controller.Samples obs' = controller.Samples obs).
  { intros Hge. simpl. rewrite Hmax.
    by destruct (Z.ltb_spec (Z.of_nat (length (controller.Samples obs))) maxSample);
      [lia|]. }
  split; [done|]. split; [done|]. split; [done|].
  split; [|intros s; by apply truncate_length].
  destruct (Z.lt_ge_cases (Z.of_nat (length (controller.Samples obs))) maxSample).
  - rewrite Hyes by done. rewrite length_app. simpl. lia.
  - by rewrite Hno.
Qed.

(** ** Status persistence *)

(** C5 as the code has it.  [patchStatusIfChanged] sends the status patch
    exactly when the condition set has changed or a desired content
    fingerprint is given that differs from the persisted one; a changed
    condition set always causes the patch, at most one patch is sent, and
    without a patch the policy object is left as it was.  In a pass, where
    the desired fingerprint is the current one on success and none
    otherwise, the patch is sent exactly when the conditions have changed
    or the pass succeeded with a fingerprint that differs from the
    persisted one. *)
Theorem patchStatusIfChanged_issued
    (SetStatusCondition : list status.Condition → status.Condition → list status.Condition)
    (patchAnswer : option errclass.error) (identity : v1alpha1.IdentitySyncPolicy) :
  let observed := v1alpha1.ObservedSourceSecretHash (v1alpha1.Status identity) in
  (∀ cs desiredHash,
     let out := controller.patchStatusIfChanged SetStatusCondition patchAnswer
                  identity (Some cs) desiredHash in
     (controller.requests out ≠ [] ↔
        status.Changed cs = true ∨ (desiredHash ≠ "" ∧ observed ≠ desiredHash)) ∧
     (status.Changed cs = true →
        ∃ patch, controller.requests out = [controller.StatusPatch patch identity]) ∧
     (length (controller.requests out) <= 1)%nat ∧
     (controller.requests out = [] →
        controller.identity' out = identity ∧ controller.patched out = false ∧
        controller.patchErr out = None)) ∧
  (∀ phase conds decision currentHash,
     let done := controller.finishStatus SetStatusCondition patchAnswer phase
                   identity conds decision currentHash in
     controller.requests done.2 ≠ [] ↔
       status.Changed done.1 = true ∨
       (result.Outcome_ decision = result.OutcomeSuccess ∧
        currentHash ≠ "" ∧ observed ≠ currentHash)).
Proof.
  intros observed.
  assert (Hiff : ∀ cs desiredHash,
    controller.requests
      (controller.patchStatusIfChanged SetStatusCondition patchAnswer identity
         (Some cs) desiredHash) ≠ [] ↔
    status.Changed cs = true ∨ (desiredHash ≠ "" ∧ observed ≠ desiredHash)).
  { intros cs desiredHash. unfold controller.patchStatusIfChanged. fold observed.
    destruct (status.Changed cs); simpl.
    - split; [by left|]. intros _. by destruct patchAnswer.
    - destruct (String.eqb_spec desiredHash ""); simpl.
      { split; [done|]. intros [?|[? _]]; done. }
      destruct (String.eqb_spec observed desiredHash); simpl.
      { split; [done|]. intros [?|[_ ?]]; done. }
      split; [by right|]. intros _. by destruct patchAnswer. }
  split.
  - intros cs desiredHash out. split; [apply Hiff|].
    subst out. unfold controller.patchStatusIfChanged.
    split; [|split].
    + intros ->. simpl. destruct patchAnswer; simpl; by eexists.
    + destruct (negb _ && negb _); [simpl; lia|]. destruct patchAnswer; simpl; lia.
    + destruct (negb _ && negb _); [done|]. by destruct patchAnswer.
  - intros phase conds decision currentHash done'. subst done'.
    unfold controller.finishStatus. simpl. rewrite Hiff.
    destruct (String.eqb_spec (result.Outcome_ decision) result.OutcomeSuccess).
    + split; intros [?|[? ?]]; auto.
    + split; [intros [?|[? _]]; [by left|done]|]. intros [?|[? _]]; [by left|done].
Qed.

(** * The theorems at concrete inputs *)

(** C1 on eight targets of which two synced, with failures of both
    classes: a partial outcome, requeued after the transient delay. *)
Lemma Decide_spec_witness :
  0 <= controller.Total examples.obsMixed ∧
  result.Outcome_ (controller.Decide controller.DefaultPolicy examples.obsMixed)
    = result.OutcomePartial ∧
  result.RequeueAfter (controller.Decide controller.DefaultPolicy examples.obsMixed)
    = controller.TransientDelay controller.DefaultPolicy.
Proof.
  assert (H : 0 <= controller.Total examples.obsMixed) by (simpl; lia).
  destruct (Decide_spec controller.DefaultPolicy examples.obsMixed H)
    as (_ & _ & Hpartial & _ & _ & _ & Htransient).
  split; [exact H|]. split.
  - apply Hpartial; simpl; lia.
  - apply Htransient; [vm_compute; discriminate|reflexivity|reflexivity].
Defined.

(** C3 on a Kubernetes not-found error. *)
Lemma ClassifyError_spec_witness :
  errclass.ClassifyError (Some examples.errNotFound) errclass.NotFoundAsTransient
  = ("Transient", "NotFound") ∧
  errclass.ClassifyError (Some examples.errNotFound) errclass.NotFoundAsConfig
  = ("Config", "NotFound").
Proof.
  destruct (ClassifyError_spec examples.errNotFound) as (_ & _ & _ & Ht & Hc);
    [reflexivity|reflexivity|].
  split; [exact Ht|exact Hc].
Defined.

(** C4 on a condition Ready=True set at time 100, in a pass at time 200:
    a new message keeps the transition time, the same values change
    nothing. *)
Lemma Set_transition_time_witness :
  (∃ c, status.conditions (status.Set' "Ready" "True" "Ok" "new" examples.csReady)
          !! "Ready" = Some c ∧
        status.LastTransitionTime c = 100 ∧ status.Message c = "new") ∧
  status.Changed (status.Set' "Ready" "True" "Ok" "old" examples.csReady) = false.
Proof.
  assert (H : status.conditions examples.csReady !! "Ready" = Some examples.condReady)
    by (vm_compute; reflexivity).
  split.
  - destruct (Set_transition_time examples.csReady "Ready" "True" "Ok" "new"
                examples.condReady H) as (Hsame & _).
    destruct (Hsame eq_refl) as (c & Hc & Hltt & _ & _ & Hmsg & _).
    exists c. split; [exact Hc|]. split; [exact Hltt|exact Hmsg].
  - destruct (Set_transition_time examples.csReady "Ready" "True" "Ok" "old"
                examples.condReady H) as (_ & Hnoop & _).
    destruct (Hnoop eq_refl eq_refl eq_refl eq_refl) as (_ & _ & _ & Hkeep).
    apply Hkeep. vm_compute. reflexivity.
Defined.

(** C7 on a limiter of capacity 1 that holds [a] when [b] arrives: the
    table is pruned back to one entry. *)
Lemma Allow_capacity_bound_witness :
  ∃ b l',
    logging.step {| logging.size := 1; logging.entries := {["a" := 3700]} |}
      (examples.call examples.first "b" 100 3600) = Some (b, l') ∧
    builtin.len (logging.entries l') <= 1 ∧
    1 <= builtin.len (logging.entries l').
Proof.
  assert (H : logging.run (logging.NewLimiter 1)
                [examples.call examples.first "a" 100 3600]
              = Some ([true], {| logging.size := 1;
                                 logging.entries := {["a" := 3700]} |}))
    by (vm_compute; reflexivity).
  destruct (Allow_capacity_bound 1 _ _ _ (examples.call examples.first "b" 100 3600) H)
    as (_ & _ & _ & b & l' & Hstep & Hsize & Hlen & Hprune).
  exists b, l'. split; [exact Hstep|]. split.
  - rewrite Hsize in Hlen. exact Hlen.
  - apply Hprune. vm_compute. reflexivity.
Defined.

(** C10 on a call at time 105 for a fingerprint blocked until 110. *)
Lemma Allow_blocked_unchanged_witness :
  let l := {| logging.size := 10; logging.entries := {["fp" := 110]} |} in
  logging.Allow examples.first "fp" 105 10 l = Some (false, l) ∧
  logging.entries l !! "fp" = Some 110.
Proof.
  intros l.
  assert (H : logging.Allow examples.first "fp" 105 10 l = Some (false, l))
    by (vm_compute; reflexivity).
  destruct (Allow_blocked_unchanged examples.first "fp" 105 10 l l H)
    as (_ & _ & Hfp & _).
  split; [exact H|]. vm_compute. reflexivity.
Defined.


(** C8 on the first failure of a pass over one target. *)
Lemma ObserveFailure_samples_witness :
  ∃ obs0,
    controller.NewObservation 1 50 = Some obs0 ∧
    length (controller.Samples
              (controller.ObserveFailure "ns" "Transient" "Timeout"
                 (Some examples.errLong) obs0)) = 1%nat.
Proof.
  eexists. split; [reflexivity|].
  match goal with
  | |- context [controller.ObserveFailure _ _ _ _ ?o] =>
    destruct (ObserveFailure_samples 1 50 o [] "ns" "Transient" "Timeout"
                (Some examples.errLong) eq_refl)
      as (_ & _ & _ & _ & _ & _ & Happend & _)
  end.
  assert (Hlt : Z.of_nat 0 < 50) by (simpl; lia).
  exact (f_equal length (Happend Hlt)).
Defined.

(** * Where the stated claims fail *)

(** C5.  A pass that succeeds with unchanged conditions but a new content
    fingerprint ([h1] against the persisted [h0]) patches the status
    although [Changed] is false. *)
Lemma patch_without_condition_change :
  let done := controller.finishStatus examples.setStatusCondition None
                observability.PhaseFanout examples.syncedPolicy
                (status.NewConditionSet examples.syncedConditions 7 200)
                examples.fanoutCompleted "h1" in
  ¬ (controller.requests done.2 ≠ [] ↔ status.Changed done.1 = true).
Proof.
  intros done' [Hpatch _].
  assert (Hc : status.Changed done'.1 = false) by (vm_compute; reflexivity).
  rewrite Hpatch in Hc; [discriminate|].
  vm_compute. discriminate.
Qed.


(** C8.  The sample stored for an error with a message of 130 bytes holds
    all of them; the message cut to 120 bytes is a different string. *)
Lemma ObserveFailure_keeps_full_message :
  (λ obs, controller.Message <$> controller.Samples obs) <$>
    (controller.ObserveFailure "ns" "Transient" "Timeout" (Some examples.errLong)
       <$> controller.NewObservation 1 50)
  = Some [examples.longMessage] ∧
  String.length examples.longMessage = 130%nat ∧
  controller.truncate examples.longMessage controller.maxMsgLen ≠ examples.longMessage.
Proof.
  split; [vm_compute; reflexivity|]. split; [vm_compute; reflexivity|].
  vm_compute. discriminate.
Qed.

(** C9.  A call of [Set] with the empty type puts a condition of empty
    type into [Conditions]. *)
Lemma Conditions_empty_type :
  status.Type' <$>
    status.Conditions
      (status.applySets (status.NewConditionSet [] 1 0)
         [ {| status.condType := ""; status.status := "True";
              status.reason := "Ok"; status.message := "m" |} ])
  = [""].
Proof. vm_compute. reflexivity. Qed.

(** * Further properties of the code *)

(** ** Error classification *)

(** X1.  For every error that is not nil, [ClassifyError] returns one of
    eight (Kind, Reason) pairs, never an empty kind or reason; the reason
    does not depend on the not-found policy, and the kind depends on it
    only for the reason NotFound. *)
Theorem ClassifyError_range (e : errclass.error) (policy policy' : errclass.NotFoundPolicy) :
  errclass.ClassifyError (Some e) policy ∈
    [ (errclass.KindTransient, errclass.ReasonTimeout);
      (errclass.KindTerminal, errclass.ReasonOther);
      (errclass.KindConflict, errclass.ReasonConflict);
      (errclass.KindConfig, errclass.ReasonForbidden);
      (errclass.KindConfig, errclass.ReasonInvalid);
      (errclass.KindTransient, errclass.ReasonNotFound);
      (errclass.KindConfig, errclass.ReasonNotFound);
      (errclass.KindTransient, errclass.ReasonOther) ] ∧
  (errclass.ClassifyError (Some e) policy).2 = (errclass.ClassifyError (Some e) policy').2 ∧
  ((errclass.ClassifyError (Some e) policy).2 ≠ errclass.ReasonNotFound →
   errclass.ClassifyError (Some e) policy = errclass.ClassifyError (Some e) policy').
Proof.
  unfold errclass.ClassifyError.
  destruct (errclass.IsDeadlineExceeded e); [split; [set_solver|done]|].
  destruct (errclass.IsCanceled e); [split; [set_solver|done]|].
  destruct (errclass.IsConflict e); [split; [set_solver|done]|].
  destruct (errclass.IsAlreadyExists e); [split; [set_solver|done]|].
  destruct (errclass.IsForbidden e || errclass.IsUnauthorized e);
    [split; [set_solver|done]|].
  destruct (errclass.IsInvalid e); [split; [set_solver|done]|].
  destruct (errclass.IsNotFound e).
  { destruct policy, policy'; simpl; (split; [set_solver|done]). }
  destruct (errclass.IsTimeout e || errclass.IsServerTimeout e
            || errclass.IsTooManyRequests e); [split; [set_solver|done]|].
  destruct (errclass.IsInternalError e); [split; [set_solver|done]|].
  destruct (errclass.StatusCode e) as [code|]; [|split; [set_solver|done]].
  destruct (_ || _); (split; [set_solver|done]).
Qed.


(** ** Condition set *)

Lemma Set_stored (condType st reason message : string) (cs : status.ConditionSet) :
  ∃ c, status.conditions (status.Set' condType st reason message cs) !! condType = Some c ∧
       status.Status c = st ∧ status.Reason c = reason ∧ status.Message c = message ∧
       status.ObservedGeneration c = status.observedGeneration cs.
Proof.
  unfold status.Set'.
  destruct (status.conditions cs !! condType) as [prev|] eqn:Hprev.
  - simpl. destruct (String.eqb (status.Status prev) st);
      (destruct (status.isSame prev _) eqn:Hsame;
       [exists prev; split; [done|];
        apply isSame_spec in Hsame; simpl in Hsame; tauto
       |simpl; rewrite lookup_insert_eq; by eexists]).
  - simpl. rewrite lookup_insert_eq. by eexists.
Qed.

Lemma Set_fields (condType st reason message : string) (cs : status.ConditionSet) :
  status.original (status.Set' condType st reason message cs) = status.original cs ∧
  status.reconcileTime (status.Set' condType st reason message cs) = status.reconcileTime cs ∧
  status.observedGeneration (status.Set' condType st reason message cs)
    = status.observedGeneration cs.
Proof.
  unfold status.Set'.
  destruct (status.conditions cs !! condType) as [prev|]; [|done].
  by destruct (status.isSame prev _).
Qed.

Lemma Set_other (condType st reason message : string) (cs : status.ConditionSet)
    (other : string) :
  other ≠ condType →
  status.conditions (status.Set' condType st reason message cs) !! other
  = status.conditions cs !! other.
Proof.
  intros Hne. unfold status.Set'.
  destruct (status.conditions cs !! condType) as [prev|].
  - destruct (status.isSame prev _); [done|]. simpl. by rewrite lookup_insert_ne.
  - simpl. by rewrite lookup_insert_ne.
Qed.

(** X3.  After [Set(t, status, reason, message)] the live condition of type
    [t] carries that status, reason and message and the generation of the
    pass, and [IsConditionTrue(t)] tells whether the status is True; the
    conditions of all other types, the original snapshot, the reconcile
    time and the generation are as before. *)
Theorem Set_writes_its_type (condType st reason message : string)
    (cs : status.ConditionSet) :
  let cs' := status.Set' condType st reason message cs in
  (∃ c, status.conditions cs' !! condType = Some c ∧
        status.Status c = st ∧ status.Reason c = reason ∧
        status.Message c = message ∧
        status.ObservedGeneration c = status.observedGeneration cs) ∧
  status.IsConditionTrue condType cs' = String.eqb st status.ConditionTrue ∧
  (∀ other, other ≠ condType →
     status.conditions cs' !! other = status.conditions cs !! other ∧
     status.IsConditionTrue other cs' = status.IsConditionTrue other cs) ∧
  status.original cs' = status.original cs ∧
  status.reconcileTime cs' = status.reconcileTime cs ∧
  status.observedGeneration cs' = status.observedGeneration cs.
Proof.
  intros cs'. subst cs'.
  destruct (Set_stored condType st reason message cs) as (c & Hc & Hs & Hr & Hm & Hg).
  split; [by exists c|].
  split; [unfold status.IsConditionTrue; by rewrite Hc, Hs|].
  split; [|apply Set_fields].
  intros other Hne. pose proof (Set_other condType st reason message cs other Hne) as Ho.
  split; [done|]. unfold status.IsConditionTrue. by rewrite Ho.
Qed.

(** X4.  [Set] is idempotent: repeating a call with the same arguments
    changes nothing any more. *)
Theorem Set_idempotent (condType st reason message : string) (cs : status.ConditionSet) :
  status.Set' condType st reason message (status.Set' condType st reason message cs)
  = status.Set' condType st reason message cs.
Proof.
  destruct (Set_stored condType st reason message cs) as (c & Hc & Hs & Hr & Hm & Hg).
  destruct (Set_fields condType st reason message cs) as (_ & _ & Hgen).
  set (cs1 := status.Set' condType st reason message cs) in *.
  unfold status.Set' at 1. rewrite Hc. simpl.
  rewrite Hs, String.eqb_refl.
  assert (status.isSame c
            {| status.Type' := condType; status.Status := st;
               status.ObservedGeneration := status.observedGeneration cs1;
               status.LastTransitionTime := status.LastTransitionTime c;
               status.Reason := reason; status.Message := message |} = true) as ->;
    [|done].
  apply isSame_spec. simpl. by rewrite Hgen.
Qed.

Lemma Changed_false (cs : status.ConditionSet) :
  status.Changed cs = false ↔
  length (status.original cs) = size (status.conditions cs) ∧
  ∀ prev, prev ∈ status.original cs →
    ∃ next, status.conditions cs !! status.Type' prev = Some next ∧
            status.isSame prev next = true.
Proof.
  unfold status.Changed, builtin.len. rewrite <- changedFrom_false.
  destruct (Z.eqb_spec (Z.of_nat (length (status.original cs)))
              (Z.of_nat (size (status.conditions cs)))) as [Heq|Hne]; simpl.
  - split; [intros ?; split; [lia|done]|by intros [_ ?]].
  - split; [done|]. intros [? _]. lia.
Qed.

Lemma Set_size (condType st reason message : string) (cs : status.ConditionSet) :
  is_Some (status.conditions cs !! condType) →
  size (status.conditions (status.Set' condType st reason message cs))
  = size (status.conditions cs).
Proof.
  intros [prev Hprev]. unfold status.Set'. rewrite Hprev.
  destruct (status.isSame prev _); [done|]. simpl.
  by rewrite map_size_insert_Some.
Qed.

(** X5.  On a set just loaded from a list without repeated types, one call
    of [Set] leaves [Changed] false exactly when the list already holds a
    condition of that type with the same status, reason and message at the
    generation of the pass; any other call makes [Changed] true. *)
Theorem Changed_after_Set (conds : list status.Condition) (gen time : Z)
    (condType st reason message : string) :
  NoDup (status.Type' <$> conds) →
  status.Changed (status.Set' condType st reason message
                    (status.NewConditionSet conds gen time)) = false ↔
  ∃ prev, prev ∈ conds ∧ status.Type' prev = condType ∧
          status.Status prev = st ∧ status.Reason prev = reason ∧
          status.Message prev = message ∧ status.ObservedGeneration prev = gen.
Proof.
  intros Hnd. split.
  - intros Hch.
    destruct (Set_stored condType st reason message (status.NewConditionSet conds gen time))
      as (c & Hc & Hs & Hr & Hm & Hg).
    destruct (Set_fields condType st reason message (status.NewConditionSet conds gen time))
      as (Horig & _ & _).
    apply Changed_false in Hch as [Hlen Hall]. rewrite Horig in Hlen, Hall. simpl in *.
    destruct (status.byType conds !! condType) as [prev|] eqn:Hprev.
    + apply byType_lookup_Some in Hprev as [Hin Hty].
      exists prev. split; [done|]. split; [done|].
      destruct (Hall prev Hin) as (next & Hnext & Hsame).
      rewrite Hty, Hc in Hnext. injection Hnext as <-.
      apply isSame_spec in Hsame as (? & ? & ? & ?). repeat split; congruence.
    + exfalso. unfold status.Set' in Hlen. simpl in Hlen. rewrite Hprev in Hlen.
      simpl in Hlen. rewrite map_size_insert_None, byType_size_NoDup in Hlen by done.
      lia.
  - intros (prev & Hin & Hty & Hs & Hr & Hm & Hg).
    unfold status.Set'. rewrite conditions_NewConditionSet. subst condType.
    rewrite (byType_lookup_NoDup conds prev) by done. simpl.
    rewrite Hs, String.eqb_refl.
    assert (status.isSame prev
              {| status.Type' := status.Type' prev; status.Status := st;
                 status.ObservedGeneration := gen;
                 status.LastTransitionTime := status.LastTransitionTime prev;
                 status.Reason := reason; status.Message := message |} = true) as ->;
      [by apply isSame_spec|].
    by apply Changed_NewConditionSet.
Qed.

(** X6.  On a set just loaded from a list without repeated types, setting
    a loaded condition to other values and then back to its own status,
    reason and message leaves [Changed] false, although the transition
    time stored may have moved: the set counts as unchanged and nothing is
    persisted. *)
Theorem Changed_after_restore (conds : list status.Condition) (gen time : Z)
    (prev : status.Condition) (st reason message : string) :
  NoDup (status.Type' <$> conds) → prev ∈ conds →
  status.ObservedGeneration prev = gen →
  status.Changed
    (status.Set' (status.Type' prev) (status.Status prev) (status.Reason prev)
       (status.Message prev)
       (status.Set' (status.Type' prev) st reason message
          (status.NewConditionSet conds gen time))) = false.
Proof.
  intros Hnd Hin Hgen.
  set (cs0 := status.NewConditionSet conds gen time).
  set (cs1 := status.Set' (status.Type' prev) st reason message cs0).
  set (cs2 := status.Set' (status.Type' prev) (status.Status prev) (status.Reason prev)
                (status.Message prev) cs1).
  assert (H0 : status.conditions cs0 !! status.Type' prev = Some prev)
    by (by apply byType_lookup_NoDup).
  destruct (Set_fields (status.Type' prev) st reason message cs0) as (Ho1 & _ & Hg1).
  destruct (Set_fields (status.Type' prev) (status.Status prev) (status.Reason prev)
              (status.Message prev) cs1) as (Ho2 & _ & _).
  fold cs1 in Ho1, Hg1. fold cs2 in Ho2.
  destruct (Set_stored (status.Type' prev) st reason message cs0) as (c1 & Hc1 & _).
  fold cs1 in Hc1.
  destruct (Set_stored (status.Type' prev) (status.Status prev) (status.Reason prev)
              (status.Message prev) cs1) as (c2 & Hc2 & Hs & Hr & Hm & Hg).
  fold cs2 in Hc2.
  apply Changed_false. rewrite Ho2, Ho1. simpl. split.
  - unfold cs2. rewrite Set_size by (by eexists).
    unfold cs1. rewrite Set_size by (by eexists).
    unfold cs0. by rewrite conditions_NewConditionSet, byType_size_NoDup.
  - intros p Hp. destruct (decide (status.Type' p = status.Type' prev)) as [Heq|Hne].
    + assert (p = prev) as -> by (by eapply (NoDup_fmap_elem_inj status.Type' conds)).
      exists c2. split; [done|]. apply isSame_spec. rewrite Hs, Hr, Hm, Hg, Hg1. done.
    + exists p. split; [|apply isSame_refl].
      unfold cs2, cs1. rewrite !Set_other by done. by apply byType_lookup_NoDup.
Qed.

(** X7.  Loading a list without repeated types and listing the set returns
    the same conditions, rearranged in ascending order of type; with
    repeated types every condition returned is still one of the list. *)
Theorem Conditions_NewConditionSet (conds : list status.Condition) (gen time : Z) :
  (∀ c, c ∈ status.Conditions (status.NewConditionSet conds gen time) → c ∈ conds) ∧
  (NoDup (status.Type' <$> conds) →
     status.Conditions (status.NewConditionSet conds gen time) ≡ₚ conds).
Proof.
  assert (Hk : inv.keyed (status.conditions (status.NewConditionSet conds gen time)))
    by apply keyed_NewConditionSet.
  split.
  - intros c Hc. apply elem_of_Conditions in Hc; [|done].
    by apply byType_lookup_Some in Hc as [? _].
  - intros Hnd. apply NoDup_Permutation.
    + apply (NoDup_fmap_1 status.Type').
      unfold status.Conditions, status.conditionsOf.
      rewrite Slice_Permutation. by apply keyed_values_NoDup.
    + by apply (NoDup_fmap_1 status.Type').
    + intros c. rewrite elem_of_Conditions by done. split.
      * intros Hc. by apply byType_lookup_Some in Hc as [? _].
      * intros Hc. by apply byType_lookup_NoDup.
Qed.

(** ** Log rate limiter *)

Lemma Allow_answer (choose : logging.chooser) (fp : string) (now interval : Z)
    (l : logging.Limiter) :
  0 <= logging.size l →
  fst <$> logging.Allow choose fp now interval l = Some (aux.answer l fp now interval).
Proof.
  intros Hsize. unfold aux.answer.
  destruct (Z.leb_spec interval 0) as [Hi|Hi]; simpl.
  { by rewrite Allow_disabled. }
  destruct (logging.entries l !! fp) as [n|] eqn:Hfp.
  - destruct (Z.ltb_spec now n) as [Hnow|Hnow]; simpl.
    + by rewrite (Allow_blocked _ _ _ _ _ n).
    + destruct (Allow_granted choose fp now interval l) as (l' & -> & _); try done.
      intros n' Hn'. rewrite Hfp in Hn'. by simplify_eq.
  - destruct (Allow_granted choose fp now interval l) as (l' & -> & _); try done.
    intros n' Hn'. by rewrite Hfp in Hn'.
Qed.

(** X8.  A call of [Allow] for one fingerprint never changes the
    next-allowed instant of another: whatever the table holds afterwards
    for another fingerprint is what it held before, and an entry of
    another fingerprint can only disappear, and only in a call that
    prunes. *)
Theorem Allow_touches_own_entry (choose : logging.chooser) (fp : string)
    (now interval : Z) (l : logging.Limiter) (b : bool) (l' : logging.Limiter) :
  0 <= logging.size l →
  logging.Allow choose fp now interval l = Some (b, l') →
  logging.size l' = logging.size l ∧
  (∀ fp' n, logging.entries l' !! fp' = Some n →
     (fp' = fp ∧ n = now + interval ∧ b = true) ∨ logging.entries l !! fp' = Some n) ∧
  (∀ fp' n, fp' ≠ fp → logging.entries l !! fp' = Some n →
     logging.entries l' !! fp' = Some n ∨
     (logging.entries l' !! fp' = None ∧
      inv.prunes l {| logging.choose := choose; logging.fingerprint := fp;
                      logging.now := now; logging.interval := interval |} = true)).
Proof.
  intros Hsize Hallow.
  set (c := {| logging.choose := choose; logging.fingerprint := fp;
               logging.now := now; logging.interval := interval |}).
  destruct (step_cases l c Hsize) as (b0 & l0 & Hstep & Hsz & Hquiet & Hprune).
  unfold logging.step in Hstep. simpl in Hstep.
  assert (b0 = b) as -> by congruence. assert (l0 = l') as -> by congruence.
  simpl in *. split; [done|].
  assert (Hfrom : ∀ fp' n, logging.entries l' !! fp' = Some n →
            (fp' = fp ∧ n = now + interval ∧ b = true) ∨
            logging.entries l !! fp' = Some n).
  { intros fp' n Hn. destruct (inv.prunes l c) eqn:Hp.
    - destruct (Hprune eq_refl) as (-> & _ & _ & Hsub & _).
      eapply lookup_weaken in Hn; [|exact Hsub].
      apply dropExpired_lookup in Hn as [Hn _].
      rewrite lookup_insert in Hn. case_decide; simplify_eq; auto.
    - destruct (Hquiet eq_refl) as [->|(-> & _ & Hent & _)]; [by right|].
      rewrite Hent, lookup_insert in Hn. case_decide; simplify_eq; auto. }
  split; [done|].
  intros fp' n Hne Hn. destruct (inv.prunes l c) eqn:Hp.
  - destruct (logging.entries l' !! fp') as [n'|] eqn:Hn'; [|by right].
    left. destruct (Hfrom fp' n' Hn') as [(? & _)|Hold]; [done|]. congruence.
  - left. destruct (Hquiet eq_refl) as [->|(_ & _ & Hent & _)]; [done|].
    by rewrite Hent, lookup_insert_ne.
Qed.

(** X9.  The answer of [Allow] is read off the table: true exactly when
    the interval is not positive, the fingerprint has no entry, or its
    next-allowed instant is not after [now].  Hence dropping the entries
    that have expired by some instant, as [prune] does, changes no answer
    given at that instant or later. *)
Theorem Allow_answer_expired (choose choose' : logging.chooser) (fp : string)
    (now t interval : Z) (l : logging.Limiter) :
  0 <= logging.size l → now <= t →
  fst <$> logging.Allow choose fp t interval l
  = Some ((interval <=? 0) ||
          match logging.entries l !! fp with
          | Some nextAllowed => negb (t <? nextAllowed)
          | None => true
          end) ∧
  fst <$> logging.Allow choose' fp t interval
            {| logging.size := logging.size l;
               logging.entries := logging.dropExpired now (logging.entries l) |}
  = fst <$> logging.Allow choose fp t interval l.
Proof.
  intros Hsize Hnow. split; [by apply Allow_answer|].
  rewrite !Allow_answer by done. f_equal. unfold aux.answer; simpl.
  destruct (interval <=? 0); [done|]. simpl.
  destruct (logging.entries l !! fp) as [n|] eqn:Hfp.
  - destruct (decide (now < n)) as [Hlt|Hge].
    + assert (logging.dropExpired now (logging.entries l) !! fp = Some n) as ->;
        [by apply dropExpired_lookup|done].
    + assert (logging.dropExpired now (logging.entries l) !! fp = None) as ->.
      { apply eq_None_not_Some. intros [n' Hn'].
        apply dropExpired_lookup in Hn' as [Hn' ?]. rewrite Hfp in Hn'. simplify_eq. lia. }
      by destruct (Z.ltb_spec t n); [lia|].
  - assert (logging.dropExpired now (logging.entries l) !! fp = None) as ->; [|done].
    apply eq_None_not_Some. intros [n' Hn'].
    apply dropExpired_lookup in Hn' as [Hn' ?]. by rewrite Hfp in Hn'.
Qed.

(** ** Fanout observation *)

Lemma bump_comm (r1 r2 : string) (m : gmap string Z) :
  controller.bump r1 (controller.bump r2 m) = controller.bump r2 (controller.bump r1 m).
Proof.
  destruct (decide (r1 = r2)) as [->|Hne]; [done|].
  unfold controller.bump.
  rewrite !lookup_insert_ne by done. by apply insert_insert_ne.
Qed.

Lemma sameCounts_refl (o : controller.Observation) : aux.sameCounts o o.
Proof. by repeat split. Qed.

Lemma sameCounts_trans (o1 o2 o3 : controller.Observation) :
  aux.sameCounts o1 o2 → aux.sameCounts o2 o3 → aux.sameCounts o1 o3.
Proof.
  intros (?&?&?&?&?&?&?&?) (?&?&?&?&?&?&?&?). repeat split; congruence.
Qed.

Lemma observe_sameCounts (o1 o2 : controller.Observation) (op : controller.Op) :
  aux.sameCounts o1 o2 →
  aux.sameCounts (controller.observe o1 op) (controller.observe o2 op).
Proof.
  intros (Hr & Hm & Hs & Hf & Ht & Htr & Hpe & Hlen).
  destruct op as [|namespace kind reason err]; simpl.
  { repeat split; simpl; congruence. }
  repeat split; simpl; try congruence; try (by rewrite Htr); try (by rewrite Hpe).
  rewrite Hlen, Hm.
  destruct (Z.of_nat (length (controller.Samples o2)) <? controller.MaxSample o2);
    [|done].
  rewrite !length_app. simpl. lia.
Qed.

Lemma observe_swap (o : controller.Observation) (a b : controller.Op) :
  aux.sameCounts (controller.observe (controller.observe o a) b)
                 (controller.observe (controller.observe o b) a).
Proof.
  destruct a as [|nsa ka ra ea], b as [|nsb kb rb eb]; simpl;
    try apply sameCounts_refl.
  repeat split; simpl.
  - apply bump_comm.
  - repeat case_match; done.
  - repeat case_match; done.
  - destruct (Z.of_nat (length (controller.Samples o)) <? controller.MaxSample o)
      eqn:Hfirst; [|by rewrite Hfirst].
    rewrite !length_app. simpl.
    destruct (Z.of_nat (length (controller.Samples o) + 1) <? controller.MaxSample o);
      [|by rewrite !length_app].
    by rewrite !length_app.
Qed.

Lemma observeAll_sameCounts (ops : list controller.Op) (o1 o2 : controller.Observation) :
  aux.sameCounts o1 o2 →
  aux.sameCounts (controller.observeAll o1 ops) (controller.observeAll o2 ops).
Proof.
  revert o1 o2. induction ops as [|op ops IH]; intros o1 o2 Hs; [done|].
  simpl. by apply IH, observe_sameCounts.
Qed.

Lemma observeAll_Permutation (ops ops' : list controller.Op) (o : controller.Observation) :
  ops ≡ₚ ops' →
  aux.sameCounts (controller.observeAll o ops) (controller.observeAll o ops').
Proof.
  intros Hperm. revert o.
  induction Hperm as [|x l l' _ IH|x y l|l1 l2 l3 _ IH1 _ IH2]; intros o.
  - apply sameCounts_refl.
  - simpl. apply IH.
  - simpl. apply observeAll_sameCounts, observe_swap.
  - eapply sameCounts_trans; [apply IH1|apply IH2].
Qed.

Lemma Decide_sameCounts (p : controller.Policy) (o1 o2 : controller.Observation) :
  aux.sameCounts o1 o2 → controller.Decide p o1 = controller.Decide p o2.
Proof.
  intros (Hr & Hm & Hs & Hf & Ht & Htr & Hpe & Hlen).
  unfold controller.Decide, controller.PrimaryReason. by rewrite Hr, Hs, Ht, Htr.
Qed.

(** X10.  The order in which the targets are observed does not matter to
    the outcome: two runs over the same observations in different orders
    end with the same counters, histogram, flags and number of samples,
    and [Decide] returns the same decision for both. *)
Theorem Decide_order_irrelevant (p : controller.Policy) (obs : controller.Observation)
    (ops ops' : list controller.Op) :
  ops ≡ₚ ops' →
  aux.sameCounts (controller.observeAll obs ops) (controller.observeAll obs ops') ∧
  controller.Decide p (controller.observeAll obs ops)
  = controller.Decide p (controller.observeAll obs ops').
Proof.
  intros Hperm. split; [by apply observeAll_Permutation|].
  by apply Decide_sameCounts, observeAll_Permutation.
Qed.

Lemma sumCounts_insert (m : gmap string Z) (k : string) (v : Z) :
  aux.sumCounts (<[k := v]> m) = aux.sumCounts m - default 0 (m !! k) + v.
Proof.
  unfold aux.sumCounts.
  destruct (m !! k) as [old|] eqn:Hk; simpl.
  - rewrite <- insert_delete_eq.
    rewrite map_fold_insert_L; [|intros; lia|apply lookup_delete_eq].
    rewrite (map_fold_delete_L _ _ k old m); [lia|intros; lia|done].
  - rewrite map_fold_insert_L; [lia|intros; lia|done].
Qed.

Lemma failures_snoc (ops : list controller.Op) (op : controller.Op) :
  aux.failures (ops ++ [op])
  = (aux.failures ops + if aux.opFailed op then 1 else 0)%nat.
Proof.
  unfold aux.failures. rewrite List.filter_app, length_app. simpl.
  by destruct (aux.opFailed op).
Qed.

Lemma failuresWith_snoc (r : string) (ops : list controller.Op) (op : controller.Op) :
  aux.failuresWith r (ops ++ [op])
  = (aux.failuresWith r ops
     + if aux.opFailed op && String.eqb (aux.opReason op) r then 1 else 0)%nat.
Proof.
  unfold aux.failuresWith. rewrite List.filter_app, length_app. simpl.
  by destruct (aux.opFailed op && _).
Qed.

Lemma failures_le (ops : list controller.Op) : (aux.failures ops <= length ops)%nat.
Proof. apply List.filter_length_le. Qed.

Lemma failuresWith_le (r : string) (ops : list controller.Op) :
  (aux.failuresWith r ops <= aux.failures ops)%nat.
Proof.
  unfold aux.failuresWith, aux.failures.
  induction ops as [|op ops IH]; simpl; [done|].
  destruct (aux.opFailed op); simpl; [|done].
  destruct (String.eqb (aux.opReason op) r); simpl; lia.
Qed.

(** What a run of observations from a fresh observation adds up to. *)
Lemma observeAll_summary (total maxSample : Z) (obs0 : controller.Observation)
    (ops : list controller.Op) :
  controller.NewObservation total maxSample = Some obs0 →
  Z.of_nat (length ops) <= GoInt.maxInt →
  let obs := controller.observeAll obs0 ops in
  controller.Total obs = total ∧
  controller.MaxSample obs = maxSample ∧
  0 <= maxSample ∧
  controller.Failed obs = Z.of_nat (aux.failures ops) ∧
  controller.Success obs = Z.of_nat (length ops) - Z.of_nat (aux.failures ops) ∧
  Z.of_nat (length (controller.Samples obs))
    = Z.min (Z.of_nat (aux.failures ops)) maxSample ∧
  (∀ r, default 0 (controller.Reasons obs !! r) = Z.of_nat (aux.failuresWith r ops)) ∧
  (∀ r c, controller.Reasons obs !! r = Some c → 0 < c) ∧
  aux.sumCounts (controller.Reasons obs) = Z.of_nat (aux.failures ops) ∧
  controller.HasTransient obs
    = existsb (λ op, aux.opFailed op && aux.transientKind (aux.opKind op)) ops ∧
  controller.HasPermanent obs
    = existsb (λ op, aux.opFailed op && aux.permanentKind (aux.opKind op)) ops.
Proof.
  intros Hnew. unfold controller.NewObservation, controller.minSample in Hnew.
  destruct (Z.ltb_spec (Z.min 8 maxSample) 0) as [|Hmax]; [done|].
  injection Hnew as <-.
  cbv zeta.
  induction ops as [|op ops IH] using rev_ind; intros Hlen.
  { simpl. unfold aux.sumCounts. rewrite map_fold_empty.
    repeat split; try done; try (unfold aux.failures; simpl; lia). }
  rewrite length_app in Hlen. simpl in Hlen.
  destruct IH as (Ht & Hm & _ & Hf & Hs & Hsm & Hr & Hpos & Hsum & Htr & Hpe); [lia|].
  unfold controller.observeAll in *. rewrite foldl_app. simpl.
  set (prev := foldl controller.observe _ ops) in *.
  pose proof (failures_le ops) as Hfl.
  rewrite length_app, failures_snoc, !existsb_app. simpl.
  unfold GoInt.maxInt in Hlen.
  destruct op as [|namespace kind reason err]; simpl.
  - rewrite Nat.add_0_r, !orb_false_r.
    repeat split; try done; try lia.
    + rewrite incr_in_range; [lia|unfold GoInt.minInt, GoInt.maxInt; lia].
    + intros r. rewrite failuresWith_snoc. simpl. rewrite Nat.add_0_r. apply Hr.
  - assert (Hin : ∀ r, GoInt.incr (Z.of_nat (aux.failuresWith r ops))
                       = Z.of_nat (aux.failuresWith r ops) + 1).
    { intros r. pose proof (failuresWith_le r ops).
      apply incr_in_range. unfold GoInt.minInt, GoInt.maxInt. lia. }
    repeat split; try done; try lia.
    + rewrite incr_in_range; [lia|unfold GoInt.minInt, GoInt.maxInt; lia].
    + rewrite Hm.
      destruct (Z.ltb_spec (Z.of_nat (length (controller.Samples prev))) maxSample).
      * rewrite length_app. simpl. lia.
      * lia.
    + intros r. rewrite failuresWith_snoc. simpl. unfold controller.bump.
      rewrite lookup_insert. case_decide as Heq.
      * subst r. simpl. rewrite String.eqb_refl, Hr, Hin. lia.
      * assert (String.eqb reason r = false) as -> by (by apply String.eqb_neq).
        rewrite Nat.add_0_r. apply Hr.
    + intros r c. unfold controller.bump. rewrite lookup_insert. case_decide as Heq.
      * intros [= <-]. rewrite Hr, Hin. lia.
      * apply Hpos.
    + unfold controller.bump. rewrite sumCounts_insert, Hsum, !Hr, Hin. lia.
    + rewrite Htr. unfold aux.transientKind.
      destruct (String.eqb kind errclass.KindTransient || _); simpl;
        [by rewrite orb_true_r|by rewrite orb_false_r].
    + rewrite Hpe. unfold aux.permanentKind.
      destruct (String.eqb kind errclass.KindTerminal || _); simpl;
        [by rewrite orb_true_r|by rewrite orb_false_r].
Qed.

(** X11.  After any run of observations on a fresh observation (of at most
    [maxInt] operations, as a Go slice has), [Failed] is the number of
    failures observed, [Success] the number of successes, so that they add
    up to the number of operations; [Total] and [MaxSample] are as given
    to [NewObservation]; and the samples held are as many as the failures,
    up to [MaxSample]. *)
Theorem Observation_counters (total maxSample : Z) (obs0 : controller.Observation)
    (ops : list controller.Op) :
  controller.NewObservation total maxSample = Some obs0 →
  Z.of_nat (length ops) <= GoInt.maxInt →
  let obs := controller.observeAll obs0 ops in
  controller.Total obs = total ∧
  controller.MaxSample obs = maxSample ∧
  controller.Failed obs = Z.of_nat (length (List.filter aux.opFailed ops)) ∧
  controller.Success obs
    = Z.of_nat (length (List.filter (λ op, negb (aux.opFailed op)) ops)) ∧
  controller.Success obs + controller.Failed obs = Z.of_nat (length ops) ∧
  Z.of_nat (length (controller.Samples obs)) = Z.min (controller.Failed obs) maxSample.
Proof.
  intros Hnew Hlen obs.
  destruct (observeAll_summary total maxSample obs0 ops Hnew Hlen)
    as (Ht & Hm & _ & Hf & Hs & Hsm & _).
  fold obs in Ht, Hm, Hf, Hs, Hsm. unfold aux.failures in *.
  assert (Hsplit : (length (List.filter aux.opFailed ops)
                    + length (List.filter (λ op, negb (aux.opFailed op)) ops)
                    = length ops)%nat).
  { clear. induction ops as [|op ops IH]; simpl; [done|].
    destruct (aux.opFailed op); simpl; lia. }
  repeat split; try done; lia.
Qed.

(** X12.  After any run of observations on a fresh observation, the
    histogram [Reasons] holds for each reason exactly the number of
    failures observed with it, reasons never observed have no entry, and
    the counts add up to [Failed]. *)
Theorem Observation_histogram (total maxSample : Z) (obs0 : controller.Observation)
    (ops : list controller.Op) :
  controller.NewObservation total maxSample = Some obs0 →
  Z.of_nat (length ops) <= GoInt.maxInt →
  let obs := controller.observeAll obs0 ops in
  (∀ r, controller.Reasons obs !! r
        = let n := length (List.filter
                             (λ op, aux.opFailed op && String.eqb (aux.opReason op) r)
                             ops) in
          if (n =? 0)%nat then None else Some (Z.of_nat n)) ∧
  aux.sumCounts (controller.Reasons obs) = controller.Failed obs.
Proof.
  intros Hnew Hlen obs.
  destruct (observeAll_summary total maxSample obs0 ops Hnew Hlen)
    as (_ & _ & _ & Hf & _ & _ & Hr & Hpos & Hsum & _).
  fold obs in Hf, Hr, Hpos, Hsum. split; [|congruence].
  intros r. specialize (Hr r). specialize (Hpos r). unfold aux.failuresWith in Hr.
  cbv zeta. destruct (Nat.eqb_spec (length (List.filter
    (λ op, aux.opFailed op && String.eqb (aux.opReason op) r) ops)) 0) as [Hz|Hnz].
  - rewrite Hz in Hr. destruct (controller.Reasons obs !! r) as [c|]; [|done].
    specialize (Hpos c eq_refl). simpl in Hr. lia.
  - destruct (controller.Reasons obs !! r) as [c|]; simpl in Hr; [by rewrite Hr|lia].
Qed.

(** X13.  After any run of observations on a fresh observation,
    [HasTransient] holds exactly when some failure had the kind Transient
    or Conflict, and [HasPermanent] exactly when some failure had the kind
    Terminal or Config; successes do not touch the flags. *)
Theorem Observation_flags (total maxSample : Z) (obs0 : controller.Observation)
    (ops : list controller.Op) :
  controller.NewObservation total maxSample = Some obs0 →
  Z.of_nat (length ops) <= GoInt.maxInt →
  let obs := controller.observeAll obs0 ops in
  (controller.HasTransient obs = true ↔
     ∃ namespace kind reason err,
       controller.OpFailure namespace kind reason err ∈ ops ∧
       (kind = errclass.KindTransient ∨ kind = errclass.KindConflict)) ∧
  (controller.HasPermanent obs = true ↔
     ∃ namespace kind reason err,
       controller.OpFailure namespace kind reason err ∈ ops ∧
       (kind = errclass.KindTerminal ∨ kind = errclass.KindConfig)).
Proof.
  intros Hnew Hlen obs.
  destruct (observeAll_summary total maxSample obs0 ops Hnew Hlen)
    as (_ & _ & _ & _ & _ & _ & _ & _ & _ & Htr & Hpe).
  fold obs in Htr, Hpe. rewrite Htr, Hpe, !existsb_exists. split; split.
  - intros (op & Hin & Hop). apply list_elem_of_In in Hin.
    destruct op as [|namespace kind reason err]; [done|]. simpl in Hop.
    exists namespace, kind, reason, err. split; [done|].
    unfold aux.transientKind in Hop. apply orb_true_iff in Hop.
    by rewrite !String.eqb_eq in Hop.
  - intros (namespace & kind & reason & err & Hin & Hk).
    eexists. split; [apply list_elem_of_In; exact Hin|]. simpl.
    unfold aux.transientKind. apply orb_true_iff. by rewrite !String.eqb_eq.
  - intros (op & Hin & Hop). apply list_elem_of_In in Hin.
    destruct op as [|namespace kind reason err]; [done|]. simpl in Hop.
    exists namespace, kind, reason, err. split; [done|].
    unfold aux.permanentKind in Hop. apply orb_true_iff in Hop.
    by rewrite !String.eqb_eq in Hop.
  - intros (namespace & kind & reason & err & Hin & Hk).
    eexists. split; [apply list_elem_of_In; exact Hin|]. simpl.
    unfold aux.permanentKind. apply orb_true_iff. by rewrite !String.eqb_eq.
Qed.

(** ** The fanout pass *)

Lemma ClassifyError_known (e : errclass.error) (policy : errclass.NotFoundPolicy) :
  (errclass.ClassifyError (Some e) policy).2 ∈ errclass.AllReasons ∧
  aux.transientKind (errclass.ClassifyError (Some e) policy).1
  || aux.permanentKind (errclass.ClassifyError (Some e) policy).1 = true.
Proof.
  unfold errclass.ClassifyError, errclass.AllReasons.
  destruct (errclass.IsDeadlineExceeded e); [split; [set_solver|done]|].
  destruct (errclass.IsCanceled e); [split; [set_solver|done]|].
  destruct (errclass.IsConflict e); [split; [set_solver|done]|].
  destruct (errclass.IsAlreadyExists e); [split; [set_solver|done]|].
  destruct (errclass.IsForbidden e || errclass.IsUnauthorized e);
    [split; [set_solver|done]|].
  destruct (errclass.IsInvalid e); [split; [set_solver|done]|].
  destruct (errclass.IsNotFound e); [destruct policy; (split; [set_solver|done])|].
  destruct (errclass.IsTimeout e || errclass.IsServerTimeout e
            || errclass.IsTooManyRequests e); [split; [set_solver|done]|].
  destruct (errclass.IsInternalError e); [split; [set_solver|done]|].
  destruct (errclass.StatusCode e) as [code|]; [|split; [set_solver|done]].
  destruct (_ || _); (split; [set_solver|done]).
Qed.

Lemma toResultReason_known (r : string) :
  r ∈ errclass.AllReasons → controller.mapErrReasonToResultReason r ≠ result.ReasonUnknown.
Proof.
  unfold errclass.AllReasons. rewrite !elem_of_cons, elem_of_nil.
  intros [->|[->|[->|[->|[->|[->|[]]]]]]]; by vm_compute.
Qed.

Lemma visit_observe (obs : controller.Observation) (a : fanout.Attempt) :
  fanout.visit obs a = controller.observe obs (aux.opOf a).
Proof. unfold fanout.visit, aux.opOf. by destruct (fanout.reconcileNamespace a). Qed.

Lemma reconcileIdentity_observeAll (targets : list fanout.Attempt) :
  fanout.reconcileIdentity targets
  = (λ obs0, controller.observeAll obs0 (aux.opOf <$> targets))
      <$> controller.NewObservation (Z.of_nat (length targets)) fanout.maxSample.
Proof.
  unfold fanout.reconcileIdentity.
  destruct (controller.NewObservation _ _) as [obs0|]; [|done]. simpl. f_equal.
  unfold controller.observeAll. revert obs0.
  induction targets as [|a targets IH]; intros obs0; [done|].
  simpl. rewrite visit_observe. apply IH.
Qed.

Lemma opFailed_opOf (a : fanout.Attempt) : aux.opFailed (aux.opOf a) = aux.failed a.
Proof. unfold aux.opOf, aux.failed. by destruct (fanout.reconcileNamespace a). Qed.

Lemma opKind_opOf (a : fanout.Attempt) :
  aux.failed a = true → aux.opKind (aux.opOf a) = aux.kindOf a.
Proof.
  unfold aux.opOf, aux.failed, aux.kindOf.
  by destruct (fanout.reconcileNamespace a).
Qed.

Lemma opReason_opOf (a : fanout.Attempt) :
  aux.failed a = true → aux.opReason (aux.opOf a) ∈ errclass.AllReasons.
Proof.
  unfold aux.opOf, aux.failed.
  destruct (fanout.reconcileNamespace a) as [e|]; [|done]. intros _.
  apply (ClassifyError_known e errclass.NotFoundAsTransient).
Qed.

Lemma kindOf_flagged (a : fanout.Attempt) :
  aux.failed a = true →
  aux.transientKind (aux.kindOf a) || aux.permanentKind (aux.kindOf a) = true.
Proof.
  unfold aux.failed, aux.kindOf.
  destruct (fanout.reconcileNamespace a) as [e|]; [|done]. intros _.
  apply (ClassifyError_known e errclass.NotFoundAsTransient).
Qed.

Lemma failures_opOf (targets : list fanout.Attempt) :
  aux.failures (aux.opOf <$> targets) = length (List.filter aux.failed targets).
Proof.
  unfold aux.failures. induction targets as [|a targets IH]; [done|].
  rewrite fmap_cons. simpl. rewrite opFailed_opOf.
  destruct (aux.failed a); simpl; by rewrite IH.
Qed.

Lemma filter_length_0 {A : Type} (f : A → bool) (l : list A) :
  length (List.filter f l) = 0%nat ↔ forallb (λ x, negb (f x)) l = true.
Proof.
  induction l as [|x l IH]; simpl; [done|].
  destruct (f x); simpl; [split; [lia|done]|done].
Qed.

Lemma filter_length_all {A : Type} (f : A → bool) (l : list A) :
  length (List.filter f l) = length l ↔ forallb f l = true.
Proof.
  induction l as [|x l IH]; simpl; [done|].
  pose proof (List.filter_length_le f l).
  destruct (f x); simpl; [rewrite <- IH; lia|split; [lia|done]].
Qed.

Lemma failuresWith_pos (r : string) (ops : list controller.Op) :
  (0 < aux.failuresWith r ops)%nat ↔
  ∃ op, op ∈ ops ∧ aux.opFailed op = true ∧ aux.opReason op = r.
Proof.
  unfold aux.failuresWith. induction ops as [|op ops IH]; simpl.
  { split; [lia|]. intros (op & Hin & _). by apply elem_of_nil in Hin. }
  destruct (aux.opFailed op && String.eqb (aux.opReason op) r) eqn:Hop; simpl.
  - split; [|lia]. intros _. apply andb_true_iff in Hop as [Hf Hr].
    apply String.eqb_eq in Hr. exists op. split; [left|done].
  - rewrite IH. split.
    + intros (op' & Hin & Hf & Hr). exists op'. split; [by right|done].
    + intros (op' & Hin & Hf & Hr). apply elem_of_cons in Hin as [->|Hin].
      * rewrite Hf, Hr, String.eqb_refl in Hop. done.
      * by exists op'.
Qed.

Lemma existsb_opOf (targets : list fanout.Attempt) :
  existsb (λ op, aux.opFailed op && aux.transientKind (aux.opKind op)) (aux.opOf <$> targets)
  = existsb (λ a, aux.failed a && aux.transientKind (aux.kindOf a)) targets.
Proof.
  induction targets as [|a targets IH]; [done|].
  rewrite fmap_cons. simpl. rewrite IH, opFailed_opOf. f_equal.
  destruct (aux.failed a) eqn:Hf; [|done]. simpl. by rewrite opKind_opOf.
Qed.

(** X14.  A fanout pass over the target namespaces (at most [maxInt] of
    them) returns an observation whose [Total] is their number and whose
    [Success] and [Failed] add up to it, [Failed] being the number of
    targets whose sync returned an error.  The decision of the default
    policy on it is Success exactly when no target failed and Failed
    exactly when there are targets and all of them failed; its reason is
    Unknown exactly when no target failed; it asks for no requeue when no
    target failed, for one after 2 minutes when some failure is of kind
    Transient or Conflict, and after 10 minutes otherwise; and [Result]
    turns it into that requeue without an error. *)
Theorem reconcileIdentity_decision (targets : list fanout.Attempt) :
  Z.of_nat (length targets) <= GoInt.maxInt →
  ∃ obs,
    fanout.reconcileIdentity targets = Some obs ∧
    controller.Total obs = Z.of_nat (length targets) ∧
    controller.Failed obs = Z.of_nat (length (List.filter aux.failed targets)) ∧
    controller.Success obs + controller.Failed obs = controller.Total obs ∧
    let d := controller.Decide controller.DefaultPolicy obs in
    let allSynced := forallb (λ a, negb (aux.failed a)) targets in
    (result.Outcome_ d = result.OutcomeSuccess ↔ allSynced = true) ∧
    (result.Outcome_ d = result.OutcomeFailed ↔
       targets ≠ [] ∧ forallb aux.failed targets = true) ∧
    (result.Reason_ d = result.ReasonUnknown ↔ allSynced = true) ∧
    result.RequeueAfter d
      = (if allSynced then 0
         else if existsb (λ a, aux.failed a && aux.transientKind (aux.kindOf a)) targets
              then 2 * controller.Minute
              else 10 * controller.Minute) ∧
    decision.Result d
      = ({| decision.RequeueAfter := result.RequeueAfter d |}, None).
Proof.
  intros Hlen.
  set (ops := aux.opOf <$> targets).
  destruct (controller.NewObservation (Z.of_nat (length targets)) fanout.maxSample)
    as [obs0|] eqn:Hnew; [|done].
  assert (Hrun : fanout.reconcileIdentity targets = Some (controller.observeAll obs0 ops))
    by (by rewrite reconcileIdentity_observeAll, Hnew).
  exists (controller.observeAll obs0 ops). split; [done|].
  destruct (observeAll_summary _ _ obs0 ops Hnew)
    as (Ht & _ & _ & Hf & Hs & _ & Hr & Hpos & _ & Htr & _).
  { unfold ops. by rewrite length_fmap. }
  unfold ops in Hf, Hs, Htr. rewrite failures_opOf in Hf, Hs.
  rewrite length_fmap in Hs. rewrite existsb_opOf in Htr. fold ops in Hf, Hs, Htr.
  set (obs := controller.observeAll obs0 ops) in *.
  pose proof (List.filter_length_le aux.failed targets) as Hle.
  set (nf := length (List.filter aux.failed targets)) in *.
  split; [done|]. split; [done|]. split; [lia|].
  intros d allSynced.
  pose proof (Decide_outcome_cases controller.DefaultPolicy obs) as Hout. fold d in Hout.
  assert (Hsynced : allSynced = true ↔ nf = 0%nat)
    by (symmetry; apply filter_length_0).
  assert (Hsuccess : result.Outcome_ d = result.OutcomeSuccess ↔ allSynced = true).
  { rewrite Hsynced, Hout. repeat case_decide; split; try done; lia. }
  split; [done|].
  split.
  { rewrite <- filter_length_all. fold nf. rewrite Hout.
    assert (targets ≠ [] ↔ length targets ≠ 0%nat) as ->
      by (by destruct targets).
    repeat case_decide; split; try done; try lia; intros [? ?]; lia. }
  assert (Hreason : result.Reason_ d = result.ReasonUnknown ↔ allSynced = true).
  { change (result.Reason_ d) with (controller.PrimaryReason obs). split.
    - intros Hunknown. apply Hsynced.
      destruct (decide (nf = 0%nat)) as [|Hnz]; [done|exfalso].
      assert (∃ a, a ∈ targets ∧ aux.failed a = true) as (a & Hin & Hfa).
      { unfold nf in Hnz. destruct (List.filter aux.failed targets) as [|a l] eqn:Hfl;
          [done|].
        assert (Ha : In a (List.filter aux.failed targets)) by (rewrite Hfl; by left).
        apply List.filter_In in Ha as [Ha ?]. exists a. by rewrite list_elem_of_In. }
      assert (Hfw : (0 < aux.failuresWith (aux.opReason (aux.opOf a)) ops)%nat).
      { apply failuresWith_pos. exists (aux.opOf a).
        split; [by apply list_elem_of_fmap_2|]. by rewrite opFailed_opOf. }
      pose proof (Hr (aux.opReason (aux.opOf a))) as Hra.
      destruct (controller.Reasons obs !! aux.opReason (aux.opOf a)) as [c|] eqn:Hc;
        simpl in Hra; [|lia].
      destruct (PrimaryReason_top obs _ c Hc) as (top & rest & _ & Htop & Hnz' & _ & Hp);
        [lia|].
      assert (Hrt : Z.of_nat (aux.failuresWith (controller.rcReason top) ops)
                    = controller.Count top)
        by exact (eq_trans (eq_sym (Hr _)) (f_equal (default 0) Htop)).
      assert (Hfw' : (0 < aux.failuresWith (controller.rcReason top) ops)%nat).
      { specialize (Hpos _ _ Htop). lia. }
      apply failuresWith_pos in Hfw' as (op & Hop & Hfo & Hro).
      apply list_elem_of_fmap in Hop as (a' & -> & _).
      rewrite opFailed_opOf in Hfo.
      apply (toResultReason_known (controller.rcReason top)).
      + rewrite <- Hro. by apply opReason_opOf.
      + by rewrite mapErrReasonToResultReason_table, <- Hp.
    - intros Hall. apply Hsynced in Hall. apply PrimaryReason_no_failures.
      intros r c Hc.
      assert (Hrr : Z.of_nat (aux.failuresWith r ops) = c)
        by exact (eq_trans (eq_sym (Hr _)) (f_equal (default 0) Hc)).
      pose proof (failuresWith_le r ops) as Hfle. unfold ops in Hfle.
      rewrite failures_opOf in Hfle. fold nf ops in Hfle. lia. }
  split; [done|].
  assert (Hrequeue : result.RequeueAfter d
            = (if allSynced then 0
               else if existsb (λ a, aux.failed a && aux.transientKind (aux.kindOf a))
                         targets
                    then 2 * controller.Minute else 10 * controller.Minute)).
  { assert (Hraw : result.RequeueAfter d =
              if negb (String.eqb (result.Outcome_ d) result.OutcomeSuccess)
              then if controller.HasTransient obs
                   then controller.TransientDelay controller.DefaultPolicy
                   else controller.PermanentDelay controller.DefaultPolicy
              else 0) by done.
    rewrite Hraw, Htr. destruct allSynced.
    - destruct Hsuccess as [_ ->]; done.
    - destruct (String.eqb_spec (result.Outcome_ d) result.OutcomeSuccess) as [He|_];
        [by apply Hsuccess in He|done]. }
  split; [done|].
  unfold decision.Result. change (result.Err d) with (@None errclass.error).
  rewrite Hrequeue. destruct allSynced; [done|]. by destruct (existsb _ _).
Qed.

(** ** The fast path *)

Lemma FindStatusCondition_Some (conditions : list status.Condition) (t : string)
    (c : status.Condition) :
  fastpath.FindStatusCondition conditions t = Some c → c ∈ conditions ∧ status.Type' c = t.
Proof.
  induction conditions as [|x l IH]; simpl; [done|].
  destruct (String.eqb_spec (status.Type' x) t) as [Hx|Hx].
  - intros [= <-]. split; [left|done].
  - intros Hc. apply IH in Hc as [? ?]. split; [by right|done].
Qed.

Lemma FindStatusCondition_None (conditions : list status.Condition) (t : string) :
  fastpath.FindStatusCondition conditions t = None →
  ∀ c, c ∈ conditions → status.Type' c ≠ t.
Proof.
  induction conditions as [|x l IH]; simpl; intros Hnone c Hc.
  { by apply elem_of_nil in Hc. }
  destruct (String.eqb_spec (status.Type' x) t) as [Hx|Hx]; [done|].
  apply elem_of_cons in Hc as [->|Hc]; [done|by apply IH].
Qed.

(** On the list [Conditions] returns, the library lookup finds what the
    live map holds. *)
Lemma FindStatusCondition_Conditions (cs : status.ConditionSet) (t : string) :
  inv.keyed (status.conditions cs) →
  fastpath.FindStatusCondition (status.Conditions cs) t = status.conditions cs !! t.
Proof.
  intros Hk.
  destruct (fastpath.FindStatusCondition (status.Conditions cs) t) as [c|] eqn:Hfind.
  - apply FindStatusCondition_Some in Hfind as [Hin <-].
    symmetry. by apply elem_of_Conditions.
  - destruct (status.conditions cs !! t) as [c|] eqn:Hc; [|done].
    pose proof (Hk _ _ Hc) as Hty.
    destruct (FindStatusCondition_None _ _ Hfind c); [|done].
    apply elem_of_Conditions; [done|]. by rewrite Hty.
Qed.

Lemma keyed_marks (cs : status.ConditionSet) :
  inv.keyed (status.conditions cs) →
  (∀ m, inv.keyed (status.conditions (controller.markReady m cs))) ∧
  (∀ m, inv.keyed (status.conditions (controller.markDegraded m cs))) ∧
  (∀ m, inv.keyed (status.conditions (controller.markSecretAvailable m cs))).
Proof.
  intros Hk. repeat split; intros m;
    unfold controller.markReady, controller.markDegraded, controller.markSecretAvailable;
    repeat apply keyed_Set; done.
Qed.

(** X15.  The conditions a successful fanout pass leaves in its set
    ([markSecretAvailable], then [markReady]), listed by [Conditions] and
    stored with the content fingerprint of the pass, satisfy
    [shouldFastPath] at the generation of the pass: the next trigger with
    the same generation and content is skipped. *)
Theorem fastpath_after_success (conds : list status.Condition) (gen time : Z)
    (available completed hash : string) :
  let cs := controller.markReady completed
              (controller.markSecretAvailable available
                 (status.NewConditionSet conds gen time)) in
  fastpath.shouldFastPath
    {| v1alpha1.Generation := gen;
       v1alpha1.Status := {| v1alpha1.Conditions := status.Conditions cs;
                             v1alpha1.ObservedSourceSecretHash := hash |} |}
    hash = true.
Proof.
  intros cs.
  set (cs0 := status.NewConditionSet conds gen time).
  set (cs1 := controller.markSecretAvailable available cs0).
  assert (Hk0 : inv.keyed (status.conditions cs0)) by apply keyed_NewConditionSet.
  assert (Hk1 : inv.keyed (status.conditions cs1)) by (by apply keyed_marks).
  assert (Hk : inv.keyed (status.conditions cs)) by (by apply keyed_marks).
  assert (Hg1 : status.observedGeneration cs1 = gen)
    by (unfold cs1, controller.markSecretAvailable; by rewrite (proj2 (proj2 (Set_fields _ _ _ _ _)))).
  set (cs2 := status.Set' v1alpha1.ConditionReady status.ConditionTrue
                v1alpha1.ReasonReconciled completed cs1).
  assert (Hg2 : status.observedGeneration cs2 = gen)
    by (unfold cs2; by rewrite (proj2 (proj2 (Set_fields _ _ _ _ _)))).
  assert (Hcs : cs = status.Set' v1alpha1.ConditionDegraded status.ConditionFalse
                       v1alpha1.ReasonReconciled completed cs2) by done.
  destruct (Set_stored v1alpha1.ConditionReferenceSecretReady status.ConditionTrue
              v1alpha1.ReasonSecretAvailable available cs0) as (c1 & Hc1 & Hs1 & _ & _ & Hgen1).
  destruct (Set_stored v1alpha1.ConditionReady status.ConditionTrue
              v1alpha1.ReasonReconciled completed cs1) as (c2 & Hc2 & Hs2 & _ & _ & Hgen2).
  destruct (Set_stored v1alpha1.ConditionDegraded status.ConditionFalse
              v1alpha1.ReasonReconciled completed cs2) as (c3 & Hc3 & Hs3 & _ & _ & Hgen3).
  fold cs1 in Hc1. fold cs2 in Hc2. rewrite <- Hcs in Hc3.
  assert (Hready : status.conditions cs !! v1alpha1.ConditionReady = Some c2)
    by (rewrite Hcs, Set_other; done).
  assert (Hsecret : status.conditions cs !! v1alpha1.ConditionReferenceSecretReady = Some c1).
  { rewrite Hcs, Set_other by done. unfold cs2. by rewrite Set_other. }
  unfold fastpath.shouldFastPath, fastpath.isCurrentAndEqual. simpl.
  rewrite !FindStatusCondition_Conditions by done.
  rewrite Hready, Hc3, Hsecret, Hs1, Hs2, Hs3, Hgen1, Hgen2, Hgen3, Hg1, Hg2.
  simpl. by rewrite !Z.eqb_refl, String.eqb_refl.
Qed.

(** X16.  The conditions a pass that did not succeed leaves in its set
    ([markDegraded] last) never satisfy [shouldFastPath], whatever the
    generation and the fingerprints: a degraded policy is always
    reconciled again. *)
Theorem no_fastpath_after_degraded (conds : list status.Condition) (gen time : Z)
    (calls : list status.SetCall) (msg observed current : string) (generation : Z) :
  let cs := controller.markDegraded msg
              (status.applySets (status.NewConditionSet conds gen time) calls) in
  fastpath.shouldFastPath
    {| v1alpha1.Generation := generation;
       v1alpha1.Status := {| v1alpha1.Conditions := status.Conditions cs;
                             v1alpha1.ObservedSourceSecretHash := observed |} |}
    current = false.
Proof.
  intros cs.
  set (cs0 := status.applySets (status.NewConditionSet conds gen time) calls).
  assert (Hk0 : inv.keyed (status.conditions cs0))
    by apply keyed_applySets, keyed_NewConditionSet.
  assert (Hk : inv.keyed (status.conditions cs)) by (by apply keyed_marks).
  set (cs1 := status.Set' v1alpha1.ConditionReady status.ConditionFalse
                v1alpha1.ReasonReconcileError msg cs0).
  destruct (Set_stored v1alpha1.ConditionReady status.ConditionFalse
              v1alpha1.ReasonReconcileError msg cs0) as (c & Hc & Hs & _).
  fold cs1 in Hc.
  assert (Hready : status.conditions cs !! v1alpha1.ConditionReady = Some c).
  { unfold cs, controller.markDegraded. fold cs1. by rewrite Set_other. }
  unfold fastpath.shouldFastPath, fastpath.isCurrentAndEqual. simpl.
  rewrite FindStatusCondition_Conditions by done. by rewrite Hready, Hs.
Qed.

(** X17.  If [shouldFastPath] holds for a policy and a content fingerprint,
    it fails for the same status at any other generation and for any other
    fingerprint: a change of the spec or of the source content is never
    skipped. *)
Theorem fastpath_needs_current (identity : v1alpha1.IdentitySyncPolicy)
    (hash : string) :
  fastpath.shouldFastPath identity hash = true →
  (∀ generation, generation ≠ v1alpha1.Generation identity →
     fastpath.shouldFastPath
       {| v1alpha1.Generation := generation;
          v1alpha1.Status := v1alpha1.Status identity |} hash = false) ∧
  (∀ other, other ≠ hash → fastpath.shouldFastPath identity other = false) ∧
  v1alpha1.ObservedSourceSecretHash (v1alpha1.Status identity) = hash.
Proof.
  unfold fastpath.shouldFastPath, fastpath.isCurrentAndEqual. simpl.
  destruct (fastpath.FindStatusCondition _ v1alpha1.ConditionReady) as [c|]; [|done].
  destruct (String.eqb (status.Status c) status.ConditionTrue); [|done]. simpl.
  destruct (Z.eqb_spec (status.ObservedGeneration c) (v1alpha1.Generation identity))
    as [Hg|]; [|done]. simpl.
  destruct (negb _); [done|]. destruct (negb _); [done|].
  destruct (String.eqb_spec (v1alpha1.ObservedSourceSecretHash (v1alpha1.Status identity))
              hash) as [Hh|]; [|done].
  intros _. split; [|split; [|done]].
  - intros generation Hne.
    by destruct (Z.eqb_spec (status.ObservedGeneration c) generation); [congruence|].
  - intros other Hne.
    destruct (String.eqb_spec (v1alpha1.ObservedSourceSecretHash (v1alpha1.Status identity))
                other); [congruence|].
    simpl. by repeat destruct (negb _).
Qed.

(** ** Managed metadata *)

(** X18.  [ensureManagedMetadata] sets the four managed labels from the
    policy, leaves every other label as it was, and is idempotent, so that
    writing the metadata again changes nothing; with a nil metadata or a
    nil policy it does nothing. *)
Theorem ensureManagedMetadata_labels (labels : gmap string string)
    (identity : metadata.PolicyMeta) :
  ∃ labels',
    metadata.ensureManagedMetadata (Some labels) (Some identity) = Some labels' ∧
    labels' !! metadata.LabelName = Some metadata.ID ∧
    labels' !! metadata.LabelManagedBy = Some "identity-sync-policy-operator" ∧
    labels' !! metadata.LabelPolicyName = Some (metadata.Name identity) ∧
    labels' !! metadata.LabelPolicyUID = Some (metadata.UID identity) ∧
    (∀ k, k ∉ [metadata.LabelName; metadata.LabelManagedBy;
               metadata.LabelPolicyName; metadata.LabelPolicyUID] →
          labels' !! k = labels !! k) ∧
    metadata.ensureManagedMetadata (Some labels') (Some identity) = Some labels' ∧
    metadata.ensureManagedMetadata None (Some identity) = None ∧
    metadata.ensureManagedMetadata (Some labels) None = Some labels.
Proof.
  eexists. split; [reflexivity|].
  repeat split.
  - by rewrite !lookup_insert.
  - by rewrite !lookup_insert.
  - by rewrite !lookup_insert.
  - by rewrite lookup_insert_eq.
  - intros k Hk. rewrite !not_elem_of_cons in Hk. destruct Hk as (? & ? & ? & ? & _).
    by rewrite !lookup_insert_ne.
  - simpl. f_equal. apply map_eq. intros k.
    rewrite !lookup_insert. by repeat case_decide.
Qed.

(** ** Watches *)

Lemma append_assoc (s1 s2 s3 : string) :
  String.append (String.append s1 s2) s3 = String.append s1 (String.append s2 s3).
Proof.
  induction s1 as [|a s1 IH]; [done|].
  change (String a (String.append (String.append s1 s2) s3)
          = String a (String.append s1 (String.append s2 s3))).
  by f_equal.
Qed.

Lemma append_nil_l (s : string) : String.append "" s = s.
Proof. done. Qed.

Lemma ltb_inOrder_trans (a b c : string) :
  String.ltb b a = false → String.ltb c b = false → String.ltb c a = false.
Proof.
  intros Hba Hcb. apply not_true_iff_false. intros Hca.
  destruct (ltb_trichotomy a b) as [Hab|[->|Hab]]; [|congruence|congruence].
  destruct (ltb_trichotomy b c) as [Hbc|[->|Hbc]]; [|congruence|congruence].
  pose proof (ltb_trans _ _ _ (ltb_trans _ _ _ Hab Hbc) Hca) as Haa.
  by rewrite ltb_irrefl in Haa.
Qed.

Lemma ltb_antisym (a b : string) :
  String.ltb a b = false → String.ltb b a = false → a = b.
Proof.
  intros Hab Hba. destruct (ltb_trichotomy a b) as [?|[?|?]]; congruence.
Qed.

Lemma sort_strings_order_irrelevant (l l' : list string) :
  l' ≡ₚ l → sort.Slice String.ltb l' = sort.Slice String.ltb l.
Proof.
  intros Hperm. apply (Slice_unique _ ltb_asym ltb_inOrder_trans); [|done].
  intros x y _ _. apply ltb_antisym.
Qed.

(** X19.  The bytes [secretDataHash] feeds to the hash are the keys in
    sorted order, each followed by its data, whatever order the map is
    ranged over; so the fingerprint of a secret does not depend on that
    order, and an update that leaves the data as it was is filtered out by
    the update predicate. *)
Theorem secretDataHash_stable (sha256hex : string → string)
    (data : gmap string string) (keys : list string) :
  keys ≡ₚ (map_to_list data).*1 →
  watch.hashInputOf data keys = watch.hashInput data ∧
  sha256hex (watch.hashInputOf data keys) = watch.secretDataHash sha256hex data ∧
  watch.UpdateFunc sha256hex (Some data) (Some data) = false.
Proof.
  intros Hperm.
  assert (Hin : watch.hashInputOf data keys = watch.hashInput data).
  { unfold watch.hashInput, watch.hashInputOf.
    by rewrite (sort_strings_order_irrelevant _ _ Hperm). }
  split; [done|]. split; [by rewrite Hin|].
  unfold watch.UpdateFunc. by rewrite String.eqb_refl.
Qed.

(** X20.  [secretDataHash] writes keys and data to the hash without any
    separator: a secret whose only key is [k ++ x] with data [v] and one
    whose only key is [k] with data [x ++ v] feed the hash the same bytes,
    have the same fingerprint, and an update from one to the other is not
    seen as a change of content. *)
Theorem secretDataHash_unframed (sha256hex : string → string) (k x v : string) :
  watch.hashInput {[ String.append k x := v ]} = String.append k (String.append x v) ∧
  watch.hashInput {[ k := String.append x v ]} = String.append k (String.append x v) ∧
  watch.secretDataHash sha256hex {[ String.append k x := v ]}
  = watch.secretDataHash sha256hex {[ k := String.append x v ]} ∧
  watch.UpdateFunc sha256hex (Some {[ String.append k x := v ]})
    (Some {[ k := String.append x v ]}) = false.
Proof.
  assert (H1 : watch.hashInput {[ String.append k x := v ]}
               = String.append k (String.append x v)).
  { unfold watch.hashInput, watch.hashInputOf. rewrite map_to_list_singleton. simpl.
    by rewrite lookup_singleton_eq, append_nil_l, append_assoc. }
  assert (H2 : watch.hashInput {[ k := String.append x v ]}
               = String.append k (String.append x v)).
  { unfold watch.hashInput, watch.hashInputOf. rewrite map_to_list_singleton. simpl.
    by rewrite lookup_singleton_eq, append_nil_l. }
  split; [done|]. split; [done|].
  unfold watch.UpdateFunc, watch.secretDataHash. rewrite H1, H2.
  split; [done|]. by rewrite String.eqb_refl.
Qed.

Lemma secretKey_inj (ns1 n1 ns2 n2 : string) :
  aux.free "/"%char ns1 → aux.free "/"%char ns2 →
  watch.secretKey ns1 n1 = watch.secretKey ns2 n2 → ns1 = ns2 ∧ n1 = n2.
Proof.
  unfold watch.secretKey. revert ns2.
  induction ns1 as [|a ns1 IH]; intros [|b ns2]; simpl; intros F1 F2 Hkey.
  - change (String "/" n1 = String "/" n2) in Hkey. by injection Hkey as ->.
  - change (String "/" n1
            = String b (String.append ns2 (String.append "/" n2))) in Hkey.
    injection Hkey as <- _. by destruct F2.
  - change (String a (String.append ns1 (String.append "/" n1))
            = String "/" n2) in Hkey.
    injection Hkey as -> _. by destruct F1.
  - change (String a (String.append ns1 (String.append "/" n1))
            = String b (String.append ns2 (String.append "/" n2))) in Hkey.
    injection Hkey as -> Hrest.
    destruct (IH ns2 (proj2 F1) (proj2 F2) Hrest) as [-> ->]. done.
Qed.

(** X21.  A policy whose source reference names a namespace and a secret
    is indexed under exactly the key by which the policies of that secret
    are listed, and a policy with an incomplete reference under no key;
    for namespaces without a slash, the key determines the namespace and
    the name, so that a secret only maps to policies that reference
    it. *)
Theorem indexerFunc_key (ref : watch.NamespacedNameRef) (namespace name : string) :
  aux.free "/"%char namespace → aux.free "/"%char (watch.Namespace ref) →
  (watch.secretKey namespace name ∈ watch.indexerFunc ref ↔
     watch.Name ref ≠ "" ∧ watch.Namespace ref ≠ "" ∧
     watch.Namespace ref = namespace ∧ watch.Name ref = name) ∧
  (watch.Name ref = "" ∨ watch.Namespace ref = "" → watch.indexerFunc ref = []) ∧
  (watch.Name ref ≠ "" → watch.Namespace ref ≠ "" →
     watch.indexerFunc ref = [watch.secretKey (watch.Namespace ref) (watch.Name ref)]).
Proof.
  intros Hns Href. unfold watch.indexerFunc.
  destruct (String.eqb_spec (watch.Name ref) "") as [Hn|Hn].
  { split; [|split; [done|done]]. split; [intros H; by apply elem_of_nil in H|].
    by intros (? & _). }
  destruct (String.eqb_spec (watch.Namespace ref) "") as [Hs|Hs].
  { split; [|split; [done|done]]. split; [intros H; by apply elem_of_nil in H|].
    by intros (_ & ? & _). }
  split; [|split; [by intros [?|?]|done]].
  rewrite list_elem_of_singleton. split.
  - intros Hkey. symmetry in Hkey.
    apply secretKey_inj in Hkey as [? ?]; done.
  - by intros (_ & _ & -> & ->).
Qed.

(** ** Truncation of messages *)

(** X22.  [truncate] returns strings of at most [max] bytes unchanged and
    cuts longer ones to exactly [max] bytes; for [max > 3] the result is
    the first [max - 3] bytes followed by three dots; a limit that is not
    positive switches truncation off; and truncating twice is the same as
    truncating once. *)
Theorem truncate_spec (s : string) (max : Z) :
  (max <= 0 ∨ Z.of_nat (String.length s) <= max → controller.truncate s max = s) ∧
  (0 < max → Z.of_nat (String.length (controller.truncate s max))
             = Z.min (Z.of_nat (String.length s)) max) ∧
  (3 < max < Z.of_nat (String.length s) →
     controller.truncate s max
     = String.append (String.substring 0 (Z.to_nat (max - 3)) s) "...") ∧
  controller.truncate (controller.truncate s max) max = controller.truncate s max.
Proof.
  assert (Hsame : max <= 0 ∨ Z.of_nat (String.length s) <= max →
                  controller.truncate s max = s).
  { intros Hc. unfold controller.truncate.
    destruct (Z.leb_spec max 0); [done|]. simpl.
    destruct (Z.leb_spec (Z.of_nat (String.length s)) max); [done|lia]. }
  assert (Hlen : 0 < max → Z.of_nat (String.length (controller.truncate s max))
                           = Z.min (Z.of_nat (String.length s)) max).
  { intros Hmax. unfold controller.truncate, controller.prefix.
    destruct (Z.leb_spec max 0); [lia|]. simpl.
    destruct (Z.leb_spec (Z.of_nat (String.length s)) max) as [Hs|Hs]; [lia|].
    destruct (Z.leb_spec max 3).
    - rewrite length_substring_0. lia.
    - rewrite length_append, length_substring_0. simpl. lia. }
  split; [done|]. split; [done|]. split.
  - intros [H3 Hs]. unfold controller.truncate, controller.prefix.
    destruct (Z.leb_spec max 0); [lia|]. simpl.
    destruct (Z.leb_spec (Z.of_nat (String.length s)) max); [lia|].
    by destruct (Z.leb_spec max 3); [lia|].
  - destruct (Z.le_gt_cases max 0) as [Hmax|Hmax].
    + unfold controller.truncate. by destruct (Z.leb_spec max 0); [|lia].
    + unfold controller.truncate at 1.
      destruct (Z.leb_spec max 0); [lia|]. simpl.
      rewrite Hlen by done.
      by destruct (Z.leb_spec (Z.min (Z.of_nat (String.length s)) max) max); [|lia].
Qed.

(** ** Fingerprints of the operation log *)

Lemma append_sep_inj (c : ascii) (s1 s2 r1 r2 : string) :
  aux.free c s1 → aux.free c s2 →
  String.append s1 (String c r1) = String.append s2 (String c r2) →
  s1 = s2 ∧ r1 = r2.
Proof.
  revert s2. induction s1 as [|a s1 IH]; intros [|b s2]; simpl; intros F1 F2 Hkey.
  - change (String c r1 = String c r2) in Hkey. by injection Hkey as ->.
  - change (String c r1 = String b (String.append s2 (String c r2))) in Hkey.
    injection Hkey as <- _. by destruct F2.
  - change (String a (String.append s1 (String c r1)) = String c r2) in Hkey.
    injection Hkey as -> _. by destruct F1.
  - change (String a (String.append s1 (String c r1))
            = String b (String.append s2 (String c r2))) in Hkey.
    injection Hkey as -> Hrest.
    destruct (IH s2 (proj2 F1) (proj2 F2) Hrest) as [-> ->]. done.
Qed.

Lemma foldl_frame (h : string) (items : list string) :
  foldl (λ h s, String.append (String.append h s) (String oplog.NUL EmptyString))
        h items
  = String.append h (oplog.frame items).
Proof.
  unfold oplog.frame. revert h.
  induction items as [|s items IH]; intros h; simpl.
  - clear. induction h as [|a h IH]; [done|].
    change (String a h = String a (String.append h "")). by f_equal.
  - rewrite IH. rewrite (IH (String.append (String.append "" s) _)).
    by rewrite append_nil_l, <- !append_assoc.
Qed.

Lemma frame_cons (s : string) (items : list string) :
  oplog.frame (s :: items)
  = String.append s (String oplog.NUL (oplog.frame items)).
Proof.
  unfold oplog.frame at 1. simpl. rewrite foldl_frame.
  by rewrite append_nil_l, append_assoc.
Qed.

Lemma frame_inj (l1 l2 : list string) :
  Forall (aux.free oplog.NUL) l1 → Forall (aux.free oplog.NUL) l2 →
  oplog.frame l1 = oplog.frame l2 → l1 = l2.
Proof.
  intros H1. revert l2. induction H1 as [|s1 l1 Hs1 Hl1 IH]; intros l2 H2 Heq.
  - destruct H2 as [|s2 l2 Hs2 Hl2]; [done|].
    rewrite frame_cons in Heq. by destruct s2.
  - destruct H2 as [|s2 l2 Hs2 Hl2].
    + rewrite frame_cons in Heq. by destruct s1.
    + rewrite !frame_cons in Heq.
      apply append_sep_inj in Heq as [-> Hrest]; [|done|done].
      f_equal. by apply IH.
Qed.

(** X23.  [hashStrings] is order-independent: two slices with the same
    items, however ordered, get the same hash, whatever the digest
    does. *)
Theorem hashStrings_order_irrelevant (fnv64aHex : string → string)
    (items items' : list string) :
  items' ≡ₚ items →
  oplog.hashStrings fnv64aHex items' = oplog.hashStrings fnv64aHex items.
Proof.
  intros Hperm. unfold oplog.hashStrings.
  by rewrite (sort_strings_order_irrelevant items items').
Qed.

(** X24.  The separator byte that [hashStrings] writes after each item
    does what it is there for: for items that do not contain the byte 0,
    the bytes handed to the digest are the same only for slices with the
    same items, counted with their repetitions.  The digest is applied to
    exactly these bytes. *)
Theorem hashStrings_framing (items items' : list string) :
  Forall (aux.free oplog.NUL) items → Forall (aux.free oplog.NUL) items' →
  (oplog.frame (sort.Slice String.ltb items)
   = oplog.frame (sort.Slice String.ltb items') ↔ items ≡ₚ items') ∧
  (∀ fnv64aHex, oplog.hashStrings fnv64aHex items
                = fnv64aHex (oplog.frame (sort.Slice String.ltb items))).
Proof.
  intros H1 H2. split; [|done]. split.
  - intros Heq. apply frame_inj in Heq.
    + by rewrite <- (Slice_Permutation String.ltb items), Heq, Slice_Permutation.
    + by rewrite Slice_Permutation.
    + by rewrite Slice_Permutation.
  - intros Hperm. by rewrite (sort_strings_order_irrelevant items' items).
Qed.

(** ** Sample keys *)

Lemma elem_of_dedupe (seen : gset string) (keys : list string) (k : string) :
  k ∈ oplog.dedupe seen keys ↔ k ∈ keys ∧ k ∉ seen.
Proof.
  revert seen. induction keys as [|key keys IH]; intros seen; simpl.
  - split; [by intros H%elem_of_nil|by intros [H%elem_of_nil _]].
  - case_bool_decide as Hseen.
    + rewrite IH, elem_of_cons. split; [tauto|]. intros [[->|?] ?]; tauto.
    + rewrite !elem_of_cons, IH. split.
      * intros [->|[? Hk]]; [tauto|]. split; [tauto|]. set_solver.
      * intros [[->|?] ?]; [tauto|].
        destruct (decide (k = key)) as [->|Hne]; [tauto|]. right. set_solver.
Qed.

Lemma NoDup_dedupe (seen : gset string) (keys : list string) :
  NoDup (oplog.dedupe seen keys).
Proof.
  revert seen. induction keys as [|key keys IH]; intros seen; simpl.
  - constructor.
  - case_bool_decide as Hseen; [done|].
    constructor; [|done]. rewrite elem_of_dedupe. set_solver.
Qed.

Lemma dedupe_Permutation (keys keys' : list string) :
  keys' ≡ₚ keys → oplog.dedupe ∅ keys' ≡ₚ oplog.dedupe ∅ keys.
Proof.
  intros Hperm. apply NoDup_Permutation; [apply NoDup_dedupe..|].
  intros k. rewrite !elem_of_dedupe. by rewrite Hperm.
Qed.

Lemma strings_sorted_strict (l : list string) :
  NoDup l → StronglySorted (sort.inOrder String.ltb) l →
  StronglySorted (λ a b, String.ltb a b = true) l.
Proof.
  intros Hnd Hs. induction Hs as [|a l Hl IH Ha]; [constructor|].
  apply NoDup_cons in Hnd as [Hin Hnd].
  constructor; [by apply IH|].
  apply Forall_forall. intros b Hb.
  rewrite Forall_forall in Ha. specialize (Ha b Hb). unfold sort.inOrder in Ha.
  destruct (ltb_trichotomy a b) as [?|[->|?]]; [done|done|congruence].
Qed.

(** X25.  For a positive limit, [buildSampleKeys] returns the keys of the
    samples without repetition and in increasing order, cut to the limit:
    at most [max] keys, each the key of a sample; the keys kept are the
    smallest ones, and all of them when there are fewer than [max]; and
    the order of the samples does not matter. *)
Theorem buildSampleKeys_spec (samples : list controller.Sample) (max : Z) :
  0 < max →
  let keys := oplog.buildSampleKeys samples max in
  StronglySorted (λ a b, String.ltb a b = true) keys ∧
  Z.of_nat (length keys) <= max ∧
  (∀ k, k ∈ keys → ∃ s, s ∈ samples ∧ k = oplog.sampleKey s) ∧
  (∀ s k, s ∈ samples → k ∈ keys → String.ltb (oplog.sampleKey s) k = true →
          oplog.sampleKey s ∈ keys) ∧
  (Z.of_nat (length keys) < max → ∀ s, s ∈ samples → oplog.sampleKey s ∈ keys) ∧
  (∀ samples', samples' ≡ₚ samples → oplog.buildSampleKeys samples' max = keys).
Proof.
  intros Hmax. cbv zeta. unfold oplog.buildSampleKeys.
  destruct (Z.leb_spec max 0) as [|_]; [lia|]. simpl.
  set (all := sort.Slice String.ltb (oplog.dedupe ∅ (oplog.sampleKey <$> samples))).
  assert (Hall : StronglySorted (λ a b, String.ltb a b = true) all).
  { apply strings_sorted_strict.
    - unfold all. rewrite Slice_Permutation. apply NoDup_dedupe.
    - apply Slice_sorted; [apply ltb_asym|apply ltb_inOrder_trans]. }
  assert (Hin : ∀ k, k ∈ all ↔ ∃ s, s ∈ samples ∧ k = oplog.sampleKey s).
  { intros k. unfold all. rewrite Slice_Permutation, elem_of_dedupe, list_elem_of_fmap.
    split; [intros [(s & -> & ?) _]; by exists s|].
    intros (s & ? & ->). split; [by exists s|set_solver]. }
  assert (Hperm : ∀ samples', samples' ≡ₚ samples →
            sort.Slice String.ltb (oplog.dedupe ∅ (oplog.sampleKey <$> samples'))
            = all).
  { intros samples' Hp. apply sort_strings_order_irrelevant.
    apply dedupe_Permutation. by rewrite Hp. }
  destruct samples as [|s0 samples].
  { simpl. repeat split; try constructor; try lia.
    - by intros k H%elem_of_nil.
    - by intros s k H%elem_of_nil.
    - by intros _ s H%elem_of_nil.
    - intros samples' Hp. apply Permutation_nil_r in Hp. by subst. }
  change ((length (s0 :: samples) =? 0)%nat) with false. cbv iota.
  assert (Hcut : ∀ samples', samples' ≡ₚ s0 :: samples →
            (if (length samples' =? 0)%nat then []
             else
               let keys :=
                 sort.Slice String.ltb (oplog.dedupe ∅ (oplog.sampleKey <$> samples')) in
               if max <? Z.of_nat (length keys) then take (Z.to_nat max) keys else keys)
            = (if max <? Z.of_nat (length all) then take (Z.to_nat max) all else all)).
  { intros samples' Hp. cbv zeta. rewrite (Hperm samples' Hp).
    apply Permutation_length in Hp. simpl in Hp.
    by destruct samples'. }
  destruct (Z.ltb_spec max (Z.of_nat (length all))) as [Hlong|Hshort].
  - assert (Hsplit : all = (take (Z.to_nat max) all ++ drop (Z.to_nat max) all)%list)
      by (by rewrite take_drop).
    split.
    { rewrite Hsplit in Hall. by apply StronglySorted_app_1_l in Hall. }
    split.
    { rewrite length_take. lia. }
    split.
    { intros k Hk. apply Hin. rewrite Hsplit. apply elem_of_app. by left. }
    split.
    { intros s k Hs Hk Hlt.
      assert (Hs' : oplog.sampleKey s ∈ all) by (apply Hin; by exists s).
      rewrite Hsplit in Hs'. apply elem_of_app in Hs' as [?|Hdrop]; [done|].
      rewrite Hsplit in Hall.
      pose proof (StronglySorted_app_1_elem_of _ _ _ _ _ Hall Hk Hdrop) as Hgt.
      simpl in Hgt. apply ltb_asym in Hgt. congruence. }
    split.
    { rewrite length_take. lia. }
    intros samples' Hp. exact (Hcut samples' Hp).
  - split; [done|]. split; [lia|]. split; [intros k Hk; by apply Hin|].
    split; [intros s k Hs _ _; apply Hin; by exists s|].
    split; [intros _ s Hs; apply Hin; by exists s|].
    intros samples' Hp. exact (Hcut samples' Hp).
Qed.

(** ** The operation log *)

Lemma logFailure_line (quote : string → string) (phase : observability.Phase)
    (identity : metadata.PolicyMeta) (decision : result.Decision)
    (observation : option controller.Observation) (tag : string)
    (ln : oplog.LogLine) :
  oplog.logFailure quote phase identity decision observation tag = Some ln →
  oplog.policy ln = metadata.Name identity ∧ oplog.tag ln = tag ∧
  (result.Outcome_ decision = result.OutcomeFailed ∧
     oplog.level ln = oplog.LevelError ∧ is_Some (oplog.err ln)
   ∨ result.Outcome_ decision = result.OutcomePartial ∧
     oplog.level ln = oplog.LevelInfo ∧ oplog.err ln = None).
Proof.
  unfold oplog.logFailure.
  destruct (String.eqb_spec (result.Outcome_ decision) result.OutcomeFailed) as [Hf|_].
  { intros [= <-]. simpl. split; [done|]. split; [done|]. left. by eauto. }
  destruct (String.eqb_spec (result.Outcome_ decision) result.OutcomePartial) as [Hp|_].
  { intros [= <-]. simpl. split; [done|]. split; [done|]. right. by eauto. }
  done.
Qed.

(** X26.  What [logOperationIfAllowed] never does.  It writes a line only
    for a pass that has a policy object and whose outcome is failed (an
    error line, always with an error) or partial (an info line); the tag
    of the line tells why it was let through: a transition when the
    status was patched, and a reminder otherwise.  A pass without policy
    object, a successful pass and a pass that patched the status leave
    the limiter as it was, and a nil limiter stays nil. *)
Theorem logOperationIfAllowed_line (fnv64aHex quote : string → string)
    (chooseReminder chooseChange : logging.chooser) (now : Z)
    (limiter : option logging.Limiter) (phase : observability.Phase)
    (identity : option metadata.PolicyMeta) (decision : result.Decision)
    (observation : option controller.Observation) (statusPatched : bool)
    (line : option oplog.LogLine) (limiter' : option logging.Limiter) :
  oplog.logOperationIfAllowed fnv64aHex quote chooseReminder chooseChange now
    limiter phase identity decision observation statusPatched
  = Some (line, limiter') →
  (∀ ln, line = Some ln →
     (∃ id, identity = Some id ∧ oplog.policy ln = metadata.Name id) ∧
     (result.Outcome_ decision = result.OutcomeFailed ∧
        oplog.level ln = oplog.LevelError ∧ is_Some (oplog.err ln)
      ∨ result.Outcome_ decision = result.OutcomePartial ∧
        oplog.level ln = oplog.LevelInfo ∧ oplog.err ln = None) ∧
     oplog.tag ln = (if statusPatched then "transition"
                     else match limiter with
                          | None => "reminder(no-limiter)"
                          | Some _ => "reminder"
                          end)) ∧
  (identity = None ∨ result.Outcome_ decision = result.OutcomeSuccess →
   line = None) ∧
  (identity = None ∨ result.Outcome_ decision = result.OutcomeSuccess
   ∨ statusPatched = true → limiter' = limiter) ∧
  (limiter = None ↔ limiter' = None).
Proof.
  unfold oplog.logOperationIfAllowed.
  destruct identity as [id|]; [|intros [= <- <-]; by intuition].
  destruct (String.eqb_spec (result.Outcome_ decision) result.OutcomeSuccess)
    as [Hs|Hs]; [intros [= <- <-]; by intuition|].
  destruct statusPatched.
  { intros [= <- <-]. split; [|by intuition].
    intros ln Hln. apply logFailure_line in Hln as (? & ? & ?). by eauto. }
  destruct limiter as [l|].
  2:{ intros [= <- <-]. split; [|by intuition].
      intros ln Hln. apply logFailure_line in Hln as (? & ? & ?). by eauto. }
  cbv zeta.
  destruct (logging.Allow chooseReminder _ _ _ l) as [[[] l1]|]; [| |done].
  { intros [= <- <-]. split; [|split; [|split]]; [|by intuition..].
    intros ln Hln. apply logFailure_line in Hln as (? & ? & ?). by eauto. }
  destruct (logging.Allow chooseChange _ _ _ l1) as [[[] l2]|]; [| |done].
  { intros [= <- <-]. split; [|split; [|split]]; [|by intuition..].
    intros ln Hln. apply logFailure_line in Hln as (? & ? & ?). by eauto. }
  intros [= <- <-]. split; [done|]. by intuition.
Qed.

(** X27.  The two gates of [logOperationIfAllowed].  For a pass that did
    not succeed and did not patch the status, with a limiter, the call
    returns, and the line is written exactly when the limiter lets the
    reminder fingerprint through for the interval of the primary reason,
    or the change fingerprint through for thirty seconds, both judged on
    the limiter as it was before the call.  When both are blocked the
    limiter is unchanged, and when the reminder gate opens the change
    fingerprint is not consulted. *)
Theorem logOperationIfAllowed_gated (fnv64aHex quote : string → string)
    (chooseReminder chooseChange : logging.chooser) (now : Z)
    (l : logging.Limiter) (phase : observability.Phase)
    (id : metadata.PolicyMeta) (decision : result.Decision)
    (observation : option controller.Observation) :
  0 <= logging.size l →
  result.Outcome_ decision ≠ result.OutcomeSuccess →
  let primary := if String.eqb (result.Reason_ decision) ""
                 then result.ReasonUnknown else result.Reason_ decision in
  let reasonsKey :=
    match observation with
    | Some o => oplog.formatReasons (controller.ErrorReasonCounts o)
    | None => ""
    end in
  let samplesHash :=
    match observation with
    | Some o =>
      oplog.hashStrings fnv64aHex (oplog.buildSampleKeys (controller.Samples o) 3)
    | None => ""
    end in
  let reminder := oplog.fpReminder (metadata.UID id) phase primary in
  let change := oplog.fpChange (metadata.UID id) phase (result.Outcome_ decision)
                  reasonsKey samplesHash in
  let interval := oplog.reminderInterval primary in
  let open := aux.answer l reminder now interval
              || aux.answer l change now (30 * oplog.Second) in
  2 * controller.Minute <= interval <= 20 * controller.Minute ∧
  ∃ l', oplog.logOperationIfAllowed fnv64aHex quote chooseReminder chooseChange now
          (Some l) phase (Some id) decision observation false
        = Some (if open
                then oplog.logFailure quote phase id decision observation "reminder"
                else None, Some l') ∧
        (open = false → l' = l) ∧
        (aux.answer l reminder now interval = true →
         logging.Allow chooseReminder reminder now interval l = Some (true, l')).
Proof.
  intros Hsize Hout primary reasonsKey samplesHash reminder change interval open.
  split.
  { unfold interval, oplog.reminderInterval, controller.Minute.
    repeat (case_match; try lia). }
  unfold oplog.logOperationIfAllowed.
  destruct (String.eqb_spec (result.Outcome_ decision) result.OutcomeSuccess)
    as [|_]; [done|].
  cbv zeta. fold primary. fold reasonsKey. fold samplesHash.
  fold reminder. fold change. fold interval.
  pose proof (Allow_answer chooseReminder reminder now interval l Hsize) as HR.
  destruct (logging.Allow chooseReminder reminder now interval l)
    as [[b1 l1]|] eqn:HA1; [|done].
  simpl in HR. injection HR as HR. unfold open. rewrite <- HR.
  destruct b1; simpl.
  { exists l1. by repeat split. }
  apply Allow_false_inv in HA1 as (-> & _ & _).
  pose proof (Allow_answer chooseChange change now (30 * oplog.Second) l Hsize) as HC.
  destruct (logging.Allow chooseChange change now (30 * oplog.Second) l)
    as [[b2 l2]|] eqn:HA2; [|done].
  simpl in HC. injection HC as HC. rewrite <- HC.
  destruct b2; simpl.
  { exists l2. by repeat split. }
  apply Allow_false_inv in HA2 as (-> & _ & _).
  exists l. by repeat split.
Qed.

(** ** The end of a pass *)

Lemma logOperationIfAllowed_returns (fnv64aHex quote : string → string)
    (chooseReminder chooseChange : logging.chooser) (now : Z)
    (limiter : option logging.Limiter) (phase : observability.Phase)
    (identity : option metadata.PolicyMeta) (decision : result.Decision)
    (observation : option controller.Observation) (statusPatched : bool) :
  (∀ l, limiter = Some l → 0 <= logging.size l) →
  ∃ line limiter',
    oplog.logOperationIfAllowed fnv64aHex quote chooseReminder chooseChange now
      limiter phase identity decision observation statusPatched
    = Some (line, limiter').
Proof.
  intros Hsize. unfold oplog.logOperationIfAllowed.
  destruct identity as [id|]; [|by eauto].
  destruct (String.eqb _ _); [by eauto|].
  destruct statusPatched; [by eauto|].
  destruct limiter as [l|]; [|by eauto].
  specialize (Hsize l eq_refl). cbv zeta.
  match goal with
  | |- context [logging.Allow chooseReminder ?fp now ?i l] =>
    pose proof (Allow_answer chooseReminder fp now i l Hsize) as HR;
    destruct (logging.Allow chooseReminder fp now i l) as [[b1 l1]|] eqn:HA1;
      [|done]
  end.
  destruct b1; [by eauto|].
  apply Allow_false_inv in HA1 as (-> & _ & _).
  match goal with
  | |- context [logging.Allow chooseChange ?fp now ?i l] =>
    pose proof (Allow_answer chooseChange fp now i l Hsize) as HC;
    destruct (logging.Allow chooseChange fp now i l) as [[b2 l2]|] eqn:HA2;
      [|done]
  end.
  destruct b2; by eauto.
Qed.

Lemma wrapPatchError_class (kind reason : string) (e : errclass.error)
    (policy : errclass.NotFoundPolicy) :
  errclass.ClassifyError (Some (controller.wrapPatchError kind reason e)) policy
  = errclass.ClassifyError (Some e) policy.
Proof. done. Qed.

(** The status path sends no request, or one: refused with the wrapped
    error, or accepted. *)
Lemma finishStatus_cases
    (SetStatusCondition :
       list status.Condition → status.Condition → list status.Condition)
    (patchAnswer : option errclass.error) (phase : observability.Phase)
    (identity : v1alpha1.IdentitySyncPolicy) (conds : status.ConditionSet)
    (decision : result.Decision) (currentHash : string) :
  let patch := (controller.finishStatus SetStatusCondition patchAnswer phase
                  identity conds decision currentHash).2 in
  (controller.requests patch = [] ∧ controller.patched patch = false ∧
   controller.patchErr patch = None) ∨
  (∃ r, controller.requests patch = [r] ∧
        match patchAnswer with
        | Some e =>
          controller.patched patch = false ∧
          ∃ kind reason,
            controller.patchErr patch
            = Some (controller.wrapPatchError kind reason e)
        | None => controller.patched patch = true ∧ controller.patchErr patch = None
        end).
Proof.
  unfold controller.finishStatus. cbv zeta. unfold snd.
  unfold controller.patchStatusIfChanged. cbv zeta.
  match goal with
  | |- context [if ?c then {| controller.requests := [];
                              controller.identity' := _;
                              controller.patched := _;
                              controller.patchErr := _ |} else _] =>
    destruct c
  end; [by left|]. right.
  destruct patchAnswer as [e|]; simpl.
  - eexists. split; [done|]. split; [done|]. by eauto.
  - eexists. by repeat split.
Qed.

(** X28.  A status patch that the API server refuses ends the pass
    there: [finish] returns an empty result with the error, after the one
    patch request, without recording metrics, without writing a log line
    and without touching the limiter.  The error returned wraps the
    server's error and is classified as the server's error is. *)
Theorem finish_patch_failed (fnv64aHex quote : string → string)
    (SetStatusCondition :
       list status.Condition → status.Condition → list status.Condition)
    (e : errclass.error) (chooseReminder chooseChange : logging.chooser)
    (sinceStart now : Z) (limiter : option logging.Limiter) (hasMetrics : bool)
    (f : oplog.reconcileContext) (policy : oplog.Policy)
    (conds : status.ConditionSet) :
  oplog.identity f = Some policy → oplog.conditions f = Some conds →
  let patch :=
    (controller.finishStatus SetStatusCondition (Some e) (oplog.rcPhase f)
       (oplog.object policy) conds (oplog.decision f) (oplog.currentHash f)).2 in
  controller.requests patch ≠ [] →
  ∃ err,
    oplog.finish fnv64aHex quote SetStatusCondition (Some e) chooseReminder
      chooseChange sinceStart now limiter hasMetrics f
    = Some {| oplog.requests := controller.requests patch;
              oplog.metrics := [];
              oplog.logged := None;
              oplog.limiterAfter := limiter;
              oplog.res := {| decision.RequeueAfter := 0 |};
              oplog.resErr := Some err |} ∧
    length (controller.requests patch) = 1%nat ∧
    (∀ p, errclass.ClassifyError (Some err) p = errclass.ClassifyError (Some e) p).
Proof.
  intros Hid Hconds patch Hreq.
  destruct (finishStatus_cases SetStatusCondition (Some e) (oplog.rcPhase f)
              (oplog.object policy) conds (oplog.decision f) (oplog.currentHash f))
    as [(Hr & _)|(r & Hr & _ & kind & reason & He)]; fold patch in Hr; [done|].
  fold patch in He.
  exists (controller.wrapPatchError kind reason e).
  split; [|split; [by rewrite Hr|intros p; apply wrapPatchError_class]].
  unfold oplog.finish. rewrite Hid, Hconds. fold patch. clearbody patch.
  simpl. by rewrite He.
Qed.

Lemma logOperationIfAllowed_success (fnv64aHex quote : string → string)
    (chooseReminder chooseChange : logging.chooser) (now : Z)
    (limiter : option logging.Limiter) (phase : observability.Phase)
    (identity : option metadata.PolicyMeta) (decision : result.Decision)
    (observation : option controller.Observation) (statusPatched : bool) :
  result.Outcome_ decision = result.OutcomeSuccess →
  oplog.logOperationIfAllowed fnv64aHex quote chooseReminder chooseChange now
    limiter phase identity decision observation statusPatched
  = Some (None, limiter).
Proof.
  intros Hs. unfold oplog.logOperationIfAllowed. rewrite Hs.
  by destruct identity.
Qed.

Lemma logOperationIfAllowed_patched (fnv64aHex quote : string → string)
    (chooseReminder chooseChange : logging.chooser) (now : Z)
    (limiter : option logging.Limiter) (phase : observability.Phase)
    (id : metadata.PolicyMeta) (decision : result.Decision)
    (observation : option controller.Observation) :
  result.Outcome_ decision ≠ result.OutcomeSuccess →
  oplog.logOperationIfAllowed fnv64aHex quote chooseReminder chooseChange now
    limiter phase (Some id) decision observation true
  = Some (oplog.logFailure quote phase id decision observation "transition",
          limiter).
Proof.
  intros Hs. unfold oplog.logOperationIfAllowed.
  by destruct (String.eqb_spec (result.Outcome_ decision) result.OutcomeSuccess).
Qed.

(** X29.  A pass with a policy object whose status patch, if any, is
    accepted runs [finish] to its end: it returns what the decision
    says, sends at most one request (none without a condition set),
    records the attempt, and the fan-out when there is an observation,
    exactly when a recorder is set, writes no line and leaves the
    limiter alone on success, and on any other outcome that changed the
    status writes the transition line without consulting the limiter. *)
Theorem finish_completed (fnv64aHex quote : string → string)
    (SetStatusCondition :
       list status.Condition → status.Condition → list status.Condition)
    (chooseReminder chooseChange : logging.chooser)
    (sinceStart now : Z) (limiter : option logging.Limiter) (hasMetrics : bool)
    (f : oplog.reconcileContext) (policy : oplog.Policy) :
  oplog.identity f = Some policy →
  (∀ l, limiter = Some l → 0 <= logging.size l) →
  ∃ fin,
    oplog.finish fnv64aHex quote SetStatusCondition None chooseReminder
      chooseChange sinceStart now limiter hasMetrics f = Some fin ∧
    (oplog.res fin, oplog.resErr fin) = decision.Result (oplog.decision f) ∧
    (length (oplog.requests fin) <= 1)%nat ∧
    (oplog.conditions f = None → oplog.requests fin = []) ∧
    oplog.metrics fin =
      (if hasMetrics then
         oplog.RecordAttempt (result.Outcome_ (oplog.decision f))
           (result.Reason_ (oplog.decision f)) (oplog.rcPhase f) sinceStart ::
         match oplog.observation f with
         | Some o => [oplog.RecordFanout (controller.Total o) (controller.Success o)
                        (controller.Failed o)]
         | None => []
         end
       else []) ∧
    (result.Outcome_ (oplog.decision f) = result.OutcomeSuccess →
     oplog.logged fin = None ∧ oplog.limiterAfter fin = limiter) ∧
    (result.Outcome_ (oplog.decision f) ≠ result.OutcomeSuccess →
     oplog.requests fin ≠ [] →
     oplog.logged fin
     = oplog.logFailure quote (oplog.rcPhase f) (oplog.meta policy) (oplog.decision f)
         (oplog.observation f) "transition" ∧
     oplog.limiterAfter fin = limiter).
Proof.
  intros Hid Hsize. unfold oplog.finish. rewrite Hid.
  set (patch := match oplog.conditions f with
                | Some conds => Some _
                | None => None
                end).
  assert (Hpatch : patch ≫= controller.patchErr = None ∧
            (length (default [] (controller.requests <$> patch)) <= 1)%nat ∧
            (oplog.conditions f = None → default [] (controller.requests <$> patch) = []) ∧
            (default [] (controller.requests <$> patch) ≠ [] →
             default false (controller.patched <$> patch) = true)).
  { unfold patch. destruct (oplog.conditions f) as [conds|];
      [|simpl; repeat split; try done; lia].
    pose proof (finishStatus_cases SetStatusCondition None (oplog.rcPhase f)
                  (oplog.object policy) conds (oplog.decision f)
                  (oplog.currentHash f)) as Hcases.
    cbv zeta in Hcases.
    set (o := (controller.finishStatus SetStatusCondition None (oplog.rcPhase f)
                 (oplog.object policy) conds (oplog.decision f)
                 (oplog.currentHash f)).2) in *.
    clearbody o.
    destruct Hcases as [(Hr & _ & He)|(r & Hr & Hp & He)]; simpl;
      rewrite Hr, He; simpl; repeat split; try done; lia. }
  destruct Hpatch as (-> & Hlen & Hnone & Hpatched). clearbody patch.
  destruct (logOperationIfAllowed_returns fnv64aHex quote chooseReminder
              chooseChange now limiter (oplog.rcPhase f) (Some (oplog.meta policy))
              (oplog.decision f) (oplog.observation f)
              (default false (controller.patched <$> patch)) Hsize)
    as (line & limiter' & Hlog).
  rewrite Hlog. eexists. split; [done|]. simpl.
  split; [by destruct (decision.Result _)|].
  split; [done|]. split; [done|]. split; [done|]. split.
  - intros Hs. rewrite logOperationIfAllowed_success in Hlog by done.
    by injection Hlog as <- <-.
  - intros Hs Hreq. rewrite (Hpatched Hreq) in Hlog.
    rewrite logOperationIfAllowed_patched in Hlog by done.
    by injection Hlog as <- <-.
Qed.

(** ** The reasons in a log line *)

Lemma foldl_writeReason (b : string) (reasons : list controller.ReasonCount) :
  Forall (λ r, r ≠ "") (aux.named reasons) →
  foldl oplog.writeReason b reasons
  = match aux.named reasons with
    | [] => b
    | _ :: _ =>
      if String.eqb b "" then aux.join "," (aux.named reasons)
      else String.append b (String.append "," (aux.join "," (aux.named reasons)))
    end.
Proof.
  revert b. induction reasons as [|rc reasons IH]; intros b Hne; [done|].
  unfold aux.named in *. revert Hne.
  change (foldl oplog.writeReason b (rc :: reasons))
    with (foldl oplog.writeReason (oplog.writeReason b rc) reasons).
  rewrite filter_cons.
  unfold oplog.writeReason at 2.
  destruct (decide (controller.Count rc ≠ 0)) as [Hz|Hz]; intros Hne.
  2:{ destruct (Z.eqb_spec (controller.Count rc) 0); [by apply IH|done]. }
  destruct (Z.eqb_spec (controller.Count rc) 0); [done|].
  rewrite fmap_cons in *.
  apply Forall_cons in Hne as [Hrc Hne]. rewrite IH by done.
  set (names := controller.rcReason <$> filter _ reasons).
  assert (Hb' : ∀ b', String.eqb (String.append b' (controller.rcReason rc)) ""
                      = false).
  { intros b'. apply String.eqb_neq. destruct b'; [done|]. by destruct b'. }
  destruct b as [|a b].
  - change ((0 <? String.length "")%nat) with false. cbv iota.
    rewrite append_nil_l. simpl String.eqb.
    destruct names as [|nm names]; [done|].
    destruct (controller.rcReason rc) eqn:Hr; [done|]. done.
  - change ((0 <? String.length (String a b))%nat) with true. cbv iota.
    rewrite Hb'. simpl String.eqb.
    destruct names as [|nm names]; simpl aux.join.
    + by rewrite append_assoc.
    + by rewrite !append_assoc.
Qed.

(** X30.  [formatReasons] writes the reasons that have a count other
    than zero, each once, in the order of [SortInPlace], with a comma
    between them and none before the first or after the last: what
    [strings.Join] gives for them.  This holds when none of these reasons
    is the empty string; an empty reason in first place would swallow
    the comma after it. *)
Theorem formatReasons_join (reasons : controller.ReasonCounts) :
  Forall (λ r, r ≠ "") (aux.named reasons) →
  oplog.formatReasons reasons
  = aux.join "," (aux.named (controller.SortInPlace reasons)).
Proof.
  intros Hne. unfold oplog.formatReasons.
  destruct reasons as [|rc reasons]; [done|].
  change ((length (rc :: reasons) =? 0)%nat) with false. cbv iota.
  rewrite foldl_writeReason.
  - destruct (aux.named (controller.SortInPlace (rc :: reasons))); reflexivity.
  - unfold aux.named in *. unfold controller.SortInPlace.
    by rewrite Slice_Permutation.
Qed.

(** * The further properties at concrete inputs *)

Lemma Changed_after_Set_witness :
  NoDup (status.Type' <$> [examples.condReady]) ∧
  status.Changed (status.Set' "Ready" "True" "Ok" "old"
                    (status.NewConditionSet [examples.condReady] 5 200)) = false.
Proof.
  assert (Hnd : NoDup (status.Type' <$> [examples.condReady]))
    by (simpl; apply NoDup_singleton).
  split; [exact Hnd|].
  apply (Changed_after_Set [examples.condReady] 5 200 "Ready" "True" "Ok" "old" Hnd).
  exists examples.condReady. repeat split. apply list_elem_of_singleton. reflexivity.
Defined.

Lemma Changed_after_restore_witness :
  NoDup (status.Type' <$> [examples.condReady]) ∧
  status.Changed
    (status.Set' "Ready" "True" "Ok" "old"
       (status.Set' "Ready" "False" "Broken" "new"
          (status.NewConditionSet [examples.condReady] 5 200))) = false.
Proof.
  assert (Hnd : NoDup (status.Type' <$> [examples.condReady]))
    by (simpl; apply NoDup_singleton).
  assert (Hin : examples.condReady ∈ [examples.condReady])
    by (apply list_elem_of_singleton; reflexivity).
  split; [exact Hnd|].
  exact (Changed_after_restore [examples.condReady] 5 200 examples.condReady
           "False" "Broken" "new" Hnd Hin eq_refl).
Defined.

Lemma Allow_touches_own_entry_witness :
  let l := {| logging.size := 10; logging.entries := {["a" := 110]} |} in
  let l' := {| logging.size := 10;
               logging.entries := <["b" := 115]> {["a" := 110]} |} in
  logging.Allow examples.first "b" 105 10 l = Some (true, l') ∧
  logging.size l' = logging.size l.
Proof.
  intros l l'.
  assert (H : logging.Allow examples.first "b" 105 10 l = Some (true, l'))
    by (vm_compute; reflexivity).
  assert (Hsize : 0 <= logging.size l) by (simpl; lia).
  split; [exact H|].
  exact (proj1 (Allow_touches_own_entry examples.first "b" 105 10 l true l' Hsize H)).
Defined.

Lemma Allow_answer_expired_witness :
  let l := {| logging.size := 10; logging.entries := {["a" := 110]} |} in
  fst <$> logging.Allow examples.second "a" 120 10
            {| logging.size := 10;
               logging.entries := logging.dropExpired 115 (logging.entries l) |}
  = fst <$> logging.Allow examples.first "a" 120 10 l.
Proof.
  intros l.
  assert (Hsize : 0 <= logging.size l) by (simpl; lia).
  assert (Hnow : 115 <= 120) by lia.
  exact (proj2 (Allow_answer_expired examples.first examples.second "a" 115 120 10 l
                  Hsize Hnow)).
Defined.

Lemma Decide_order_irrelevant_witness :
  scenario.ops ≡ₚ rev scenario.ops ∧
  controller.Decide controller.DefaultPolicy
    (controller.observeAll scenario.fresh scenario.ops)
  = controller.Decide controller.DefaultPolicy
      (controller.observeAll scenario.fresh (rev scenario.ops)).
Proof.
  assert (Hperm : scenario.ops ≡ₚ rev scenario.ops) by (simpl; apply perm_swap).
  split; [exact Hperm|].
  exact (proj2 (Decide_order_irrelevant controller.DefaultPolicy scenario.fresh
                  scenario.ops (rev scenario.ops) Hperm)).
Defined.

Lemma Observation_counters_witness :
  controller.NewObservation 2 50 = Some scenario.fresh ∧
  controller.Success (controller.observeAll scenario.fresh scenario.ops)
  + controller.Failed (controller.observeAll scenario.fresh scenario.ops) = 2.
Proof.
  assert (Hnew : controller.NewObservation 2 50 = Some scenario.fresh)
    by reflexivity.
  assert (Hlen : Z.of_nat (length scenario.ops) <= GoInt.maxInt)
    by (vm_compute; discriminate).
  split; [exact Hnew|].
  destruct (Observation_counters 2 50 scenario.fresh scenario.ops Hnew Hlen)
    as (_ & _ & _ & _ & Hsum & _).
  exact Hsum.
Defined.

Lemma Observation_histogram_witness :
  controller.NewObservation 2 50 = Some scenario.fresh ∧
  aux.sumCounts (controller.Reasons (controller.observeAll scenario.fresh scenario.ops))
  = controller.Failed (controller.observeAll scenario.fresh scenario.ops).
Proof.
  assert (Hnew : controller.NewObservation 2 50 = Some scenario.fresh)
    by reflexivity.
  assert (Hlen : Z.of_nat (length scenario.ops) <= GoInt.maxInt)
    by (vm_compute; discriminate).
  split; [exact Hnew|].
  exact (proj2 (Observation_histogram 2 50 scenario.fresh scenario.ops Hnew Hlen)).
Defined.

Lemma Observation_flags_witness :
  controller.NewObservation 2 50 = Some scenario.fresh ∧
  controller.HasTransient (controller.observeAll scenario.fresh scenario.ops) = true.
Proof.
  assert (Hnew : controller.NewObservation 2 50 = Some scenario.fresh)
    by reflexivity.
  assert (Hlen : Z.of_nat (length scenario.ops) <= GoInt.maxInt)
    by (vm_compute; discriminate).
  split; [exact Hnew|].
  apply (proj1 (Observation_flags 2 50 scenario.fresh scenario.ops Hnew Hlen)).
  exists "team-b", errclass.KindTransient, errclass.ReasonTimeout,
    (Some (examples.plainError "timed out")).
  split; [|left; reflexivity].
  apply elem_of_cons. right. apply list_elem_of_singleton. reflexivity.
Defined.

Lemma reconcileIdentity_decision_witness :
  Z.of_nat (length scenario.targets) <= GoInt.maxInt ∧
  ∃ obs, fanout.reconcileIdentity scenario.targets = Some obs ∧
         controller.Total obs = 2.
Proof.
  assert (Hlen : Z.of_nat (length scenario.targets) <= GoInt.maxInt)
    by (vm_compute; discriminate).
  split; [exact Hlen|].
  destruct (reconcileIdentity_decision scenario.targets Hlen)
    as (obs & Hobs & Htotal & _).
  exists obs. split; [exact Hobs|exact Htotal].
Defined.

Lemma fastpath_needs_current_witness :
  fastpath.shouldFastPath examples.syncedPolicy "h0" = true ∧
  fastpath.shouldFastPath examples.syncedPolicy "h1" = false.
Proof.
  assert (H : fastpath.shouldFastPath examples.syncedPolicy "h0" = true)
    by (vm_compute; reflexivity).
  split; [exact H|].
  destruct (fastpath_needs_current examples.syncedPolicy "h0" H) as (_ & Hother & _).
  apply Hother. discriminate.
Defined.

Lemma secretDataHash_stable_witness :
  let data : gmap string string := {["token" := "t1"]} in
  ["token"] ≡ₚ (map_to_list data).*1 ∧
  watch.UpdateFunc scenario.plain (Some data) (Some data) = false.
Proof.
  intros data.
  assert (Hperm : ["token"] ≡ₚ (map_to_list data).*1)
    by (unfold data; rewrite map_to_list_singleton; reflexivity).
  split; [exact Hperm|].
  destruct (secretDataHash_stable scenario.plain data ["token"] Hperm)
    as (_ & _ & Hupdate).
  exact Hupdate.
Defined.

Lemma indexerFunc_key_witness :
  aux.free "/"%char "team-a" ∧
  watch.secretKey "team-a" "source" ∈ watch.indexerFunc scenario.ref.
Proof.
  assert (Hfree : aux.free "/"%char "team-a") by (simpl; repeat split; discriminate).
  split; [exact Hfree|].
  destruct (indexerFunc_key scenario.ref "team-a" "source" Hfree Hfree)
    as (Hkey & _).
  apply Hkey. repeat split; discriminate.
Defined.

Lemma hashStrings_order_irrelevant_witness :
  ["b"; "a"] ≡ₚ ["a"; "b"] ∧
  oplog.hashStrings scenario.plain ["b"; "a"]
  = oplog.hashStrings scenario.plain ["a"; "b"].
Proof.
  assert (Hperm : ["b"; "a"] ≡ₚ ["a"; "b"]) by apply perm_swap.
  split; [exact Hperm|].
  exact (hashStrings_order_irrelevant scenario.plain ["a"; "b"] ["b"; "a"] Hperm).
Defined.

Lemma hashStrings_framing_witness :
  Forall (aux.free oplog.NUL) ["ab"; "c"] ∧ Forall (aux.free oplog.NUL) ["a"; "bc"] ∧
  oplog.frame (sort.Slice String.ltb ["ab"; "c"])
  ≠ oplog.frame (sort.Slice String.ltb ["a"; "bc"]).
Proof.
  assert (H1 : Forall (aux.free oplog.NUL) ["ab"; "c"])
    by (repeat constructor; discriminate).
  assert (H2 : Forall (aux.free oplog.NUL) ["a"; "bc"])
    by (repeat constructor; discriminate).
  split; [exact H1|]. split; [exact H2|].
  intros Heq.
  apply (proj1 (hashStrings_framing ["ab"; "c"] ["a"; "bc"] H1 H2)) in Heq.
  apply Permutation_length_2_inv in Heq as [Heq|Heq]; discriminate.
Defined.

Lemma buildSampleKeys_spec_witness :
  0 < 3 ∧
  Z.of_nat (length (oplog.buildSampleKeys scenario.samples 3)) <= 3 ∧
  oplog.buildSampleKeys (rev scenario.samples) 3
  = oplog.buildSampleKeys scenario.samples 3.
Proof.
  assert (Hmax : 0 < 3) by lia.
  split; [exact Hmax|].
  destruct (buildSampleKeys_spec scenario.samples 3 Hmax)
    as (_ & Hlen & _ & _ & _ & Hperm).
  split; [exact Hlen|].
  apply Hperm. apply Permutation_sym, Permutation_rev.
Defined.

Lemma logOperationIfAllowed_line_witness :
  let line := oplog.logFailure scenario.plain observability.PhaseFanout
                (oplog.meta scenario.policy) scenario.fanoutFailed None
                "reminder(no-limiter)" in
  oplog.logOperationIfAllowed scenario.plain scenario.plain examples.first
    examples.first 100 None observability.PhaseFanout
    (Some (oplog.meta scenario.policy)) scenario.fanoutFailed None false
  = Some (line, None) ∧
  ∀ ln, line = Some ln → oplog.tag ln = "reminder(no-limiter)".
Proof.
  intros line.
  assert (H : oplog.logOperationIfAllowed scenario.plain scenario.plain
                examples.first examples.first 100 None observability.PhaseFanout
                (Some (oplog.meta scenario.policy)) scenario.fanoutFailed None false
              = Some (line, None)) by reflexivity.
  split; [exact H|].
  destruct (logOperationIfAllowed_line _ _ _ _ _ _ _ _ _ _ _ _ _ H) as (Hline & _).
  intros ln Hln. destruct (Hline ln Hln) as (_ & _ & Htag). exact Htag.
Defined.

Lemma logOperationIfAllowed_gated_witness :
  0 <= logging.size (logging.NewLimiter 10) ∧
  result.Outcome_ scenario.fanoutFailed ≠ result.OutcomeSuccess ∧
  ∃ l', oplog.logOperationIfAllowed scenario.plain scenario.plain examples.first
          examples.first 100 (Some (logging.NewLimiter 10)) observability.PhaseFanout
          (Some (oplog.meta scenario.policy)) scenario.fanoutFailed None false
        = Some (oplog.logFailure scenario.plain observability.PhaseFanout
                  (oplog.meta scenario.policy) scenario.fanoutFailed None "reminder",
                Some l').
Proof.
  assert (Hsize : 0 <= logging.size (logging.NewLimiter 10))
    by (vm_compute; discriminate).
  assert (Hout : result.Outcome_ scenario.fanoutFailed ≠ result.OutcomeSuccess)
    by discriminate.
  split; [exact Hsize|]. split; [exact Hout|].
  destruct (logOperationIfAllowed_gated scenario.plain scenario.plain examples.first
              examples.first 100 (logging.NewLimiter 10) observability.PhaseFanout
              (oplog.meta scenario.policy) scenario.fanoutFailed None Hsize Hout)
    as (_ & l' & Hlog & _).
  exists l'. exact Hlog.
Defined.

Lemma finish_patch_failed_witness :
  let patch :=
    (controller.finishStatus examples.setStatusCondition
       (Some (examples.plainError "etcd unavailable")) observability.PhaseFanout
       examples.syncedPolicy (status.NewConditionSet examples.syncedConditions 7 200)
       scenario.fanoutFailed "h0").2 in
  controller.requests patch ≠ [] ∧
  ∃ fin,
    oplog.finish scenario.plain scenario.plain examples.setStatusCondition
      (Some (examples.plainError "etcd unavailable")) examples.first examples.first
      5 100 (Some (logging.NewLimiter 10)) true scenario.pass = Some fin ∧
    oplog.metrics fin = [] ∧ oplog.logged fin = None.
Proof.
  intros patch.
  assert (Hreq : controller.requests patch ≠ []) by (vm_compute; discriminate).
  split; [exact Hreq|].
  destruct (finish_patch_failed scenario.plain scenario.plain
              examples.setStatusCondition (examples.plainError "etcd unavailable")
              examples.first examples.first 5 100 (Some (logging.NewLimiter 10)) true
              scenario.pass scenario.policy
              (status.NewConditionSet examples.syncedConditions 7 200)
              eq_refl eq_refl Hreq)
    as (err & Hfin & _).
  eexists. split; [exact Hfin|]. split; reflexivity.
Defined.

Lemma finish_completed_witness :
  (∀ l, Some (logging.NewLimiter 10) = Some l → 0 <= logging.size l) ∧
  ∃ fin,
    oplog.finish scenario.plain scenario.plain examples.setStatusCondition None
      examples.first examples.first 5 100 (Some (logging.NewLimiter 10)) true
      scenario.pass = Some fin ∧
    (oplog.res fin, oplog.resErr fin) = decision.Result scenario.fanoutFailed.
Proof.
  assert (Hsize : ∀ l, Some (logging.NewLimiter 10) = Some l → 0 <= logging.size l).
  { intros l Hl. injection Hl as <-. vm_compute. discriminate. }
  split; [exact Hsize|].
  destruct (finish_completed scenario.plain scenario.plain
              examples.setStatusCondition examples.first examples.first 5 100
              (Some (logging.NewLimiter 10)) true scenario.pass scenario.policy
              eq_refl Hsize)
    as (fin & Hfin & Hres & _).
  exists fin. split; [exact Hfin|exact Hres].
Defined.

Lemma formatReasons_join_witness :
  Forall (λ r, r ≠ "") (aux.named scenario.reasons) ∧
  oplog.formatReasons scenario.reasons
  = aux.join "," (aux.named (controller.SortInPlace scenario.reasons)).
Proof.
  assert (Hne : Forall (λ r, r ≠ "") (aux.named scenario.reasons)).
  { unfold aux.named, scenario.reasons. rewrite !filter_cons. simpl.
    repeat constructor; discriminate. }
  split; [exact Hne|].
  exact (formatReasons_join scenario.reasons Hne).
Defined.
